(** * dispatchers/libdispatcher.go: the weight dispatcher

    A shallow embedding of [newDispatcher] and of the four methods of
    [WeightDispatcher] over an explicit Go heap.  Pointers are locations;
    the profile handed to [newDispatcher] and [SetProfile], the backing
    arrays of the [DispatcherConns] slices and the dispatcher objects live
    in the heap, so that aliasing between the caller's profile, a
    dispatcher and its clones is visible.

    Every method is a program whose steps are the statements of the source,
    each step atomic; [Lock] takes the two steps of [sync.RWMutex], the
    announcement of the writer and the wait for the readers.  Run to
    completion a program gives the sequential behaviour of the method;
    scheduled step by step with the programs of other goroutines it gives
    the interleaved one. *)

From stdpp Require Import gmap strings list fin_maps sorting.
From Stdlib Require Import ZArith Lia.

Local Open Scope Z_scope.

(** ** Data *)

(** A pointer.  A location that is not allocated stands for [nil]. *)
Definition loc := positive.

(** Modelled from the spec: [engine.DispatcherConn] is declared in package
    engine, outside libdispatcher.go.  A connection descriptor is an
    identifier and a numeric weight, immutable once it is part of a
    pool. *)
Record DispatcherConn : Set := { ID : string; Weight : Z }.

(** [engine.DispatcherConns], a slice.  The slice header is the location of
    its backing array; a location with no array is the nil slice. *)
Abbreviation DispatcherConns := loc (only parsing).

(** The two fields of [engine.DispatcherProfile] that the dispatcher reads. *)
Record DispatcherProfile : Set := { Strategy : string; Conns : DispatcherConns }.

(** [sync.RWMutex]: the readers that hold it, and whether a writer holds
    it or has announced itself and waits for those readers to leave. *)
Record RWMutex : Set := { writer : bool; readers : nat }.

Definition unlocked : RWMutex := {| writer := false; readers := 0 |}.

#[global] Instance DispatcherConn_eq_dec : EqDecision DispatcherConn.
Proof. solve_decision. Defined.

#[global] Instance RWMutex_eq_dec : EqDecision RWMutex.
Proof. solve_decision. Defined.

(** [type WeightDispatcher struct { sync.RWMutex; conns; nextConnIdx int }] *)
Record WeightDispatcher : Set :=
  { mu : RWMutex; conns : DispatcherConns; nextConnIdx : Z }.

Record heap : Type :=
  { arrays : gmap loc (list DispatcherConn);
    profiles : gmap loc DispatcherProfile;
    dispatchers : gmap loc WeightDispatcher }.

Definition set_arrays (f : gmap loc (list DispatcherConn) → gmap loc (list DispatcherConn))
  (h : heap) : heap :=
  {| arrays := f (arrays h); profiles := profiles h; dispatchers := dispatchers h |}.

Definition set_dispatchers (f : gmap loc WeightDispatcher → gmap loc WeightDispatcher)
  (h : heap) : heap :=
  {| arrays := arrays h; profiles := profiles h; dispatchers := f (dispatchers h) |}.

(** The elements of a slice; the nil slice has none. *)
Definition elems (h : heap) (s : DispatcherConns) : list DispatcherConn :=
  default [] (arrays h !! s).

(** ** Machine integers *)

(** Go's [int] on the 64-bit targets the engine is built for. *)
Definition max_int : Z := 2 ^ 63 - 1.

Definition min_int : Z := - 2 ^ 63.

Definition wrap_int (z : Z) : Z := (z + 2 ^ 63) mod 2 ^ 64 - 2 ^ 63.

(** [len(s)] *)
Definition len (l : list DispatcherConn) : Z := Z.of_nat (length l).

(** [s[i]], [None] when the run-time bounds check fails. *)
Definition index (l : list DispatcherConn) (i : Z) : option DispatcherConn :=
  if (0 <=? i) && (i <? len l) then l !! Z.to_nat i else None.

(** ** Programs *)

Inductive panic : Set := NilDereference | IndexOutOfRange | UnlockOfUnlocked.

(** What one atomic step does on a heap: it completes, panics, or cannot
    proceed because it waits for the mutex. *)
Inductive outcome (A : Type) : Type :=
| Done (a : A) (h : heap)
| Panicked (p : panic)
| Blocked.

Arguments Done {A} a h.
Arguments Panicked {A} p.
Arguments Blocked {A}.

Definition action (B : Type) : Type := heap → outcome B.

Definition pure {A : Type} (a : A) : action A := λ h, Done a h.

(** Sequencing inside one atomic step. *)
Definition andThen {A B : Type} (s : action A) (f : A → action B) : action B :=
  λ h, match s h with
       | Done a h' => f a h'
       | Panicked p => Panicked p
       | Blocked => Blocked
       end.

Notation "'let!' x ':=' s 'in' f" := (andThen s (λ x, f))
  (at level 10, x name, s at level 100, f at level 200, only parsing).

(** A program is a sequence of atomic steps; between two of them other
    goroutines may run. *)
Inductive prog (A : Type) : Type :=
| Ret (a : A)
| Act {B : Set} (s : action B) (k : B → prog A).

Arguments Ret {A} a.
Arguments Act {A B} s k.

Fixpoint bind {A B : Type} (m : prog A) (f : A → prog B) : prog B :=
  match m with
  | Ret a => f a
  | Act s k => Act s (λ b, bind (k b) f)
  end.

Definition atomic {B : Set} (s : action B) : prog B := Act s Ret.

#[global] Instance prog_bind : MBind prog := λ A B f m, bind m f.
#[global] Instance prog_ret : MRet prog := λ A a, Ret a.

(** Sequential execution: the steps one after the other, nothing in between. *)
Fixpoint run {A : Type} (m : prog A) (h : heap) : outcome A :=
  match m with
  | Ret a => Done a h
  | Act s k =>
      match s h with
      | Done b h' => run (k b) h'
      | Panicked p => Panicked p
      | Blocked => Blocked
      end
  end.

(** ** Package engine: Sort and Clone *)

(** [c] is put in front of a sorted pool and moves right past every
    descriptor that is strictly heavier; it stays in front of those of its
    own weight, which were declared after it. *)
Definition insertConn (c : DispatcherConn) : list DispatcherConn → list DispatcherConn :=
  fix go (l : list DispatcherConn) : list DispatcherConn :=
    match l with
    | [] => [c]
    | d :: l' => if Weight c <? Weight d then d :: go l' else c :: d :: l'
    end.

(** Modelled from the spec: [DispatcherConns.Sort] is declared in package
    engine, outside libdispatcher.go.  The canonical order is weight
    descending, ties in the order of declaration: a stable sort. *)
Definition sortConns (l : list DispatcherConn) : list DispatcherConn :=
  foldr insertConn [] l.

(** [s.Sort()] sorts the backing array in place; the nil slice has nothing
    to sort. *)
Definition Sort (s : DispatcherConns) : action unit :=
  λ h, Done () (set_arrays (alter sortConns s) h).

(** Modelled from the spec: [DispatcherConns.Clone] is declared in package
    engine, outside libdispatcher.go.  A deep copy: the descriptors are
    copied into a backing array of their own. *)
Definition Clone (s : DispatcherConns) : action DispatcherConns :=
  λ h, let a := fresh (dom (arrays h)) in
       Done a (set_arrays (insert a (elems h s)) h).

(** Modelled from the spec: [utils.MetaWeight] is declared in package utils,
    outside libdispatcher.go; the name of the one recognised strategy.
    Only the example heaps depend on how it is spelled. *)
Definition MetaWeight : string := "*weight".

(** ** Steps on the heap *)

(** [*pfl], a nil pointer dereference when [pfl] is nil. *)
Definition loadProfile (pfl : loc) : action DispatcherProfile :=
  λ h, match profiles h !! pfl with
       | Some p => Done p h
       | None => Panicked NilDereference
       end.

(** [*wd] *)
Definition loadDispatcher (wd : loc) : action WeightDispatcher :=
  λ h, match dispatchers h !! wd with
       | Some d => Done d h
       | None => Panicked NilDereference
       end.

(** [*wd = d] *)
Definition storeDispatcher (wd : loc) (f : WeightDispatcher → WeightDispatcher) : action unit :=
  λ h, match dispatchers h !! wd with
       | Some d => Done () (set_dispatchers (insert wd (f d)) h)
       | None => Panicked NilDereference
       end.

(** [&WeightDispatcher{conns: c}]: the mutex and the index have their zero
    values. *)
Definition allocDispatcher (c : DispatcherConns) : action loc :=
  λ h, let wd := fresh (dom (dispatchers h)) in
       Done wd (set_dispatchers
                  (insert wd {| mu := unlocked; conns := c; nextConnIdx := 0 |}) h).

Definition with_mu (m : RWMutex) (d : WeightDispatcher) : WeightDispatcher :=
  {| mu := m; conns := conns d; nextConnIdx := nextConnIdx d |}.

Definition with_conns (c : DispatcherConns) (d : WeightDispatcher) : WeightDispatcher :=
  {| mu := mu d; conns := c; nextConnIdx := nextConnIdx d |}.

Definition with_nextConnIdx (i : Z) (d : WeightDispatcher) : WeightDispatcher :=
  {| mu := mu d; conns := conns d; nextConnIdx := i |}.

(** ** sync.RWMutex *)

(** [wd.Lock()], in the two steps of [sync.RWMutex].  The writer first
    waits until no other writer has the mutex and announces itself; from
    then on [RLock] waits, so that the readers cannot keep the writer
    out.  Then the writer waits until the readers that hold the mutex
    have left.  [writer] is set from the announcement until [Unlock]. *)
Definition announce (wd : loc) : action unit :=
  λ h, match dispatchers h !! wd with
       | None => Panicked NilDereference
       | Some d =>
           if writer (mu d) then Blocked
           else Done () (set_dispatchers
                           (insert wd (with_mu {| writer := true; readers := readers (mu d) |} d)) h)
       end.

Definition readersLeave (wd : loc) : action unit :=
  λ h, match dispatchers h !! wd with
       | None => Panicked NilDereference
       | Some d => if (readers (mu d) =? 0)%nat then Done () h else Blocked
       end.

Definition Lock (wd : loc) : prog unit :=
  atomic (announce wd);; atomic (readersLeave wd).

(** [wd.Unlock()] *)
Definition Unlock (wd : loc) : action unit :=
  λ h, match dispatchers h !! wd with
       | None => Panicked NilDereference
       | Some d =>
           if writer (mu d)
           then Done () (set_dispatchers
                           (insert wd (with_mu {| writer := false; readers := readers (mu d) |} d)) h)
           else Panicked UnlockOfUnlocked
       end.

(** [wd.RLock()] waits while a writer holds the mutex or waits for it. *)
Definition RLock (wd : loc) : action unit :=
  λ h, match dispatchers h !! wd with
       | None => Panicked NilDereference
       | Some d =>
           if writer (mu d) then Blocked
           else Done () (set_dispatchers
                           (insert wd (with_mu {| writer := false; readers := S (readers (mu d)) |} d)) h)
       end.

(** [wd.RUnlock()] *)
Definition RUnlock (wd : loc) : action unit :=
  λ h, match dispatchers h !! wd with
       | None => Panicked NilDereference
       | Some d =>
           match readers (mu d) with
           | O => Panicked UnlockOfUnlocked
           | S n => Done () (set_dispatchers
                               (insert wd (with_mu {| writer := writer (mu d); readers := n |} d)) h)
           end
       end.

(** [len(s)] of a slice in the heap *)
Definition sliceLen (s : DispatcherConns) : action Z :=
  λ h, Done (len (elems h s)) h.

(** [s[i]] of a slice in the heap, with its bounds check *)
Definition sliceIndex (s : DispatcherConns) (i : Z) : action DispatcherConn :=
  λ h, match index (elems h s) i with
       | Some c => Done c h
       | None => Panicked IndexOutOfRange
       end.

(** ** libdispatcher.go *)

(** [fmt.Errorf("unsupported dispatch strategy: <%s>", pfl.Strategy)] *)
Definition unsupportedStrategy (strategy : string) : string :=
  ("unsupported dispatch strategy: <" ++ strategy ++ ">")%string.

(** [pfl.Conns.Sort()] *)
Definition sortProfile (pfl : loc) : action unit :=
  let! p := loadProfile pfl in Sort (Conns p).

(** [pfl.Strategy] *)
Definition profileStrategy (pfl : loc) : action string :=
  let! p := loadProfile pfl in pure (Strategy p).

(** [pfl.Conns.Clone()] *)
Definition cloneProfile (pfl : loc) : action DispatcherConns :=
  let! p := loadProfile pfl in Clone (Conns p).

(** [newDispatcher] returns the pair [(d, err)]: a dispatcher or the nil
    interface, an error or nil. *)
Definition newDispatcher (pfl : loc) : prog (option loc * option string) :=
  atomic (sortProfile pfl);;
  strategy ← atomic (profileStrategy pfl);
  if String.eqb strategy MetaWeight then
    d ← atomic (let! c := cloneProfile pfl in allocDispatcher c);
    Ret (Some d, None)
  else
    Ret (None, Some (unsupportedStrategy strategy)).

(** [incrNextConnIdx]: the increment, the test, the reset. *)
Definition incrNextConnIdx (wd : loc) : prog unit :=
  atomic (storeDispatcher wd (λ d, with_nextConnIdx (wrap_int (nextConnIdx d + 1)) d));;
  past ← atomic (let! d := loadDispatcher wd in
                 let! n := sliceLen (conns d) in
                 pure (n - 1 <? nextConnIdx d));
  if past : bool then atomic (storeDispatcher wd (with_nextConnIdx 0)) else Ret ().

Definition SetProfile (wd pfl : loc) : prog unit :=
  atomic (sortProfile pfl);;
  Lock wd;;
  atomic (let! c := cloneProfile pfl in storeDispatcher wd (with_conns c));;
  atomic (storeDispatcher wd (with_nextConnIdx 0));;
  atomic (Unlock wd).

Definition GetInstance (wd : loc) : prog loc :=
  atomic (RLock wd);;
  wdInst ← atomic (let! d := loadDispatcher wd in
                   let! c := Clone (conns d) in
                   allocDispatcher c);
  atomic (RUnlock wd);;
  Ret wdInst.

Definition NextConnID (wd : loc) : prog string :=
  connID ← atomic (let! d := loadDispatcher wd in
                   let! c := sliceIndex (conns d) (nextConnIdx d) in
                   pure (ID c));
  incrNextConnIdx wd;;
  Ret connID.

Definition MaxConns (wd : loc) : prog Z :=
  atomic (let! d := loadDispatcher wd in sliceLen (conns d)).

(** ** The canonical order *)

Definition heavier_first (a b : DispatcherConn) : Prop := Weight b ≤ Weight a.

Definition of_weight (w : Z) (c : DispatcherConn) : Prop := Weight c = w.

#[global] Instance of_weight_dec (w : Z) (c : DispatcherConn) : Decision (of_weight w c) :=
  Z.eq_dec (Weight c) w.

(** [s] is [l] in canonical order: the same descriptors, weight
    descending, and those of one weight in the order [l] declares them. *)
Definition canonical (l s : list DispatcherConn) : Prop :=
  s ≡ₚ l ∧ StronglySorted heavier_first s ∧
  ∀ w, filter (of_weight w) s = filter (of_weight w) l.

(** ** Callers *)

(** The pool a dispatcher rotates over. *)
Definition pool (h : heap) (d : WeightDispatcher) : list DispatcherConn :=
  elems h (conns d).

(** [n] calls of [NextConnID] in a row; the identifiers in the order they
    are returned. *)
Fixpoint NextConnIDs (n : nat) (wd : loc) : prog (list string) :=
  match n with
  | O => Ret []
  | S n' => connID ← NextConnID wd; rest ← NextConnIDs n' wd; Ret (connID :: rest)
  end.

(** The loop of a caller that tries every connection for one request:
    it takes an instance and calls [NextConnID] on it as often as
    [MaxConns] says. *)
Definition tryAll (wd : loc) : prog (list string) :=
  inst ← GetInstance wd;
  n ← MaxConns inst;
  NextConnIDs (Z.to_nat n) inst.

(** A call on the package, its result dropped. *)
Inductive call : Set :=
| CallNewDispatcher (pfl : loc)
| CallSetProfile (wd pfl : loc)
| CallGetInstance (wd : loc)
| CallNextConnID (wd : loc)
| CallMaxConns (wd : loc).

Definition do_call (c : call) : prog unit :=
  match c with
  | CallNewDispatcher pfl => newDispatcher pfl;; Ret ()
  | CallSetProfile wd pfl => SetProfile wd pfl
  | CallGetInstance wd => GetInstance wd;; Ret ()
  | CallNextConnID wd => NextConnID wd;; Ret ()
  | CallMaxConns wd => MaxConns wd;; Ret ()
  end.

Fixpoint do_calls (cs : list call) : prog unit :=
  match cs with
  | [] => Ret ()
  | c :: cs' => do_call c;; do_calls cs'
  end.

(** ** Heaps after a call *)

(** The arrays [newDispatcher] and [SetProfile] leave: the array of the
    profile sorted in place, and a copy of it in a new array. *)
Definition applied (p : DispatcherProfile) (h : heap) : heap :=
  set_arrays (insert (fresh (dom (arrays h))) (sortConns (elems h (Conns p))))
    (set_arrays (alter sortConns (Conns p)) h).

(** The dispatcher [&WeightDispatcher{conns: c}]. *)
Definition fresh_dispatcher_on (c : DispatcherConns) : WeightDispatcher :=
  {| mu := unlocked; conns := c; nextConnIdx := 0 |}.

(** The heap after [wd] took the profile [p]. *)
Definition installed (wd : loc) (p : DispatcherProfile) (h : heap) : heap :=
  set_dispatchers (insert wd (fresh_dispatcher_on (fresh (dom (arrays h))))) (applied p h).

(** The heap after [inst] was cloned from [d]. *)
Definition cloned (inst : loc) (d : WeightDispatcher) (h : heap) : heap :=
  set_dispatchers (insert inst (fresh_dispatcher_on (fresh (dom (arrays h)))))
    (set_arrays (insert (fresh (dom (arrays h))) (elems h (conns d))) h).

(** Where the index stands after [incrNextConnIdx] on a pool of [n]. *)
Definition next_idx (n i : Z) : Z :=
  if n - 1 <? wrap_int (i + 1) then 0 else wrap_int (i + 1).

(** The heap [NextConnID] leaves. *)
Definition advanced (wd : loc) (d : WeightDispatcher) (h : heap) : heap :=
  set_dispatchers
    (insert wd (with_nextConnIdx (next_idx (len (pool h d)) (nextConnIdx d)) d)) h.

(** [c] is a call of [SetProfile] on [wd]. *)
Definition reconfigures (wd : loc) (c : call) : Prop :=
  match c with
  | CallSetProfile wd' _ => wd' = wd
  | _ => False
  end.

(** After the profile was applied to [wd], [MaxConns] returns [n] until
    the next [SetProfile] on [wd], whatever else is called. *)
Definition MaxConns_stays (wd : loc) (n : Z) (h1 : heap) : Prop :=
  ∀ cs h2, Forall (λ c, ¬ reconfigures wd c) cs →
           run (do_calls cs) h1 = Done () h2 →
           run (MaxConns wd) h2 = Done n h2.

(** [c] is a call that writes to the dispatcher [wd]. *)
Definition mutates (wd : loc) (c : call) : Prop :=
  match c with
  | CallSetProfile wd' _ => wd' = wd
  | CallNextConnID wd' => wd' = wd
  | _ => False
  end.

(** What a call with the profile [p] does to the heap [h] of the caller:
    the profile keeps its strategy and its slice, the slice is put in
    canonical order in place, and no other array is written. *)
Definition sorts_in_place (p : DispatcherProfile) (h h1 : heap) : Prop :=
  profiles h1 = profiles h ∧
  canonical (elems h (Conns p)) (elems h1 (Conns p)) ∧
  ∀ a, a ∈ dom (arrays h) → a ≠ Conns p → arrays h1 !! a = arrays h !! a.

(** What a run of [NextConnID] from [h] to [h'] on the dispatcher [wd],
    which was [d], has left as it was: the arrays, the profiles, every
    other dispatcher, and the mutex and the slice of [wd], so its pool
    and what [MaxConns] returns. *)
Definition only_index_moved (wd : loc) (d : WeightDispatcher) (h h' : heap) : Prop :=
  arrays h' = arrays h ∧
  profiles h' = profiles h ∧
  (∀ wd', wd' ≠ wd → dispatchers h' !! wd' = dispatchers h !! wd') ∧
  (∃ d', dispatchers h' !! wd = Some d' ∧
         mu d' = mu d ∧ conns d' = conns d ∧ pool h' d' = pool h d) ∧
  run (MaxConns wd) h = Done (len (pool h d)) h ∧
  run (MaxConns wd) h' = Done (len (pool h d)) h'.

(** What the calls leave of the heap [h] in the heap [h'] they reach: the
    profiles, every location that was allocated, the descriptors of every
    array up to their order, and every array that is not the slice of a
    profile as it is. *)
Definition preserved (h h' : heap) : Prop :=
  profiles h' = profiles h ∧
  dom (arrays h) ⊆ dom (arrays h') ∧
  dom (dispatchers h) ⊆ dom (dispatchers h') ∧
  (∀ a, a ∈ dom (arrays h) → elems h' a ≡ₚ elems h a) ∧
  (∀ a, a ∈ dom (arrays h) →
        (∀ pfl p, profiles h !! pfl = Some p → Conns p ≠ a) →
        arrays h' !! a = arrays h !! a).

(** ** Invariants *)

(** Every backing array has a length that an [int] holds. *)
Definition fits (h : heap) : Prop :=
  ∀ a l, arrays h !! a = Some l → len l ≤ max_int.

(** The index of every dispatcher with a pool is an index into that pool. *)
Definition cursor_valid (h : heap) : Prop :=
  ∀ wd d, dispatchers h !! wd = Some d → pool h d ≠ [] →
          0 ≤ nextConnIdx d < len (pool h d).

(** No slice header dangles. *)
Definition closed (h : heap) : Prop :=
  (∀ pfl p, profiles h !! pfl = Some p → Conns p ∈ dom (arrays h)) ∧
  (∀ wd d, dispatchers h !! wd = Some d → conns d ∈ dom (arrays h)).

(** The backing array of a dispatcher is its own: no profile and no other
    dispatcher holds it. *)
Definition encapsulated (h : heap) : Prop :=
  (∀ pfl p wd d, profiles h !! pfl = Some p → dispatchers h !! wd = Some d →
                 Conns p ≠ conns d) ∧
  (∀ wd1 d1 wd2 d2, dispatchers h !! wd1 = Some d1 → dispatchers h !! wd2 = Some d2 →
                    wd1 ≠ wd2 → conns d1 ≠ conns d2).

(** What every call maintains. *)
Definition sound (h : heap) : Prop := fits h ∧ closed h ∧ cursor_valid h.

(** ** Example heaps *)

Definition connA : DispatcherConn := {| ID := "A"; Weight := 10 |}.
Definition connB : DispatcherConn := {| ID := "B"; Weight := 20 |}.
Definition connC : DispatcherConn := {| ID := "C"; Weight := 20 |}.
Definition connD : DispatcherConn := {| ID := "D"; Weight := 5 |}.
Definition connE : DispatcherConn := {| ID := "E"; Weight := 7 |}.

Definition profile_ABC : DispatcherProfile := {| Strategy := MetaWeight; Conns := 1%positive |}.
Definition profile_DE : DispatcherProfile := {| Strategy := MetaWeight; Conns := 2%positive |}.
Definition profile_random : DispatcherProfile := {| Strategy := "*random"; Conns := 1%positive |}.
Definition profile_none : DispatcherProfile := {| Strategy := MetaWeight; Conns := 3%positive |}.

(** Three slices, one of them empty, four profiles on them, no
    dispatcher. *)
Definition heap0 : heap :=
  {| arrays := list_to_map [ (1%positive, [connA; connB; connC]);
                             (2%positive, [connD; connE]);
                             (3%positive, []) ];
     profiles := list_to_map [ (1%positive, profile_ABC); (2%positive, profile_DE);
                               (3%positive, profile_random); (4%positive, profile_none) ];
     dispatchers := ∅ |}.

(** The heap after [newDispatcher] on the profile at 1: the dispatcher is
    at location 1, its pool in the array at 4. *)
Definition heap1 : heap := installed 1%positive profile_ABC heap0.

(** The heap after [newDispatcher] on the profile at 4, which has no
    connection. *)
Definition heap_none : heap := installed 1%positive profile_none heap0.

(** The heap after one [NextConnID] on the dispatcher of [heap1]: its
    index is 1. *)
Definition heap2 : heap := advanced 1%positive (fresh_dispatcher_on 4%positive) heap1.

(** [heap1] with two readers on the mutex of its dispatcher and the index
    past the pool. *)
Definition heap_read_locked : heap :=
  set_dispatchers
    (insert 1%positive
       {| mu := {| writer := false; readers := 2 |};
          conns := 4%positive; nextConnIdx := 3 |}) heap1.

(** Calls of every kind: a dispatcher is made at 1, advanced, cloned to 2
    and reconfigured; the strategy of the profile at 3 is refused; the
    clone is advanced. *)
Definition mixed_calls : list call :=
  [ CallNewDispatcher 1%positive; CallNextConnID 1%positive; CallGetInstance 1%positive;
    CallSetProfile 1%positive 2%positive; CallNewDispatcher 3%positive;
    CallNextConnID 2%positive; CallMaxConns 1%positive ].

(** The heap the calls [cs] leave when they return. *)
Definition heap_after (cs : list call) (h : heap) : heap :=
  match run (do_calls cs) h with
  | Done _ h' => h'
  | Panicked _ | Blocked => h
  end.

(** ** Goroutines *)

(** A goroutine runs one program and returns the identifiers it was
    given. *)
Definition goroutine : Type := prog (list string).

(** Goroutine [i] takes its next step.  A goroutine that has returned
    stays where it is, and so does one that waits for the mutex. *)
Definition step_of (i : nat) (gs : list goroutine) : action (list goroutine) :=
  λ h, match gs !! i with
       | Some (Act s k) =>
           match s h with
           | Done b h' => Done (<[i:=k b]> gs) h'
           | Panicked p => Panicked p
           | Blocked => Done gs h
           end
       | _ => Done gs h
       end.

(** The goroutines take their steps in the order of the schedule. *)
Fixpoint interleave (schedule : list nat) (gs : list goroutine) : action (list goroutine) :=
  match schedule with
  | [] => pure gs
  | i :: rest => let! gs' := step_of i gs in interleave rest gs'
  end.

(** What a goroutine is asked to do with the shared dispatcher: to
    reconfigure it, or to serve a request with a clone, trying [m]
    connections. *)
Inductive request : Set :=
| Reconfigure (pfl : loc)
| Serve (m : nat).

Definition handle (shared : loc) (r : request) : goroutine :=
  match r with
  | Reconfigure pfl => SetProfile shared pfl;; Ret []
  | Serve m => inst ← GetInstance shared; NextConnIDs m inst
  end.

(** ** Safety of goroutines *)

(** What a goroutine holds: the dispatchers that only it uses, and how
    often it holds the mutex of the shared dispatcher for reading and for
    writing. *)
Record local : Type := { own : gset loc; rd : nat; wr : nat }.

(** The mutex of the shared dispatcher. *)
Definition mutex (shared : loc) (h : heap) : RWMutex :=
  from_option mu unlocked (dispatchers h !! shared).

(** What the shared dispatcher selects with: its slice and its index,
    the two fields that the mutex protects. *)
Definition selection (shared : loc) (h : heap) : option (loc * Z) :=
  (λ d, (conns d, nextConnIdx d)) <$> dispatchers h !! shared.

(** A step from [h] to [h'] has left the dispatcher [wd] and its backing
    array alone. *)
Definition private_of (wd : loc) (h h' : heap) : Prop :=
  dispatchers h' !! wd = dispatchers h !! wd ∧
  ∀ d, dispatchers h !! wd = Some d → arrays h' !! conns d = arrays h !! conns d.

(** What a goroutine relies on in the steps of the others: they leave
    alone what it owns; and from when it has announced itself as the
    writer until it unlocks, they do not write to the slice and the index
    of the shared dispatcher and no reader comes in. *)
Definition rely (shared : loc) (σ : local) (h h' : heap) : Prop :=
  (∀ wd, wd ∈ own σ → private_of wd h h') ∧
  (wr σ = 1%nat →
   selection shared h' = selection shared h ∧
   (readers (mutex shared h') ≤ readers (mutex shared h))%nat).

(** [P] still holds after the steps of the other goroutines. *)
Definition stable (shared : loc) (σ : local) (P : heap → Prop) : Prop :=
  ∀ h h', P h → rely shared σ h h' → P h'.

(** The only dispatchers that a step from [h] to [h'] makes are clones of
    the shared one: the pool of every other dispatcher stays as it is,
    and a new dispatcher has the pool that the shared one has in [h],
    where a reader holds the mutex. *)
Definition clones_only (shared : loc) (h h' : heap) : Prop :=
  (∀ wd d, wd ≠ shared → dispatchers h !! wd = Some d →
           ∃ d', dispatchers h' !! wd = Some d' ∧ pool h' d' = pool h d) ∧
  (∀ wd d', dispatchers h !! wd = None → dispatchers h' !! wd = Some d' →
            ∃ d, dispatchers h !! shared = Some d ∧ pool h' d' = pool h d ∧
                 (1 ≤ readers (mu d))%nat).

(** A step from [h] to [h'] writes to the slice and the index of the
    shared dispatcher only when a writer has its mutex and no reader has
    it. *)
Definition writes_locked (shared : loc) (h h' : heap) : Prop :=
  selection shared h' = selection shared h ∨
  (writer (mutex shared h) = true ∧ readers (mutex shared h) = 0%nat).

(** What a step of a goroutine guarantees to the others: it writes to
    what it owns and to the shared dispatcher only; to the slice and the
    index of the shared dispatcher only as the writer, when no reader has
    the mutex; it does not come in as a reader once a writer is
    announced; and it makes no dispatcher but a clone of the shared
    one. *)
Definition guarantee (shared : loc) (σ : local) (h h' : heap) : Prop :=
  (∀ wd, wd ∈ dom (dispatchers h) → wd ∉ own σ → wd ≠ shared → private_of wd h h') ∧
  (selection shared h' = selection shared h ∨
   (wr σ = 1%nat ∧ readers (mutex shared h) = 0%nat)) ∧
  (writer (mutex shared h) = true →
   (readers (mutex shared h') ≤ readers (mutex shared h))%nat) ∧
  clones_only shared h h'.

(** The mutex moves with what the goroutine holds of it. *)
Definition lock_moves (μ μ' : RWMutex) (σ σ' : local) : Prop :=
  (readers μ' + rd σ = readers μ + rd σ')%nat ∧
  ((writer μ' = writer μ ∧ wr σ' = wr σ) ∨
   (writer μ = false ∧ writer μ' = true ∧ wr σ = 0%nat ∧ wr σ' = 1%nat) ∨
   (writer μ = true ∧ writer μ' = false ∧ wr σ = 1%nat ∧ wr σ' = 0%nat)).

(** A goroutine comes to own only dispatchers that it has allocated. *)
Definition own_moves (shared : loc) (σ σ' : local) (h h' : heap) : Prop :=
  own σ ⊆ own σ' ∧
  (∀ wd, wd ∈ own σ' → wd ∉ own σ → wd ∉ dom (dispatchers h)) ∧
  own σ' ⊆ dom (dispatchers h') ∧
  shared ∉ own σ'.

(** The program [p] of a goroutine that holds [σ] and knows [P] is safe:
    no step panics, every step keeps the invariant [I] of the heap and
    gives the other goroutines their guarantee, and when it returns [a]
    then [Q a] holds. *)
Fixpoint safe {A : Type} (shared : loc) (I : heap → Prop)
  (Q : A → local → heap → Prop) (σ : local) (P : heap → Prop) (p : prog A) : Prop :=
  match p with
  | Ret a => ∀ h, I h → P h → Q a σ h
  | Act s k =>
      ∀ h, I h → P h →
           (rd σ ≤ readers (mutex shared h))%nat →
           (wr σ = 1%nat → writer (mutex shared h) = true) →
           match s h with
           | Panicked _ => False
           | Blocked => True
           | Done b h' =>
               I h' ∧ guarantee shared σ h h' ∧
               ∃ σ' P', lock_moves (mutex shared h) (mutex shared h') σ σ' ∧
                        own_moves shared σ σ' h h' ∧
                        P' h' ∧ stable shared σ' P' ∧
                        safe shared I Q σ' P' (k b)
           end
  end.

Arguments safe : simpl never.

(** The goroutines [gs] in the heap [h]: each is safe for what it holds,
    no dispatcher is owned twice, and the mutex is held as the goroutines
    say. *)
Definition pool_safe (shared : loc) (I : heap → Prop)
  (Qs : list (list string → heap → Prop))
  (gs : list goroutine) (h : heap) : Prop :=
  I h ∧
  ∃ σs : list local,
    length σs = length gs ∧
    (∀ i g σ, gs !! i = Some g → σs !! i = Some σ →
       own σ ⊆ dom (dispatchers h) ∧ (shared ∉ own σ) ∧
       ∃ Q P, Qs !! i = Some Q ∧ P h ∧ stable shared σ P ∧
              safe shared I (λ ids _ h', Q ids h') σ P g) ∧
    (∀ i j σi σj, i ≠ j → σs !! i = Some σi → σs !! j = Some σj → own σi ## own σj) ∧
    readers (mutex shared h) = sum_list_with rd σs ∧
    (writer (mutex shared h) = true → sum_list_with wr σs = 1%nat) ∧
    (writer (mutex shared h) = false → sum_list_with wr σs = 0%nat).

(** ** Serving requests *)

(** [l] has the connections of a configuration of the shared dispatcher:
    those of the pool it starts with in [h0], or those of the profile of
    one of the requests [rs] to reconfigure, which has a connection. *)
Definition configured (shared : loc) (h0 : heap) (rs : list request)
  (l : list DispatcherConn) : Prop :=
  (∃ d, dispatchers h0 !! shared = Some d ∧ l ≡ₚ pool h0 d) ∨
  (∃ pfl p, Reconfigure pfl ∈ rs ∧ profiles h0 !! pfl = Some p ∧
            elems h0 (Conns p) ≠ [] ∧ l ≡ₚ elems h0 (Conns p)).

(** The slice and the index of the shared dispatcher [d] are of one
    generation: they are those it starts with in [h0], or the index is 0,
    where [SetProfile] puts it for the slice it has stored. *)
Definition whole (shared : loc) (h0 : heap) (d : WeightDispatcher) : Prop :=
  (∃ d0, dispatchers h0 !! shared = Some d0 ∧
         conns d = conns d0 ∧ nextConnIdx d = nextConnIdx d0) ∨
  nextConnIdx d = 0.

(** The slice and the index of [d] are of one generation unless a writer
    has the mutex of [d] and no reader has it. *)
Definition exclusive (shared : loc) (h0 : heap) (d : WeightDispatcher) : Prop :=
  whole shared h0 d ∨ (writer (mu d) = true ∧ readers (mu d) = 0%nat).

(** What every step of every goroutine keeps of the heap [h0] they
    start in. *)
Definition serving_inv (shared : loc) (h0 : heap) (rs : list request) (h : heap) : Prop :=
  fits h ∧ closed h ∧ encapsulated h ∧
  profiles h = profiles h0 ∧
  dom (dispatchers h0) ⊆ dom (dispatchers h) ∧
  (∀ pfl p, profiles h0 !! pfl = Some p → elems h (Conns p) ≡ₚ elems h0 (Conns p)) ∧
  (∃ d, dispatchers h !! shared = Some d ∧ configured shared h0 rs (pool h d) ∧
        exclusive shared h0 d).

(** The heap the goroutines start in: the mutex of the shared dispatcher
    is free and its pool has a connection. *)
Definition serving_start (shared : loc) (h0 : heap) : Prop :=
  fits h0 ∧ closed h0 ∧ encapsulated h0 ∧
  ∃ d, dispatchers h0 !! shared = Some d ∧ mu d = unlocked ∧ pool h0 d ≠ [].

(** [l] is the pool of a generation as a reader sees it: the pool that
    the shared dispatcher has after some number of steps of the schedule,
    at a moment when a reader holds its mutex, and its slice and its
    index are then of one generation. *)
Definition seen (shared : loc) (schedule : list nat) (gs : list goroutine) (h0 : heap)
  (l : list DispatcherConn) : Prop :=
  ∃ k gs' h d,
    interleave (take k schedule) gs h0 = Done gs' h ∧
    dispatchers h !! shared = Some d ∧ pool h d = l ∧
    (1 ≤ readers (mu d))%nat ∧ whole shared h0 d.

(** What a goroutine returns for a request, [G] being the pools of the
    generations: to serve with [m] connections it returns [m]
    identifiers, all of the pool of one generation. *)
Definition served (G : list DispatcherConn → Prop) (r : request) (ids : list string) : Prop :=
  match r with
  | Reconfigure _ => ids = []
  | Serve m =>
      length ids = m ∧
      ∃ l, G l ∧ Forall (λ connID, connID ∈ ID <$> l) ids
  end.

(** What a goroutine has returned for a request, in the heap [h]: the
    identifiers are of the pool of a dispatcher other than the shared one
    that was not there in [h0]. *)
Definition answered (shared : loc) (h0 : heap) (r : request) (ids : list string)
  (h : heap) : Prop :=
  match r with
  | Reconfigure _ => ids = []
  | Serve m =>
      length ids = m ∧
      ∃ inst d, inst ≠ shared ∧ (inst ∉ dom (dispatchers h0)) ∧
                dispatchers h !! inst = Some d ∧
                Forall (λ connID, connID ∈ ID <$> pool h d) ids
  end.

(** Every dispatcher of [h] other than the shared one that was not there
    in [h0] has the pool of a generation as a reader has seen it. *)
Definition clones_seen (shared : loc) (schedule : list nat) (gs : list goroutine)
  (h0 h : heap) : Prop :=
  ∀ wd d, wd ≠ shared → wd ∉ dom (dispatchers h0) → dispatchers h !! wd = Some d →
          seen shared schedule gs h0 (pool h d).

(** The profile of a request to reconfigure is not nil and has a
    connection. *)
Definition wellformed (h0 : heap) (r : request) : Prop :=
  match r with
  | Reconfigure pfl => ∃ p, profiles h0 !! pfl = Some p ∧ elems h0 (Conns p) ≠ []
  | Serve _ => True
  end.

(** A copy of [l] in a new array. *)
Definition copied (l : list DispatcherConn) (h : heap) : heap :=
  set_arrays (insert (fresh (dom (arrays h))) l) h.

(** The dispatcher [inst] has the pool [l] in the array [a] and the index
    [i], and its mutex is free. *)
Definition holds (inst a : loc) (l : list DispatcherConn) (i : Z) (h : heap) : Prop :=
  dispatchers h !! inst = Some {| mu := unlocked; conns := a; nextConnIdx := i |} ∧
  arrays h !! a = Some l.

(** What the goroutine that serves with the clone [inst] holds. *)
Definition serving_with (inst : loc) : local := {| own := {[inst]}; rd := 0; wr := 0 |}.

(** What a goroutine holds that holds nothing. *)
Definition idle : local := {| own := ∅; rd := 0; wr := 0 |}.

(** What a goroutine holds between [RLock] and [RUnlock], and between
    the announcement in [Lock] and [Unlock]. *)
Definition reading (o : gset loc) : local := {| own := o; rd := 1; wr := 0 |}.
Definition writing : local := {| own := ∅; rd := 0; wr := 1 |}.

(** No reader holds the mutex of the shared dispatcher. *)
Definition no_reader (shared : loc) (h : heap) : Prop :=
  readers (mutex shared h) = 0%nat.

(** The index of the shared dispatcher is 0. *)
Definition reset (shared : loc) (h : heap) : Prop :=
  ∃ d, dispatchers h !! shared = Some d ∧ nextConnIdx d = 0.

(** A profile with one connection, and the heap after [newDispatcher] on
    it: the dispatcher is at location 1, its pool in the array at 2. *)
Definition heap_single0 : heap :=
  {| arrays := {[ 1%positive := [connA] ]};
     profiles := {[ 1%positive := {| Strategy := MetaWeight; Conns := 1%positive |} ]};
     dispatchers := ∅ |}.

Definition heap_single : heap :=
  installed 1%positive {| Strategy := MetaWeight; Conns := 1%positive |} heap_single0.

(** Two goroutines, each calls [NextConnID] once on the dispatcher at 1. *)
Definition racing : list goroutine :=
  [ NextConnIDs 1 1%positive; NextConnIDs 1 1%positive ].

(** Three goroutines on the dispatcher at 1 of [heap1]: one serves with
    four connections, one reconfigures with the profile at 2, one serves
    with two connections. *)
Definition requests : list request := [ Serve 4; Reconfigure 2%positive; Serve 2 ].

(** The first goroutine takes its clone, the second reconfigures, and the
    two that serve take their steps in turn. *)
Definition in_turn : list nat :=
  ([0; 0; 0] ++ [1; 1; 1; 1; 1; 1] ++ [2; 2; 2] ++
   [0; 2; 0; 2; 0; 2; 0; 2; 0; 2; 0; 2; 0; 2] ++ [0; 0; 0; 0; 0; 0])%nat.

(** What the goroutines have returned, those that have. *)
Definition returned (o : outcome (list goroutine)) : option (list (option (list string))) :=
  match o with
  | Done gs _ => Some ((λ g, match g with Ret ids => Some ids | Act _ _ => None end) <$> gs)
  | Panicked _ | Blocked => None
  end.

(** The mutex of the shared dispatcher where the goroutines have come
    to. *)
Definition mutex_after (shared : loc) (o : outcome (list goroutine)) : option RWMutex :=
  match o with
  | Done _ h => Some (mutex shared h)
  | Panicked _ | Blocked => None
  end.

(** * Proofs *)

(** ** Machine integers *)

Lemma wrap_int_small (z : Z) : - 2 ^ 63 ≤ z ≤ max_int → wrap_int z = z.
Proof.
  unfold wrap_int, max_int. intros Hz.
  rewrite Z.mod_small; lia.
Qed.

Lemma len_nonneg (l : list DispatcherConn) : 0 ≤ len l.
Proof. unfold len. lia. Qed.

Lemma len_pos (l : list DispatcherConn) : l ≠ [] → 1 ≤ len l.
Proof. destruct l; [done|]. unfold len. simpl. lia. Qed.

Lemma index_Some (l : list DispatcherConn) (i : Z) (c : DispatcherConn) :
  index l i = Some c ↔ 0 ≤ i < len l ∧ l !! Z.to_nat i = Some c.
Proof.
  unfold index.
  destruct (Z.leb_spec 0 i), (Z.ltb_spec i (len l)); simpl; split;
    try (intros [? ?]); try intros ?; try done; try lia.
Qed.

Lemma index_in_range (l : list DispatcherConn) (i : Z) :
  0 ≤ i < len l → is_Some (index l i).
Proof.
  intros Hi. destruct (lookup_lt_is_Some_2 l (Z.to_nat i)) as [c Hc].
  { unfold len in Hi. lia. }
  exists c. by apply index_Some.
Qed.

Lemma index_nil (i : Z) : index [] i = None.
Proof. unfold index. by destruct (_ && _). Qed.

Lemma index_0 (l : list DispatcherConn) : index l 0 = head l.
Proof. destruct l; [done|]. unfold index, len. by simpl. Qed.

(** ** The stable sort *)

Lemma insertConn_perm (c : DispatcherConn) (l : list DispatcherConn) :
  insertConn c l ≡ₚ c :: l.
Proof.
  induction l as [|d l IH]; simpl; [done|].
  destruct (Weight c <? Weight d); [|done].
  rewrite IH. apply Permutation_swap.
Qed.

Lemma sortConns_perm (l : list DispatcherConn) : sortConns l ≡ₚ l.
Proof.
  induction l as [|c l IH]; simpl; [done|].
  by rewrite insertConn_perm, IH.
Qed.

Lemma sortConns_length (l : list DispatcherConn) : length (sortConns l) = length l.
Proof. by rewrite (sortConns_perm l). Qed.

Lemma sortConns_len (l : list DispatcherConn) : len (sortConns l) = len l.
Proof. unfold len. by rewrite sortConns_length. Qed.

Lemma sortConns_nil_inv (l : list DispatcherConn) : sortConns l = [] → l = [].
Proof.
  intros H. apply length_zero_iff_nil. rewrite <- sortConns_length, H. done.
Qed.

Lemma insertConn_sorted (c : DispatcherConn) (l : list DispatcherConn) :
  StronglySorted heavier_first l → StronglySorted heavier_first (insertConn c l).
Proof.
  induction 1 as [|d l Hl IH Hd]; simpl.
  - repeat constructor.
  - destruct (Z.ltb_spec (Weight c) (Weight d)) as [Hlt|Hge].
    + constructor; [done|].
      rewrite Forall_forall. intros x Hx.
      rewrite insertConn_perm in Hx. apply elem_of_cons in Hx as [->|Hx].
      * unfold heavier_first. lia.
      * rewrite Forall_forall in Hd. by apply Hd.
    + constructor; [by constructor|].
      constructor; [done|].
      eapply Forall_impl; [exact Hd|]. unfold heavier_first. intros x Hx. simpl in Hx. lia.
Qed.

Lemma sortConns_sorted (l : list DispatcherConn) :
  StronglySorted heavier_first (sortConns l).
Proof.
  induction l as [|c l IH]; simpl; [constructor|]. by apply insertConn_sorted.
Qed.

Lemma insertConn_filter (w : Z) (c : DispatcherConn) (l : list DispatcherConn) :
  filter (of_weight w) (insertConn c l) = filter (of_weight w) (c :: l).
Proof.
  induction l as [|d l IH]; simpl; [done|].
  destruct (Z.ltb_spec (Weight c) (Weight d)) as [Hlt|Hge]; [|done].
  rewrite (filter_cons _ d (insertConn c l)), IH, !filter_cons.
  unfold of_weight.
  destruct (decide (Weight d = w)), (decide (Weight c = w)); try done. lia.
Qed.

Lemma sortConns_stable (w : Z) (l : list DispatcherConn) :
  filter (of_weight w) (sortConns l) = filter (of_weight w) l.
Proof.
  induction l as [|c l IH]; simpl; [done|].
  rewrite insertConn_filter, !filter_cons, IH. done.
Qed.

Lemma sortConns_canonical (l : list DispatcherConn) : canonical l (sortConns l).
Proof.
  split; [apply sortConns_perm|].
  split; [apply sortConns_sorted|]. intros w. apply sortConns_stable.
Qed.

(** ** Running programs *)

Lemma run_bind {A B : Type} (m : prog A) (f : A → prog B) (h : heap) :
  run (m ≫= f) h =
    match run m h with
    | Done a h' => run (f a) h'
    | Panicked p => Panicked p
    | Blocked => Blocked
    end.
Proof.
  unfold mbind, prog_bind. revert h.
  induction m as [a|C s k IH]; intros h; simpl; [done|].
  destruct (s h) as [c h'| |]; [apply IH|done|done].
Qed.

Lemma run_atomic {B : Set} (s : action B) (h : heap) : run (atomic s) h = s h.
Proof. simpl. by destruct (s h). Qed.

Ltac run_unfold :=
  unfold sortProfile, profileStrategy, cloneProfile;
  unfold andThen, loadProfile, loadDispatcher, storeDispatcher, allocDispatcher,
    sliceLen, sliceIndex, Sort, Clone, announce, readersLeave, Unlock, RLock, RUnlock, pure.

Lemma elems_set_dispatchers (f : gmap loc WeightDispatcher → gmap loc WeightDispatcher)
  (h : heap) (s : DispatcherConns) :
  elems (set_dispatchers f h) s = elems h s.
Proof. done. Qed.

(** The heap after [s.Sort()] and after [s.Clone()]. *)
Lemma elems_sorted (h : heap) (s s' : DispatcherConns) :
  elems (set_arrays (alter sortConns s) h) s' =
    if decide (s = s') then sortConns (elems h s') else elems h s'.
Proof.
  unfold elems, set_arrays. simpl. rewrite lookup_alter.
  destruct (decide (s = s')) as [->|]; [|done]. by destruct (arrays h !! s').
Qed.

Lemma fresh_array (h : heap) : arrays h !! fresh (dom (arrays h)) = None.
Proof. apply not_elem_of_dom, is_fresh. Qed.

Lemma fresh_dispatcher (h : heap) : dispatchers h !! fresh (dom (dispatchers h)) = None.
Proof. apply not_elem_of_dom, is_fresh. Qed.

Lemma run_NextConnID_out_of_range (h : heap) (wd : loc) (d : WeightDispatcher) :
  dispatchers h !! wd = Some d →
  index (pool h d) (nextConnIdx d) = None →
  run (NextConnID wd) h = Panicked IndexOutOfRange.
Proof.
  intros Hwd Hc. unfold NextConnID.
  rewrite ?run_bind, ?run_atomic. run_unfold.
  rewrite Hwd. fold (pool h d). by rewrite Hc.
Qed.

Lemma run_MaxConns (h : heap) (wd : loc) (d : WeightDispatcher) :
  dispatchers h !! wd = Some d → run (MaxConns wd) h = Done (len (pool h d)) h.
Proof.
  intros Hwd. unfold MaxConns. rewrite run_atomic. run_unfold. by rewrite Hwd.
Qed.

Lemma dom_sorted (h : heap) (s : loc) : dom (alter sortConns s (arrays h)) = dom (arrays h).
Proof. apply dom_alter_L. Qed.

Lemma run_newDispatcher (h : heap) (pfl : loc) (p : DispatcherProfile) :
  profiles h !! pfl = Some p →
  run (newDispatcher pfl) h =
    if String.eqb (Strategy p) MetaWeight then
      Done (Some (fresh (dom (dispatchers h))), None)
        (installed (fresh (dom (dispatchers h))) p h)
    else
      Done (None, Some (unsupportedStrategy (Strategy p)))
        (set_arrays (alter sortConns (Conns p)) h).
Proof.
  intros Hp. unfold newDispatcher.
  rewrite ?run_bind, ?run_atomic. run_unfold. rewrite Hp. simpl. rewrite ?Hp.
  destruct (String.eqb (Strategy p) MetaWeight); [|done].
  rewrite ?run_bind, ?run_atomic. simpl. rewrite ?Hp. simpl.
  unfold installed, applied. rewrite dom_sorted, elems_sorted, decide_True by done. done.
Qed.

Lemma run_SetProfile (h : heap) (wd pfl : loc) (d : WeightDispatcher) (p : DispatcherProfile) :
  dispatchers h !! wd = Some d → mu d = unlocked →
  profiles h !! pfl = Some p →
  run (SetProfile wd pfl) h =
    Done () (installed wd p h).
Proof.
  intros Hwd Hmu Hp. unfold SetProfile, Lock.
  rewrite ?run_bind, ?run_atomic. run_unfold. rewrite Hp. simpl. rewrite Hwd, Hmu. simpl.
  rewrite ?run_bind, ?run_atomic. simpl.
  rewrite ?Hp. simpl.
  repeat (progress (rewrite ?Hp, ?lookup_insert_eq, ?elems_set_dispatchers; simpl)).
  unfold installed, applied. rewrite dom_sorted, elems_sorted, decide_True by done.
  unfold set_dispatchers, set_arrays. simpl. rewrite !insert_insert_eq. done.
Qed.

Lemma dom_insert_allocated (m : gmap loc WeightDispatcher) (wd : loc) (d d' : WeightDispatcher) :
  m !! wd = Some d → dom (<[wd:=d']> m) = dom m.
Proof.
  intros Hwd. rewrite dom_insert_L.
  assert (Hin : wd ∈ dom m) by (apply elem_of_dom; eauto).
  apply set_eq. intros x. rewrite elem_of_union, elem_of_singleton.
  split; [by intros [->|?]|auto].
Qed.

Lemma fresh_dispatcher_ne (h : heap) (wd : loc) (d : WeightDispatcher) :
  dispatchers h !! wd = Some d → fresh (dom (dispatchers h)) ≠ wd.
Proof. intros Hwd Heq. rewrite <- Heq, fresh_dispatcher in Hwd. done. Qed.

Lemma with_mu_restore (d : WeightDispatcher) (m : RWMutex) :
  with_mu (mu d) (with_mu m d) = d.
Proof. by destruct d. Qed.

Lemma run_GetInstance (h : heap) (wd : loc) (d : WeightDispatcher) :
  dispatchers h !! wd = Some d → writer (mu d) = false →
  run (GetInstance wd) h =
    Done (fresh (dom (dispatchers h))) (cloned (fresh (dom (dispatchers h))) d h).
Proof.
  intros Hwd Hmu. unfold GetInstance.
  rewrite ?run_bind, ?run_atomic. run_unfold. rewrite Hwd, Hmu. simpl.
  rewrite lookup_insert_eq. simpl.
  rewrite (dom_insert_allocated _ _ _ _ Hwd).
  pose proof (fresh_dispatcher_ne _ _ _ Hwd) as Hne.
  rewrite lookup_insert_ne by done.
  rewrite lookup_insert_eq. simpl.
  rewrite elems_set_dispatchers.
  unfold cloned, set_dispatchers, set_arrays. simpl. do 2 f_equal.
  replace {| writer := false; readers := readers (mu d) |} with (mu d)
    by (destruct (mu d); simpl in *; by subst).
  rewrite with_mu_restore.
  rewrite insert_insert_ne by done.
  rewrite insert_insert_eq.
  rewrite (insert_id (dispatchers h) wd d) by done. done. 
Qed.

(** ** NextConnID *)

Lemma next_idx_fits (n i : Z) :
  0 ≤ i < n → n ≤ max_int → next_idx n i = if i + 1 <? n then i + 1 else 0.
Proof.
  intros Hi Hn. unfold next_idx.
  rewrite wrap_int_small by (unfold max_int in *; lia).
  destruct (Z.ltb_spec (n - 1) (i + 1)), (Z.ltb_spec (i + 1) n); lia.
Qed.

Lemma next_idx_valid (n i : Z) : 0 ≤ i < n → n ≤ max_int → 0 ≤ next_idx n i < n.
Proof.
  intros Hi Hn. rewrite next_idx_fits by done.
  destruct (Z.ltb_spec (i + 1) n); lia.
Qed.

Lemma run_NextConnID_Some (h : heap) (wd : loc) (d : WeightDispatcher) (c : DispatcherConn) :
  dispatchers h !! wd = Some d →
  index (pool h d) (nextConnIdx d) = Some c →
  run (NextConnID wd) h = Done (ID c) (advanced wd d h).
Proof.
  intros Hwd Hc.
  unfold NextConnID, incrNextConnIdx, advanced, next_idx.
  rewrite ?run_bind, ?run_atomic. run_unfold.
  rewrite Hwd. fold (pool h d). rewrite Hc.
  rewrite ?run_bind, ?run_atomic. rewrite Hwd. simpl.
  rewrite lookup_insert_eq. simpl. rewrite elems_set_dispatchers. fold (pool h d).
  destruct (len (pool h d) - 1 <? wrap_int (nextConnIdx d + 1)).
  - rewrite run_atomic. simpl. rewrite lookup_insert_eq.
    unfold set_dispatchers. simpl. by rewrite insert_insert_eq.
  - simpl. done.
Qed.

Lemma run_NextConnID_nil (h : heap) (wd : loc) :
  dispatchers h !! wd = None → run (NextConnID wd) h = Panicked NilDereference.
Proof.
  intros Hwd. unfold NextConnID.
  rewrite ?run_bind, ?run_atomic. run_unfold. by rewrite Hwd.
Qed.

(** Whatever the heap, a call of [NextConnID] that returns has read the
    pool at the index and moved the index, nothing else. *)
Lemma run_NextConnID_inv (h h' : heap) (wd : loc) (connID : string) :
  run (NextConnID wd) h = Done connID h' →
  ∃ d c, dispatchers h !! wd = Some d ∧
         index (pool h d) (nextConnIdx d) = Some c ∧
         connID = ID c ∧ h' = advanced wd d h.
Proof.
  intros Hrun.
  destruct (dispatchers h !! wd) as [d|] eqn:Hwd;
    [|by rewrite run_NextConnID_nil in Hrun].
  destruct (index (pool h d) (nextConnIdx d)) as [c|] eqn:Hc;
    [|by rewrite (run_NextConnID_out_of_range h wd d) in Hrun].
  rewrite (run_NextConnID_Some h wd d c) in Hrun by done.
  injection Hrun as <- <-. eauto 10.
Qed.

Lemma pool_advanced (h : heap) (wd : loc) (d d' : WeightDispatcher) :
  pool (advanced wd d h) d' = pool h d'.
Proof. done. Qed.

Lemma lookup_advanced (h : heap) (wd wd' : loc) (d : WeightDispatcher) :
  dispatchers (advanced wd d h) !! wd' =
    if decide (wd = wd')
    then Some (with_nextConnIdx (next_idx (len (pool h d)) (nextConnIdx d)) d)
    else dispatchers h !! wd'.
Proof. unfold advanced. simpl. apply lookup_insert. Qed.

(** ** Calls that do not return *)

Lemma run_newDispatcher_nil (h : heap) (pfl : loc) :
  profiles h !! pfl = None → run (newDispatcher pfl) h = Panicked NilDereference.
Proof.
  intros Hp. unfold newDispatcher.
  rewrite ?run_bind, ?run_atomic. run_unfold. by rewrite Hp.
Qed.

Lemma run_SetProfile_nil_profile (h : heap) (wd pfl : loc) :
  profiles h !! pfl = None → run (SetProfile wd pfl) h = Panicked NilDereference.
Proof.
  intros Hp. unfold SetProfile.
  rewrite ?run_bind, ?run_atomic. run_unfold. by rewrite Hp.
Qed.

Lemma run_SetProfile_nil (h : heap) (wd pfl : loc) (p : DispatcherProfile) :
  profiles h !! pfl = Some p → dispatchers h !! wd = None →
  run (SetProfile wd pfl) h = Panicked NilDereference.
Proof.
  intros Hp Hwd. unfold SetProfile, Lock.
  rewrite ?run_bind, ?run_atomic. run_unfold. rewrite Hp. simpl. by rewrite Hwd.
Qed.

Lemma run_SetProfile_locked (h : heap) (wd pfl : loc) (p : DispatcherProfile)
  (d : WeightDispatcher) :
  profiles h !! pfl = Some p → dispatchers h !! wd = Some d → mu d ≠ unlocked →
  run (SetProfile wd pfl) h = Blocked.
Proof.
  intros Hp Hwd Hmu. unfold SetProfile, Lock.
  rewrite ?run_bind, ?run_atomic. run_unfold. rewrite Hp. simpl. rewrite Hwd.
  destruct d as [[[] [|n]] c i]; simpl in *; try done.
  rewrite ?run_bind, ?run_atomic. simpl. by rewrite lookup_insert_eq.
Qed.

Lemma run_GetInstance_nil (h : heap) (wd : loc) :
  dispatchers h !! wd = None → run (GetInstance wd) h = Panicked NilDereference.
Proof.
  intros Hwd. unfold GetInstance.
  rewrite ?run_bind, ?run_atomic. run_unfold. by rewrite Hwd.
Qed.

Lemma run_GetInstance_locked (h : heap) (wd : loc) (d : WeightDispatcher) :
  dispatchers h !! wd = Some d → writer (mu d) = true →
  run (GetInstance wd) h = Blocked.
Proof.
  intros Hwd Hmu. unfold GetInstance.
  rewrite ?run_bind, ?run_atomic. run_unfold. by rewrite Hwd, Hmu.
Qed.

Lemma run_MaxConns_nil (h : heap) (wd : loc) :
  dispatchers h !! wd = None → run (MaxConns wd) h = Panicked NilDereference.
Proof.
  intros Hwd. unfold MaxConns. rewrite run_atomic. run_unfold. by rewrite Hwd.
Qed.

(** ** Calls that return *)

Lemma run_newDispatcher_inv (h h' : heap) (pfl : loc) (r : option loc * option string) :
  run (newDispatcher pfl) h = Done r h' →
  ∃ p, profiles h !! pfl = Some p ∧
       ((Strategy p = MetaWeight ∧ r = (Some (fresh (dom (dispatchers h))), None) ∧
         h' = installed (fresh (dom (dispatchers h))) p h) ∨
        (Strategy p ≠ MetaWeight ∧ r = (None, Some (unsupportedStrategy (Strategy p))) ∧
         h' = set_arrays (alter sortConns (Conns p)) h)).
Proof.
  intros Hrun.
  destruct (profiles h !! pfl) as [p|] eqn:Hp;
    [|by rewrite run_newDispatcher_nil in Hrun].
  rewrite (run_newDispatcher h pfl p) in Hrun by done.
  exists p. split; [done|].
  destruct (String.eqb_spec (Strategy p) MetaWeight) as [Heq|Hne];
    injection Hrun as <- <-; [left|right]; done.
Qed.

Lemma run_SetProfile_inv (h h' : heap) (wd pfl : loc) (u : unit) :
  run (SetProfile wd pfl) h = Done u h' →
  ∃ p d, profiles h !! pfl = Some p ∧ dispatchers h !! wd = Some d ∧
         mu d = unlocked ∧ h' = installed wd p h.
Proof.
  intros Hrun.
  destruct (profiles h !! pfl) as [p|] eqn:Hp;
    [|by rewrite run_SetProfile_nil_profile in Hrun].
  destruct (dispatchers h !! wd) as [d|] eqn:Hwd;
    [|by rewrite (run_SetProfile_nil h wd pfl p) in Hrun].
  destruct (decide (mu d = unlocked)) as [Hmu|Hmu];
    [|by rewrite (run_SetProfile_locked h wd pfl p d) in Hrun].
  rewrite (run_SetProfile h wd pfl d p) in Hrun by done.
  injection Hrun as <-. eauto 10.
Qed.

Lemma run_GetInstance_inv (h h' : heap) (wd inst : loc) :
  run (GetInstance wd) h = Done inst h' →
  ∃ d, dispatchers h !! wd = Some d ∧ writer (mu d) = false ∧
       inst = fresh (dom (dispatchers h)) ∧ h' = cloned inst d h.
Proof.
  intros Hrun.
  destruct (dispatchers h !! wd) as [d|] eqn:Hwd;
    [|by rewrite run_GetInstance_nil in Hrun].
  destruct (writer (mu d)) eqn:Hmu;
    [by rewrite (run_GetInstance_locked h wd d) in Hrun|].
  rewrite (run_GetInstance h wd d) in Hrun by done.
  injection Hrun as <- <-. eauto 10.
Qed.

Lemma run_MaxConns_inv (h h' : heap) (wd : loc) (n : Z) :
  run (MaxConns wd) h = Done n h' →
  ∃ d, dispatchers h !! wd = Some d ∧ n = len (pool h d) ∧ h' = h.
Proof.
  intros Hrun.
  destruct (dispatchers h !! wd) as [d|] eqn:Hwd;
    [|by rewrite run_MaxConns_nil in Hrun].
  rewrite (run_MaxConns h wd d) in Hrun by done.
  injection Hrun as <- <-. eauto.
Qed.

(** ** The heap after a call *)

Lemma elems_allocated (h : heap) (a : loc) : elems h a ≠ [] → a ∈ dom (arrays h).
Proof.
  unfold elems. intros Hne.
  destruct (arrays h !! a) as [l|] eqn:Ha; [|done].
  apply elem_of_dom. by exists l.
Qed.

Lemma fresh_array_ne (h : heap) (a : loc) : a ∈ dom (arrays h) → a ≠ fresh (dom (arrays h)).
Proof. intros Hin ->. by apply is_fresh in Hin. Qed.

Lemma elems_installed (h : heap) (wd : loc) (p : DispatcherProfile) (a : loc) :
  elems (installed wd p h) a =
    if decide (a = fresh (dom (arrays h))) then sortConns (elems h (Conns p))
    else if decide (a = Conns p) then sortConns (elems h a)
    else elems h a.
Proof.
  unfold installed, applied, elems at 1. simpl. rewrite lookup_insert.
  destruct (decide (fresh (dom (arrays h)) = a)) as [<-|Hne].
  - by rewrite decide_True.
  - rewrite decide_False by done. rewrite lookup_alter.
    destruct (decide (Conns p = a)) as [<-|Hne'].
    + rewrite decide_True by done. unfold elems. by destruct (arrays h !! Conns p).
    + rewrite decide_False by done. done.
Qed.

Lemma elems_installed_new (h : heap) (wd : loc) (p : DispatcherProfile) :
  elems (installed wd p h) (fresh (dom (arrays h))) = sortConns (elems h (Conns p)).
Proof. rewrite elems_installed. by rewrite decide_True. Qed.

Lemma elems_installed_profile (h : heap) (wd : loc) (p : DispatcherProfile) :
  elems (installed wd p h) (Conns p) = sortConns (elems h (Conns p)).
Proof.
  rewrite elems_installed. destruct (decide _); [done|]. by rewrite decide_True.
Qed.

Lemma elems_installed_other (h : heap) (wd : loc) (p : DispatcherProfile) (a : loc) :
  a ∈ dom (arrays h) → a ≠ Conns p → elems (installed wd p h) a = elems h a.
Proof.
  intros Hin Hne. rewrite elems_installed.
  rewrite decide_False by (by apply fresh_array_ne). by rewrite decide_False.
Qed.

Lemma len_elems_installed (h : heap) (wd : loc) (p : DispatcherProfile) (a : loc) :
  a ∈ dom (arrays h) → len (elems (installed wd p h) a) = len (elems h a).
Proof.
  intros Hin. rewrite elems_installed.
  rewrite decide_False by (by apply fresh_array_ne).
  destruct (decide _); [apply sortConns_len|done].
Qed.

Lemma dom_arrays_installed (h : heap) (wd : loc) (p : DispatcherProfile) :
  dom (arrays (installed wd p h)) = {[fresh (dom (arrays h))]} ∪ dom (arrays h).
Proof. unfold installed, applied. simpl. by rewrite dom_insert_L, dom_sorted. Qed.

Lemma lookup_installed (h : heap) (wd wd' : loc) (p : DispatcherProfile) :
  dispatchers (installed wd p h) !! wd' =
    if decide (wd = wd') then Some (fresh_dispatcher_on (fresh (dom (arrays h))))
    else dispatchers h !! wd'.
Proof. unfold installed. simpl. apply lookup_insert. Qed.

Lemma elems_cloned (h : heap) (inst : loc) (d : WeightDispatcher) (a : loc) :
  elems (cloned inst d h) a =
    if decide (a = fresh (dom (arrays h))) then elems h (conns d) else elems h a.
Proof.
  unfold cloned, elems at 1. simpl. rewrite lookup_insert.
  destruct (decide (fresh (dom (arrays h)) = a)) as [<-|Hne].
  - by rewrite decide_True.
  - by rewrite decide_False.
Qed.

Lemma elems_cloned_old (h : heap) (inst : loc) (d : WeightDispatcher) (a : loc) :
  a ∈ dom (arrays h) → elems (cloned inst d h) a = elems h a.
Proof.
  intros Hin. rewrite elems_cloned. by rewrite decide_False by (by apply fresh_array_ne).
Qed.

Lemma dom_arrays_cloned (h : heap) (inst : loc) (d : WeightDispatcher) :
  dom (arrays (cloned inst d h)) = {[fresh (dom (arrays h))]} ∪ dom (arrays h).
Proof. unfold cloned. simpl. by rewrite dom_insert_L. Qed.

Lemma lookup_cloned (h : heap) (inst wd' : loc) (d : WeightDispatcher) :
  dispatchers (cloned inst d h) !! wd' =
    if decide (inst = wd') then Some (fresh_dispatcher_on (fresh (dom (arrays h))))
    else dispatchers h !! wd'.
Proof. unfold cloned. simpl. apply lookup_insert. Qed.

(** ** The invariants hold after every call *)

Lemma fits_elems (h : heap) (a : loc) : fits h → len (elems h a) ≤ max_int.
Proof.
  intros Hfit. unfold elems. destruct (arrays h !! a) as [l|] eqn:Ha; simpl.
  - by eapply Hfit.
  - unfold len, max_int. simpl. lia.
Qed.

Lemma fits_intro (h : heap) : (∀ a, len (elems h a) ≤ max_int) → fits h.
Proof. intros H a l Ha. specialize (H a). unfold elems in H. by rewrite Ha in H. Qed.

Lemma sound_installed (h : heap) (wd : loc) (p : DispatcherProfile) :
  sound h → sound (installed wd p h).
Proof.
  intros (Hfit & [Hcp Hcd] & Hcur). split; [|split; [split|]].
  - apply fits_intro. intros a. rewrite elems_installed.
    repeat destruct (decide _); rewrite ?sortConns_len; by apply fits_elems.
  - intros pfl q Hq. rewrite dom_arrays_installed.
    apply elem_of_union_r. by eapply Hcp.
  - intros wd' d'. rewrite lookup_installed, dom_arrays_installed.
    destruct (decide (wd = wd')) as [->|Hne]; intros Hd'.
    + injection Hd' as <-. simpl. apply elem_of_union_l. by apply elem_of_singleton.
    + apply elem_of_union_r. by eapply Hcd.
  - intros wd' d'. rewrite lookup_installed. unfold pool.
    destruct (decide (wd = wd')) as [->|Hne]; intros Hd'.
    + injection Hd' as <-. simpl. intros Hpool.
      apply len_pos in Hpool. lia.
    + specialize (Hcd _ _ Hd'). rewrite len_elems_installed by done.
      intros Hpool. apply (Hcur _ _ Hd'). unfold pool. intros Hnil.
      apply Hpool. rewrite elems_installed.
      rewrite decide_False by (by apply fresh_array_ne).
      destruct (decide _); by rewrite Hnil.
Qed.

Lemma sound_cloned (h : heap) (inst : loc) (d : WeightDispatcher) :
  sound h → sound (cloned inst d h).
Proof.
  intros (Hfit & [Hcp Hcd] & Hcur). split; [|split; [split|]].
  - apply fits_intro. intros a. rewrite elems_cloned.
    destruct (decide _); by apply fits_elems.
  - intros pfl q Hq. rewrite dom_arrays_cloned.
    apply elem_of_union_r. by eapply Hcp.
  - intros wd' d'. rewrite lookup_cloned, dom_arrays_cloned.
    destruct (decide (inst = wd')) as [->|Hne]; intros Hd'.
    + injection Hd' as <-. simpl. apply elem_of_union_l. by apply elem_of_singleton.
    + apply elem_of_union_r. by eapply Hcd.
  - intros wd' d'. rewrite lookup_cloned. unfold pool.
    destruct (decide (inst = wd')) as [->|Hne]; intros Hd'.
    + injection Hd' as <-. simpl. intros Hpool.
      apply len_pos in Hpool. lia.
    + specialize (Hcd _ _ Hd'). rewrite elems_cloned_old by done.
      exact (Hcur _ _ Hd').
Qed.

Lemma sound_advanced (h : heap) (wd : loc) (d : WeightDispatcher) :
  sound h → dispatchers h !! wd = Some d → pool h d ≠ [] →
  sound (advanced wd d h).
Proof.
  intros (Hfit & [Hcp Hcd] & Hcur) Hwd Hpool. split; [|split; [split|]].
  - done.
  - done.
  - intros wd' d'. rewrite lookup_advanced.
    destruct (decide (wd = wd')) as [->|Hne]; intros Hd'.
    + injection Hd' as <-. simpl. by eapply Hcd.
    + by eapply Hcd.
  - intros wd' d'. rewrite lookup_advanced, pool_advanced.
    destruct (decide (wd = wd')) as [->|Hne]; intros Hd'.
    + injection Hd' as <-. simpl. intros _.
      apply next_idx_valid; [exact (Hcur _ _ Hwd Hpool)|]. by apply fits_elems.
    + exact (Hcur _ _ Hd').
Qed.

Lemma sound_sorted (h : heap) (s : loc) :
  sound h → sound (set_arrays (alter sortConns s) h).
Proof.
  intros (Hfit & [Hcp Hcd] & Hcur). split; [|split; [split|]].
  - apply fits_intro. intros a. rewrite elems_sorted.
    destruct (decide _); rewrite ?sortConns_len; by apply fits_elems.
  - intros pfl q Hq. simpl. rewrite dom_sorted. by eapply Hcp.
  - intros wd' d' Hd'. simpl. rewrite dom_sorted. by eapply Hcd.
  - intros wd' d' Hd'. unfold pool. rewrite elems_sorted.
    destruct (decide _); [|exact (Hcur _ _ Hd')].
    rewrite sortConns_len. intros Hpool. apply (Hcur _ _ Hd').
    intros Hnil. apply Hpool. unfold pool in Hnil. by rewrite Hnil.
Qed.

Lemma sound_call (c : call) (h h' : heap) (u : unit) :
  sound h → run (do_call c) h = Done u h' → sound h'.
Proof.
  intros Hs. destruct c as [pfl|wd pfl|wd|wd|wd]; unfold do_call; rewrite ?run_bind.
  - destruct (run (newDispatcher pfl) h) as [r h1| |] eqn:Hrun; [|done|done].
    simpl. intros Heq. assert (h1 = h') as <- by congruence.
    apply run_newDispatcher_inv in Hrun as (p & _ & [(_ & _ & ->)|(_ & _ & ->)]).
    + by apply sound_installed.
    + by apply sound_sorted.
  - intros Hrun. apply run_SetProfile_inv in Hrun as (p & d & _ & _ & _ & ->).
    by apply sound_installed.
  - destruct (run (GetInstance wd) h) as [r h1| |] eqn:Hrun; [|done|done].
    simpl. intros Heq. assert (h1 = h') as <- by congruence.
    apply run_GetInstance_inv in Hrun as (d & _ & _ & _ & ->).
    by apply sound_cloned.
  - destruct (run (NextConnID wd) h) as [r h1| |] eqn:Hrun; [|done|done].
    simpl. intros Heq. assert (h1 = h') as <- by congruence.
    apply run_NextConnID_inv in Hrun as (d & c & Hwd & Hc & _ & ->).
    apply sound_advanced; [done..|].
    intros Hnil. by rewrite Hnil, index_nil in Hc.
  - destruct (run (MaxConns wd) h) as [r h1| |] eqn:Hrun; [|done|done].
    simpl. intros Heq. assert (h1 = h') as <- by congruence.
    by apply run_MaxConns_inv in Hrun as (d & _ & _ & ->).
Qed.

Lemma sound_calls (cs : list call) (h h' : heap) (u : unit) :
  sound h → run (do_calls cs) h = Done u h' → sound h'.
Proof.
  revert h. induction cs as [|c cs IH]; intros h Hs.
  - simpl. intros Heq. assert (h = h') as <- by congruence. done.
  - change (do_calls (c :: cs)) with (do_call c ;; do_calls cs). rewrite run_bind.
    destruct (run (do_call c) h) as [r h1| |] eqn:Hrun; [|done|done].
    intros Hrest. eapply IH; [|exact Hrest]. by eapply sound_call.
Qed.

(** ** A full round *)

Lemma advanced_fits (h : heap) (wd : loc) (d : WeightDispatcher) :
  0 ≤ nextConnIdx d < len (pool h d) → len (pool h d) ≤ max_int →
  advanced wd d h =
    set_dispatchers
      (insert wd (with_nextConnIdx
                    (if nextConnIdx d + 1 <? len (pool h d) then nextConnIdx d + 1 else 0) d)) h.
Proof. intros Hi Hn. unfold advanced. by rewrite next_idx_fits. Qed.

(** From index [i] the calls that are left before the index wraps return
    the rest of the pool, and the index is back at 0. *)
Lemma run_NextConnIDs_rest (n : nat) (h : heap) (wd : loc) (d : WeightDispatcher) :
  dispatchers h !! wd = Some d →
  0 ≤ nextConnIdx d →
  nextConnIdx d + Z.of_nat (S n) = len (pool h d) →
  len (pool h d) ≤ max_int →
  run (NextConnIDs (S n) wd) h =
    Done (ID <$> drop (Z.to_nat (nextConnIdx d)) (pool h d))
      (set_dispatchers (insert wd (with_nextConnIdx 0 d)) h).
Proof.
  revert h d. induction n as [|n IH]; intros h d Hwd Hi Hn Hfit.
  - destruct (index_in_range (pool h d) (nextConnIdx d)) as [c Hc]; [lia|].
    change (NextConnIDs 1 wd) with (connID ← NextConnID wd; Ret [connID]).
    rewrite run_bind, (run_NextConnID_Some h wd d c) by done. simpl.
    rewrite advanced_fits by (done || lia).
    destruct (Z.ltb_spec (nextConnIdx d + 1) (len (pool h d))); [lia|].
    apply index_Some in Hc as [_ Hc].
    rewrite (drop_S _ _ _ Hc), drop_ge by (unfold len in *; lia). done.
  - destruct (index_in_range (pool h d) (nextConnIdx d)) as [c Hc]; [lia|].
    change (NextConnIDs (S (S n)) wd)
      with (connID ← NextConnID wd; rest ← NextConnIDs (S n) wd; Ret (connID :: rest)).
    rewrite run_bind, (run_NextConnID_Some h wd d c) by done.
    rewrite advanced_fits by (done || lia).
    destruct (Z.ltb_spec (nextConnIdx d + 1) (len (pool h d))); [|lia].
    set (d' := with_nextConnIdx (nextConnIdx d + 1) d).
    set (h1 := set_dispatchers (insert wd d') h).
    assert (Hwd' : dispatchers h1 !! wd = Some d') by apply lookup_insert_eq.
    assert (Hpool : pool h1 d' = pool h d) by done.
    assert (Hidx : nextConnIdx d' = nextConnIdx d + 1) by done.
    rewrite run_bind, (IH h1 d' Hwd') by (rewrite ?Hpool, ?Hidx; lia).
    rewrite Hpool, Hidx. simpl.
    apply index_Some in Hc as [_ Hc].
    rewrite (drop_S _ _ _ Hc).
    replace (Z.to_nat (nextConnIdx d + 1)) with (S (Z.to_nat (nextConnIdx d))) by lia.
    f_equal. unfold h1, set_dispatchers. simpl. by rewrite insert_insert_eq.
Qed.

Lemma installed_lookup_new (h : heap) (wd : loc) (p : DispatcherProfile) :
  dispatchers (installed wd p h) !! wd = Some (fresh_dispatcher_on (fresh (dom (arrays h)))).
Proof. rewrite lookup_installed. by rewrite decide_True. Qed.

Lemma pool_installed_new (h : heap) (wd : loc) (p : DispatcherProfile) :
  pool (installed wd p h) (fresh_dispatcher_on (fresh (dom (arrays h)))) =
    sortConns (elems h (Conns p)).
Proof. unfold pool. simpl. apply elems_installed_new. Qed.

(** C1: for a profile of N >= 1 connections, the dispatcher that
    [newDispatcher] builds returns in N calls of [NextConnID] the
    identifiers of the pool in canonical order (weight descending, ties in
    the order of declaration), each descriptor once, and the call after
    that returns the first identifier again. *)
Theorem NextConnID_full_round (h : heap) (pfl : loc) (p : DispatcherProfile) :
  profiles h !! pfl = Some p →
  Strategy p = MetaWeight →
  elems h (Conns p) ≠ [] →
  len (elems h (Conns p)) ≤ max_int →
  ∃ wd h1 s h2 first h3,
    run (newDispatcher pfl) h = Done (Some wd, None) h1 ∧
    canonical (elems h (Conns p)) s ∧
    run (NextConnIDs (length (elems h (Conns p))) wd) h1 = Done (ID <$> s) h2 ∧
    run (NextConnID wd) h2 = Done first h3 ∧
    head (ID <$> s) = Some first.
Proof.
  intros Hp Hs Hne Hfit.
  set (l := elems h (Conns p)) in *.
  set (wd := fresh (dom (dispatchers h))).
  set (d := fresh_dispatcher_on (fresh (dom (arrays h)))).
  set (h1 := installed wd p h).
  assert (Hwd : dispatchers h1 !! wd = Some d) by apply installed_lookup_new.
  assert (Hpool : pool h1 d = sortConns l) by apply pool_installed_new.
  destruct (sortConns l) as [|c s] eqn:Hsort.
  { by apply sortConns_nil_inv in Hsort. }
  assert (Hlen : length l = S (length s)).
  { by rewrite <- (sortConns_length l), Hsort. }
  assert (Hwd0 : dispatchers (set_dispatchers (insert wd (with_nextConnIdx 0 d)) h1) !! wd
                 = Some d) by apply lookup_insert_eq.
  exists wd, h1, (c :: s), (set_dispatchers (insert wd (with_nextConnIdx 0 d)) h1), (ID c).
  eexists. split; [|split; [|split; [|split]]].
  - rewrite (run_newDispatcher h pfl p Hp), Hs. done.
  - rewrite <- Hsort. apply sortConns_canonical.
  - rewrite Hlen, (run_NextConnIDs_rest _ h1 wd d Hwd); rewrite ?Hpool; simpl; try done.
    by rewrite <- Hsort, sortConns_len.
  - apply (run_NextConnID_Some _ wd d c Hwd0).
    replace (pool _ d) with (c :: s) by done. by rewrite index_0.
  - done.
Qed.

Lemma NextConnID_full_round_witness :
  ∃ wd h1 s h2 first h3,
    run (newDispatcher 1%positive) heap0 = Done (Some wd, None) h1 ∧
    canonical (elems heap0 (Conns profile_ABC)) s ∧
    run (NextConnIDs (length (elems heap0 (Conns profile_ABC))) wd) h1 = Done (ID <$> s) h2 ∧
    run (NextConnID wd) h2 = Done first h3 ∧
    head (ID <$> s) = Some first.
Proof.
  apply (NextConnID_full_round heap0 1%positive profile_ABC);
    [vm_compute; reflexivity | reflexivity
    | vm_compute; discriminate | vm_compute; discriminate].
Defined.

(** ** The factory *)

Lemma run_newDispatcher_weight (h : heap) (pfl : loc) (p : DispatcherProfile) :
  profiles h !! pfl = Some p → Strategy p = MetaWeight →
  run (newDispatcher pfl) h =
    Done (Some (fresh (dom (dispatchers h))), None)
      (installed (fresh (dom (dispatchers h))) p h).
Proof.
  intros Hp Hs. rewrite (run_newDispatcher h pfl p Hp).
  by destruct (String.eqb_spec (Strategy p) MetaWeight).
Qed.

Lemma run_newDispatcher_other (h : heap) (pfl : loc) (p : DispatcherProfile) :
  profiles h !! pfl = Some p → Strategy p ≠ MetaWeight →
  run (newDispatcher pfl) h =
    Done (None, Some (unsupportedStrategy (Strategy p)))
      (set_arrays (alter sortConns (Conns p)) h).
Proof.
  intros Hp Hs. rewrite (run_newDispatcher h pfl p Hp).
  by destruct (String.eqb_spec (Strategy p) MetaWeight).
Qed.

(** C6: [newDispatcher] returns the unsupported-strategy error exactly
    when the strategy of the profile is not the recognised one,
    [MetaWeight]; then it returns no dispatcher (the nil interface) and
    allocates none.  For [MetaWeight] it returns no error and a new weight
    dispatcher over the pool in canonical order, index 0. *)
Theorem newDispatcher_unsupported_strategy (h : heap) (pfl : loc) (p : DispatcherProfile) :
  profiles h !! pfl = Some p →
  ∃ r err h',
    run (newDispatcher pfl) h = Done (r, err) h' ∧
    (err = Some (unsupportedStrategy (Strategy p)) ↔ Strategy p ≠ MetaWeight) ∧
    (err = None ↔ Strategy p = MetaWeight) ∧
    (err ≠ None → r = None ∧ dispatchers h' = dispatchers h) ∧
    (err = None →
     ∃ wd d, r = Some wd ∧ dispatchers h !! wd = None ∧
             dispatchers h' !! wd = Some d ∧ mu d = unlocked ∧ nextConnIdx d = 0 ∧
             canonical (elems h (Conns p)) (pool h' d)).
Proof.
  intros Hp. destruct (decide (Strategy p = MetaWeight)) as [Hs|Hs].
  - eexists _, _, _. split; [by apply run_newDispatcher_weight|].
    repeat split; try done.
    intros _. eexists _, _. split; [done|]. split; [apply fresh_dispatcher|].
    split; [apply installed_lookup_new|]. split; [done|]. split; [done|].
    rewrite pool_installed_new. apply sortConns_canonical.
  - eexists _, _, _. split; [by apply run_newDispatcher_other|].
    repeat split; try done.
Qed.

(** ** Reconfiguration *)

Lemma canonical_head_heaviest (l s : list DispatcherConn) (c : DispatcherConn) :
  canonical l (c :: s) → ∀ c', c' ∈ l → Weight c' ≤ Weight c.
Proof.
  intros (Hperm & Hsorted & _) c' Hc'. rewrite <- Hperm in Hc'.
  apply StronglySorted_inv in Hsorted as [_ Hall].
  apply elem_of_cons in Hc' as [->|Hc']; [lia|].
  rewrite Forall_forall in Hall. by apply Hall.
Qed.

(** C3: after [SetProfile] with a profile that has connections, whatever
    the pool and the index of the dispatcher were, the index is 0, the
    pool is a new array (not the one of the prior pool) that holds the new
    connections in canonical order, and the next [NextConnID] returns the
    identifier of its first element, one of the heaviest of the profile. *)
Theorem SetProfile_starts_afresh (h : heap) (wd pfl : loc) (d : WeightDispatcher)
  (p : DispatcherProfile) :
  dispatchers h !! wd = Some d →
  mu d = unlocked →
  profiles h !! pfl = Some p →
  elems h (Conns p) ≠ [] →
  len (elems h (Conns p)) ≤ max_int →
  ∃ h1 d1 c h2,
    run (SetProfile wd pfl) h = Done () h1 ∧
    dispatchers h1 !! wd = Some d1 ∧
    nextConnIdx d1 = 0 ∧
    (conns d1 ∉ dom (arrays h)) ∧
    (pool h d ≠ [] → conns d1 ≠ conns d) ∧
    canonical (elems h (Conns p)) (pool h1 d1) ∧
    head (pool h1 d1) = Some c ∧
    (∀ c', c' ∈ elems h (Conns p) → Weight c' ≤ Weight c) ∧
    run (NextConnID wd) h1 = Done (ID c) h2.
Proof.
  intros Hwd Hmu Hp Hne Hfit.
  set (d1 := fresh_dispatcher_on (fresh (dom (arrays h)))).
  assert (Hwd1 : dispatchers (installed wd p h) !! wd = Some d1)
    by apply installed_lookup_new.
  assert (Hpool : pool (installed wd p h) d1 = sortConns (elems h (Conns p)))
    by apply pool_installed_new.
  assert (Hcan := sortConns_canonical (elems h (Conns p))).
  destruct (sortConns (elems h (Conns p))) as [|c s] eqn:Hsort.
  { by apply sortConns_nil_inv in Hsort. }
  exists (installed wd p h), d1, c. eexists.
  split; [by apply (run_SetProfile h wd pfl d p)|].
  split; [done|]. split; [done|]. split; [apply is_fresh|].
  split.
  { intros Hd Heq. apply elems_allocated in Hd. rewrite <- Heq in Hd.
    by apply is_fresh in Hd. }
  rewrite Hpool. split; [done|]. split; [done|].
  split; [by apply (canonical_head_heaviest _ s)|].
  apply (run_NextConnID_Some _ wd d1 c Hwd1). by rewrite Hpool.
Qed.

(** ** The size of the pool *)

Lemma call_keeps_size (c : call) (h h' : heap) (u : unit) (wd : loc) (d : WeightDispatcher) :
  sound h → dispatchers h !! wd = Some d → ¬ reconfigures wd c →
  run (do_call c) h = Done u h' →
  ∃ d', dispatchers h' !! wd = Some d' ∧ conns d' = conns d ∧
        len (pool h' d') = len (pool h d).
Proof.
  intros Hs Hwd Hc. pose proof Hs as (_ & [_ Hcd] & _).
  pose proof (Hcd _ _ Hwd) as Hin.
  destruct c as [pfl|wd' pfl|wd'|wd'|wd']; unfold do_call; rewrite ?run_bind.
  - destruct (run (newDispatcher pfl) h) as [r h1| |] eqn:Hrun; [|done|done].
    simpl. intros Heq. assert (h1 = h') as <- by congruence.
    apply run_newDispatcher_inv in Hrun as (p & _ & [(_ & _ & ->)|(_ & _ & ->)]).
    + exists d. rewrite lookup_installed.
      rewrite decide_False by (by eapply fresh_dispatcher_ne).
      unfold pool. by rewrite len_elems_installed.
    + exists d. split; [done|]. split; [done|]. unfold pool. rewrite elems_sorted.
      destruct (decide _); [apply sortConns_len|done].
  - intros Hrun. apply run_SetProfile_inv in Hrun as (p & d0 & _ & _ & _ & ->).
    exists d. rewrite lookup_installed. simpl in Hc.
    rewrite decide_False by done. unfold pool. by rewrite len_elems_installed.
  - destruct (run (GetInstance wd') h) as [r h1| |] eqn:Hrun; [|done|done].
    simpl. intros Heq. assert (h1 = h') as <- by congruence.
    apply run_GetInstance_inv in Hrun as (d0 & _ & _ & -> & ->).
    exists d. rewrite lookup_cloned.
    rewrite decide_False by (by eapply fresh_dispatcher_ne).
    unfold pool. by rewrite elems_cloned_old.
  - destruct (run (NextConnID wd') h) as [r h1| |] eqn:Hrun; [|done|done].
    simpl. intros Heq. assert (h1 = h') as <- by congruence.
    apply run_NextConnID_inv in Hrun as (d0 & c & Hwd' & _ & _ & ->).
    rewrite lookup_advanced. destruct (decide (wd' = wd)) as [->|Hne].
    + assert (d0 = d) as -> by congruence. by eexists.
    + by exists d.
  - destruct (run (MaxConns wd') h) as [r h1| |] eqn:Hrun; [|done|done].
    simpl. intros Heq. assert (h1 = h') as <- by congruence.
    apply run_MaxConns_inv in Hrun as (d0 & _ & _ & ->). by exists d.
Qed.

Lemma calls_keep_size (cs : list call) (h h' : heap) (u : unit) (wd : loc)
  (d : WeightDispatcher) :
  sound h → dispatchers h !! wd = Some d → Forall (λ c, ¬ reconfigures wd c) cs →
  run (do_calls cs) h = Done u h' →
  ∃ d', dispatchers h' !! wd = Some d' ∧ conns d' = conns d ∧
        len (pool h' d') = len (pool h d).
Proof.
  revert h d. induction cs as [|c cs IH]; intros h d Hs Hwd Hcs.
  - simpl. intros Heq. assert (h = h') as <- by congruence. by exists d.
  - change (do_calls (c :: cs)) with (do_call c ;; do_calls cs). rewrite run_bind.
    destruct (run (do_call c) h) as [[] h1| |] eqn:Hrun; [|done|done].
    apply Forall_cons in Hcs as [Hc Hcs]. intros Hrest.
    destruct (call_keeps_size c h h1 () wd d) as (d1 & Hwd1 & Hconns & Hlen); try done.
    destruct (IH h1 d1) as (d' & Hwd' & Hconns' & Hlen'); try done.
    { by eapply sound_call. }
    exists d'. split; [done|]. split; congruence.
Qed.

Lemma MaxConns_stays_installed (h : heap) (wd : loc) (p : DispatcherProfile) :
  sound h → MaxConns_stays wd (len (elems h (Conns p))) (installed wd p h).
Proof.
  intros Hs cs h2 Hcs Hrun.
  destruct (calls_keep_size cs (installed wd p h) h2 () wd
              (fresh_dispatcher_on (fresh (dom (arrays h)))))
    as (d' & Hwd' & _ & Hlen); try done.
  - by apply sound_installed.
  - apply installed_lookup_new.
  - rewrite (run_MaxConns h2 wd d' Hwd'), Hlen, pool_installed_new, sortConns_len. done.
Qed.

(** C5 (amended): [MaxConns] returns the number of connections of the
    profile applied last, by [newDispatcher] or by the latest [SetProfile],
    whatever was called since; the number is at least 0, and at least 1
    when the profile has a connection. *)
Theorem MaxConns_of_latest_profile (h : heap) (pfl : loc) (p : DispatcherProfile) :
  sound h →
  profiles h !! pfl = Some p →
  0 ≤ len (elems h (Conns p)) ∧
  (elems h (Conns p) ≠ [] → 1 ≤ len (elems h (Conns p))) ∧
  (Strategy p = MetaWeight →
   ∃ wd h1, run (newDispatcher pfl) h = Done (Some wd, None) h1 ∧
            MaxConns_stays wd (len (elems h (Conns p))) h1) ∧
  (∀ wd d, dispatchers h !! wd = Some d → mu d = unlocked →
           ∃ h1, run (SetProfile wd pfl) h = Done () h1 ∧
                 MaxConns_stays wd (len (elems h (Conns p))) h1).
Proof.
  intros Hs Hp. split; [apply len_nonneg|]. split; [apply len_pos|]. split.
  - intros Hw. eexists _, _. split; [by apply run_newDispatcher_weight|].
    by apply MaxConns_stays_installed.
  - intros wd d Hwd Hmu. eexists. split; [by apply (run_SetProfile h wd pfl d p)|].
    by apply MaxConns_stays_installed.
Qed.

(** ** Bounds *)

Lemma run_NextConnID_empty (h : heap) (wd : loc) (d : WeightDispatcher) :
  dispatchers h !! wd = Some d → pool h d = [] →
  run (NextConnID wd) h = Panicked IndexOutOfRange.
Proof.
  intros Hwd Hnil. apply (run_NextConnID_out_of_range h wd d Hwd).
  rewrite Hnil. apply index_nil.
Qed.

Lemma run_NextConnID_sound (h : heap) (wd : loc) (d : WeightDispatcher) :
  sound h → dispatchers h !! wd = Some d → pool h d ≠ [] →
  ∃ c, index (pool h d) (nextConnIdx d) = Some c ∧
       run (NextConnID wd) h = Done (ID c) (advanced wd d h).
Proof.
  intros (_ & _ & Hcur) Hwd Hne.
  destruct (index_in_range (pool h d) (nextConnIdx d)) as [c Hc]; [by eapply Hcur|].
  exists c. split; [done|]. by apply run_NextConnID_Some.
Qed.

(** C8 (amended): in a sound heap [NextConnID] on a dispatcher with a pool
    indexes within bounds and returns; on a dispatcher whose pool is empty
    it panics with index out of range.  Neither [newDispatcher] nor
    [SetProfile] checks the pool: given a profile without connections
    they return without error and leave a dispatcher whose pool is empty,
    on which [NextConnID] panics. *)
Theorem NextConnID_bounds (h : heap) (wd : loc) (d : WeightDispatcher) :
  sound h →
  dispatchers h !! wd = Some d →
  (pool h d ≠ [] →
   ∃ c h1, index (pool h d) (nextConnIdx d) = Some c ∧
           run (NextConnID wd) h = Done (ID c) h1) ∧
  (pool h d = [] → run (NextConnID wd) h = Panicked IndexOutOfRange) ∧
  (∀ pfl p, profiles h !! pfl = Some p → elems h (Conns p) = [] →
     (mu d = unlocked →
      ∃ h1 d1, run (SetProfile wd pfl) h = Done () h1 ∧
               dispatchers h1 !! wd = Some d1 ∧ pool h1 d1 = [] ∧
               run (NextConnID wd) h1 = Panicked IndexOutOfRange) ∧
     (Strategy p = MetaWeight →
      ∃ wd1 h1 d1, run (newDispatcher pfl) h = Done (Some wd1, None) h1 ∧
                   dispatchers h1 !! wd1 = Some d1 ∧ pool h1 d1 = [] ∧
                   run (NextConnID wd1) h1 = Panicked IndexOutOfRange)).
Proof.
  intros Hs Hwd. split; [|split].
  - intros Hne. destruct (run_NextConnID_sound h wd d) as (c & Hc & Hrun); eauto.
  - by apply run_NextConnID_empty.
  - intros pfl p Hp Hnil.
    assert (Hpool : ∀ wd', pool (installed wd' p h)
                             (fresh_dispatcher_on (fresh (dom (arrays h)))) = []).
    { intros wd'. by rewrite pool_installed_new, Hnil. }
    split.
    + intros Hmu. eexists _, _. split; [by apply (run_SetProfile h wd pfl d p)|].
      split; [apply installed_lookup_new|]. split; [done|].
      eapply run_NextConnID_empty; [apply installed_lookup_new|done].
    + intros Hw. eexists _, _, _. split; [by apply run_newDispatcher_weight|].
      split; [apply installed_lookup_new|]. split; [done|].
      eapply run_NextConnID_empty; [apply installed_lookup_new|done].
Qed.

(** ** What NextConnID leaves alone *)

Lemma with_nextConnIdx_same (d : WeightDispatcher) : with_nextConnIdx (nextConnIdx d) d = d.
Proof. by destruct d. Qed.

(** Calls of [NextConnID] that return have changed the index of [wd] and
    nothing else in the heap. *)
Lemma run_NextConnIDs_frame (n : nat) (h h' : heap) (wd : loc) (d : WeightDispatcher)
  (ids : list string) :
  dispatchers h !! wd = Some d →
  run (NextConnIDs n wd) h = Done ids h' →
  length ids = n ∧
  ∃ i, h' = set_dispatchers (insert wd (with_nextConnIdx i d)) h.
Proof.
  revert h h' d ids. induction n as [|n IH]; intros h h' d ids Hwd.
  - simpl. intros [= <- <-]. split; [done|]. exists (nextConnIdx d).
    rewrite with_nextConnIdx_same. unfold set_dispatchers.
    rewrite insert_id by done. by destruct h.
  - change (NextConnIDs (S n) wd)
      with (connID ← NextConnID wd; rest ← NextConnIDs n wd; Ret (connID :: rest)).
    rewrite run_bind.
    destruct (run (NextConnID wd) h) as [connID h1| |] eqn:Hrun; [|done|done].
    apply run_NextConnID_inv in Hrun as (d0 & c & Hwd0 & _ & _ & ->).
    assert (d0 = d) as -> by congruence.
    rewrite run_bind.
    destruct (run (NextConnIDs n wd) (advanced wd d h)) as [rest h2| |] eqn:Hrest;
      [|done|done].
    simpl. intros [= <- <-].
    eapply IH in Hrest as (Hlen & i & ->); [|apply lookup_insert_eq].
    split; [by rewrite length_cons, Hlen|]. exists i.
    unfold advanced, set_dispatchers. simpl. by rewrite insert_insert_eq.
Qed.

Lemma run_NextConnIDs_sound (n : nat) (h : heap) (wd : loc) (d : WeightDispatcher) :
  sound h → dispatchers h !! wd = Some d → pool h d ≠ [] →
  ∃ ids h', run (NextConnIDs n wd) h = Done ids h'.
Proof.
  revert h d. induction n as [|n IH]; intros h d Hs Hwd Hne.
  - by eexists _, _.
  - change (NextConnIDs (S n) wd)
      with (connID ← NextConnID wd; rest ← NextConnIDs n wd; Ret (connID :: rest)).
    destruct (run_NextConnID_sound h wd d) as (c & Hc & Hrun); try done.
    rewrite run_bind, Hrun, run_bind.
    destruct (IH (advanced wd d h)
                (with_nextConnIdx (next_idx (len (pool h d)) (nextConnIdx d)) d))
      as (ids & h' & ->); try done.
    + by apply sound_advanced.
    + apply lookup_insert_eq.
    + by eexists _, _.
Qed.

(** C10: [NextConnID] changes the index of its dispatcher and nothing
    else: whatever the heap, after any number of calls that return the
    arrays, the profiles, every other dispatcher, and the mutex and the
    slice of this one are what they were, so the pool is the same and
    [MaxConns] returns the same; and on a dispatcher with a pool in a
    sound heap the calls do return. *)
Theorem NextConnID_changes_only_index (n : nat) (h : heap) (wd : loc) (d : WeightDispatcher) :
  dispatchers h !! wd = Some d →
  (∀ ids h', run (NextConnIDs n wd) h = Done ids h' →
             length ids = n ∧ only_index_moved wd d h h') ∧
  (sound h → pool h d ≠ [] → ∃ ids h', run (NextConnIDs n wd) h = Done ids h').
Proof.
  intros Hwd. split; [|intros Hs Hne; by apply (run_NextConnIDs_sound n h wd d)].
  intros ids h' Hrun.
  destruct (run_NextConnIDs_frame n h h' wd d ids Hwd Hrun) as (Hlen & i & ->).
  assert (Hwd' : dispatchers (set_dispatchers (insert wd (with_nextConnIdx i d)) h) !! wd
                 = Some (with_nextConnIdx i d)) by apply lookup_insert_eq.
  split; [done|]. split; [done|]. split; [done|]. split.
  { intros wd' Hne'. simpl. by rewrite lookup_insert_ne. }
  split; [by exists (with_nextConnIdx i d)|].
  split; [by apply run_MaxConns|]. by rewrite (run_MaxConns _ wd _ Hwd').
Qed.

(** ** The index is always valid *)

Lemma sound_no_dispatchers (h : heap) :
  fits h → (∀ pfl p, profiles h !! pfl = Some p → Conns p ∈ dom (arrays h)) →
  dispatchers h = ∅ → sound h.
Proof.
  intros Hfit Hcp He. split; [done|]. split; [split; [done|]|].
  - intros wd d. by rewrite He, lookup_empty.
  - intros wd d. by rewrite He, lookup_empty.
Qed.

Lemma sound_heap0 : sound heap0.
Proof.
  apply sound_no_dispatchers; [| |done].
  - intros a l Ha. apply elem_of_list_to_map_2 in Ha.
    repeat (apply elem_of_cons in Ha as [[= -> ->]|Ha]; [by vm_compute|]).
    by apply elem_of_nil in Ha.
  - intros pfl p Hp. apply elem_of_list_to_map_2 in Hp.
    repeat (apply elem_of_cons in Hp as [[= -> ->]|Hp];
            [apply elem_of_dom; eexists; vm_compute; reflexivity|]).
    by apply elem_of_nil in Hp.
Qed.

Lemma sound_heap1 : sound heap1.
Proof. apply sound_installed, sound_heap0. Qed.

(** C7: the index of every dispatcher with a pool is an index into the
    pool, in every heap that calls on the package reach from one without
    dispatchers: it is 0 after [newDispatcher], [GetInstance] and
    [SetProfile]; [NextConnID] moves it one up and back to 0 at the length
    of the pool; and every sequence of calls that returns keeps it so. *)
Theorem cursor_always_valid :
  (∀ h, fits h → (∀ pfl p, profiles h !! pfl = Some p → Conns p ∈ dom (arrays h)) →
        dispatchers h = ∅ → sound h) ∧
  (∀ h pfl p, profiles h !! pfl = Some p → Strategy p = MetaWeight →
     ∃ wd h1 d1, run (newDispatcher pfl) h = Done (Some wd, None) h1 ∧
                 dispatchers h1 !! wd = Some d1 ∧ nextConnIdx d1 = 0) ∧
  (∀ h wd d, dispatchers h !! wd = Some d → writer (mu d) = false →
     ∃ inst h1 d1, run (GetInstance wd) h = Done inst h1 ∧
                   dispatchers h1 !! inst = Some d1 ∧ nextConnIdx d1 = 0) ∧
  (∀ h wd d pfl p, dispatchers h !! wd = Some d → mu d = unlocked →
     profiles h !! pfl = Some p →
     ∃ h1 d1, run (SetProfile wd pfl) h = Done () h1 ∧
              dispatchers h1 !! wd = Some d1 ∧ nextConnIdx d1 = 0) ∧
  (∀ h wd d, sound h → dispatchers h !! wd = Some d → pool h d ≠ [] →
     ∃ connID h1 d1, run (NextConnID wd) h = Done connID h1 ∧
                     dispatchers h1 !! wd = Some d1 ∧
                     pool h1 d1 = pool h d ∧
                     nextConnIdx d1 =
                       (if nextConnIdx d + 1 <? len (pool h d)
                        then nextConnIdx d + 1 else 0) ∧
                     0 ≤ nextConnIdx d1 < len (pool h1 d1)) ∧
  (∀ cs h h', sound h → run (do_calls cs) h = Done () h' →
              fits h' ∧ closed h' ∧ cursor_valid h').
Proof.
  split; [exact sound_no_dispatchers|]. split; [|split; [|split; [|split]]].
  - intros h pfl p Hp Hw. eexists _, _, _.
    split; [by apply run_newDispatcher_weight|]. split; [apply installed_lookup_new|done].
  - intros h wd d Hwd Hmu. eexists _, _, _.
    split; [by apply (run_GetInstance h wd d)|].
    rewrite lookup_cloned, decide_True by done. done.
  - intros h wd d pfl p Hwd Hmu Hp. eexists _, _.
    split; [by apply (run_SetProfile h wd pfl d p)|]. split; [apply installed_lookup_new|done].
  - intros h wd d Hs Hwd Hne.
    destruct (run_NextConnID_sound h wd d) as (c & Hc & Hrun); try done.
    pose proof Hs as (Hfit & _ & Hcur).
    pose proof (Hcur _ _ Hwd Hne) as Hi.
    pose proof (fits_elems h (conns d) Hfit) as Hn. fold (pool h d) in Hn.
    eexists _, _, _. split; [exact Hrun|]. split; [apply lookup_insert_eq|].
    split; [done|]. simpl. rewrite pool_advanced. unfold pool at 3 4. simpl. fold (pool h d).
    split; [by apply next_idx_fits|by apply next_idx_valid].
  - intros cs h h' Hs Hrun. by apply (sound_calls cs h h' ()).
Qed.

(** ** Instances *)

Lemma newDispatcher_unsupported_strategy_witness :
  ∃ r err h',
    run (newDispatcher 3%positive) heap0 = Done (r, err) h' ∧
    (err = Some (unsupportedStrategy "*random") ↔ "*random"%string ≠ MetaWeight) ∧
    (err = None ↔ "*random"%string = MetaWeight) ∧
    (err ≠ None → r = None ∧ dispatchers h' = dispatchers heap0) ∧
    (err = None →
     ∃ wd d, r = Some wd ∧ dispatchers heap0 !! wd = None ∧
             dispatchers h' !! wd = Some d ∧ mu d = unlocked ∧ nextConnIdx d = 0 ∧
             canonical (elems heap0 1%positive) (pool h' d)).
Proof.
  apply (newDispatcher_unsupported_strategy heap0 3%positive profile_random).
  vm_compute. reflexivity.
Defined.

Lemma SetProfile_starts_afresh_witness :
  ∃ h1 d1 c h2,
    run (SetProfile 1%positive 2%positive) heap1 = Done () h1 ∧
    dispatchers h1 !! 1%positive = Some d1 ∧
    nextConnIdx d1 = 0 ∧
    (conns d1 ∉ dom (arrays heap1)) ∧
    (pool heap1 (fresh_dispatcher_on 4%positive) ≠ [] → conns d1 ≠ 4%positive) ∧
    canonical (elems heap1 2%positive) (pool h1 d1) ∧
    head (pool h1 d1) = Some c ∧
    (∀ c', c' ∈ elems heap1 2%positive → Weight c' ≤ Weight c) ∧
    run (NextConnID 1%positive) h1 = Done (ID c) h2.
Proof.
  apply (SetProfile_starts_afresh heap1 1%positive 2%positive
           (fresh_dispatcher_on 4%positive) profile_DE);
    [vm_compute; reflexivity | reflexivity | vm_compute; reflexivity
    | vm_compute; discriminate | vm_compute; discriminate].
Defined.

Lemma MaxConns_of_latest_profile_witness :
  0 ≤ len (elems heap1 2%positive) ∧
  (elems heap1 2%positive ≠ [] → 1 ≤ len (elems heap1 2%positive)) ∧
  (MetaWeight = MetaWeight →
   ∃ wd h1, run (newDispatcher 2%positive) heap1 = Done (Some wd, None) h1 ∧
            MaxConns_stays wd (len (elems heap1 2%positive)) h1) ∧
  (∀ wd d, dispatchers heap1 !! wd = Some d → mu d = unlocked →
           ∃ h1, run (SetProfile wd 2%positive) heap1 = Done () h1 ∧
                 MaxConns_stays wd (len (elems heap1 2%positive)) h1).
Proof.
  apply (MaxConns_of_latest_profile heap1 2%positive profile_DE);
    [exact sound_heap1 | vm_compute; reflexivity].
Defined.

Lemma NextConnID_bounds_witness :
  (pool heap1 (fresh_dispatcher_on 4%positive) ≠ [] →
   ∃ c h1, index (pool heap1 (fresh_dispatcher_on 4%positive)) 0 = Some c ∧
           run (NextConnID 1%positive) heap1 = Done (ID c) h1) ∧
  (pool heap1 (fresh_dispatcher_on 4%positive) = [] →
   run (NextConnID 1%positive) heap1 = Panicked IndexOutOfRange) ∧
  (∀ pfl p, profiles heap1 !! pfl = Some p → elems heap1 (Conns p) = [] →
     (unlocked = unlocked →
      ∃ h1 d1, run (SetProfile 1%positive pfl) heap1 = Done () h1 ∧
               dispatchers h1 !! 1%positive = Some d1 ∧ pool h1 d1 = [] ∧
               run (NextConnID 1%positive) h1 = Panicked IndexOutOfRange) ∧
     (Strategy p = MetaWeight →
      ∃ wd1 h1 d1, run (newDispatcher pfl) heap1 = Done (Some wd1, None) h1 ∧
                   dispatchers h1 !! wd1 = Some d1 ∧ pool h1 d1 = [] ∧
                   run (NextConnID wd1) h1 = Panicked IndexOutOfRange)).
Proof.
  apply (NextConnID_bounds heap1 1%positive (fresh_dispatcher_on 4%positive));
    [exact sound_heap1 | vm_compute; reflexivity].
Defined.

Lemma NextConnID_changes_only_index_witness :
  (∀ ids h', run (NextConnIDs 4 1%positive) heap1 = Done ids h' →
             length ids = 4%nat ∧
             only_index_moved 1%positive (fresh_dispatcher_on 4%positive) heap1 h') ∧
  (sound heap1 → pool heap1 (fresh_dispatcher_on 4%positive) ≠ [] →
   ∃ ids h', run (NextConnIDs 4 1%positive) heap1 = Done ids h').
Proof.
  apply (NextConnID_changes_only_index 4 heap1 1%positive (fresh_dispatcher_on 4%positive)).
  vm_compute. reflexivity.
Defined.

(** Four calls on the dispatcher of [heap1]: round the pool and one more. *)
Example NextConnIDs_heap1 :
  ∃ h', run (NextConnIDs 4 1%positive) heap1 = Done ["B"; "C"; "A"; "B"]%string h'.
Proof. eexists. vm_compute. reflexivity. Qed.

(** ** What the code does on a profile without connections *)

(** [newDispatcher] takes the profile without connections, and [MaxConns]
    of the dispatcher it returns is 0. *)
Lemma MaxConns_zero :
  run (newDispatcher 4%positive) heap0 = Done (Some 1%positive, None) heap_none ∧
  run (MaxConns 1%positive) heap_none = Done 0 heap_none ∧
  ¬ 1 ≤ 0.
Proof. split; [|split]; [by vm_compute | by vm_compute | lia]. Qed.

(** [newDispatcher] and [SetProfile] take the profile without connections
    and return without error; the next [NextConnID] panics. *)
Lemma empty_pool_accepted :
  run (newDispatcher 4%positive) heap0 = Done (Some 1%positive, None) heap_none ∧
  run (NextConnID 1%positive) heap_none = Panicked IndexOutOfRange ∧
  (∃ h1, run (SetProfile 1%positive 4%positive) heap1 = Done () h1 ∧
         run (NextConnID 1%positive) h1 = Panicked IndexOutOfRange).
Proof.
  split; [by vm_compute|]. split; [by vm_compute|].
  exists (installed 1%positive profile_none heap1). split; by vm_compute.
Qed.

(** ** Pools are private *)

Lemma encapsulated_no_dispatchers (h : heap) : dispatchers h = ∅ → encapsulated h.
Proof.
  intros He. split.
  - intros pfl p wd d _. by rewrite He, lookup_empty.
  - intros wd1 d1 wd2 d2. by rewrite He, lookup_empty.
Qed.

Lemma encapsulated_installed (h : heap) (wd : loc) (p : DispatcherProfile) :
  closed h → encapsulated h → encapsulated (installed wd p h).
Proof.
  intros [Hcp Hcd] [Hep Hed]. split.
  - intros pfl q wd' d' Hq. rewrite lookup_installed.
    destruct (decide (wd = wd')) as [->|Hne]; intros Hd'.
    + injection Hd' as <-. simpl. apply fresh_array_ne. by eapply Hcp.
    + by eapply Hep.
  - intros wd1 d1 wd2 d2. rewrite !lookup_installed. intros Hd1 Hd2 Hne.
    destruct (decide (wd = wd1)) as [E1|N1], (decide (wd = wd2)) as [E2|N2].
    + congruence.
    + injection Hd1 as <-. simpl. apply not_eq_sym, fresh_array_ne. by eapply Hcd.
    + injection Hd2 as <-. simpl. apply fresh_array_ne. by eapply Hcd.
    + by eapply Hed.
Qed.

Lemma encapsulated_cloned (h : heap) (inst : loc) (d : WeightDispatcher) :
  closed h → encapsulated h → encapsulated (cloned inst d h).
Proof.
  intros [Hcp Hcd] [Hep Hed]. split.
  - intros pfl q wd' d' Hq. rewrite lookup_cloned.
    destruct (decide (inst = wd')) as [->|Hne]; intros Hd'.
    + injection Hd' as <-. simpl. apply fresh_array_ne. by eapply Hcp.
    + by eapply Hep.
  - intros wd1 d1 wd2 d2. rewrite !lookup_cloned. intros Hd1 Hd2 Hne.
    destruct (decide (inst = wd1)) as [E1|N1], (decide (inst = wd2)) as [E2|N2].
    + congruence.
    + injection Hd1 as <-. simpl. apply not_eq_sym, fresh_array_ne. by eapply Hcd.
    + injection Hd2 as <-. simpl. apply fresh_array_ne. by eapply Hcd.
    + by eapply Hed.
Qed.

Lemma encapsulated_advanced (h : heap) (wd : loc) (d : WeightDispatcher) :
  dispatchers h !! wd = Some d → encapsulated h → encapsulated (advanced wd d h).
Proof.
  intros Hwd [Hep Hed]. split.
  - intros pfl q wd' d' Hq. rewrite lookup_advanced.
    destruct (decide (wd = wd')) as [->|Hne]; intros Hd'.
    + injection Hd' as <-. simpl. by eapply Hep.
    + by eapply Hep.
  - intros wd1 d1 wd2 d2. rewrite !lookup_advanced. intros Hd1 Hd2 Hne.
    destruct (decide (wd = wd1)) as [E1|N1], (decide (wd = wd2)) as [E2|N2].
    + congruence.
    + injection Hd1 as <-. simpl. subst wd1. by eapply Hed.
    + injection Hd2 as <-. simpl. subst wd2. by eapply Hed.
    + by eapply Hed.
Qed.

Lemma encapsulated_call (c : call) (h h' : heap) (u : unit) :
  sound h → encapsulated h → run (do_call c) h = Done u h' → encapsulated h'.
Proof.
  intros (_ & Hc & _) He.
  destruct c as [pfl|wd pfl|wd|wd|wd]; unfold do_call; rewrite ?run_bind.
  - destruct (run (newDispatcher pfl) h) as [r h1| |] eqn:Hrun; [|done|done].
    simpl. intros Heq. assert (h1 = h') as <- by congruence.
    apply run_newDispatcher_inv in Hrun as (p & _ & [(_ & _ & ->)|(_ & _ & ->)]).
    + by apply encapsulated_installed.
    + done.
  - intros Hrun. apply run_SetProfile_inv in Hrun as (p & d & _ & _ & _ & ->).
    by apply encapsulated_installed.
  - destruct (run (GetInstance wd) h) as [r h1| |] eqn:Hrun; [|done|done].
    simpl. intros Heq. assert (h1 = h') as <- by congruence.
    apply run_GetInstance_inv in Hrun as (d & _ & _ & _ & ->).
    by apply encapsulated_cloned.
  - destruct (run (NextConnID wd) h) as [r h1| |] eqn:Hrun; [|done|done].
    simpl. intros Heq. assert (h1 = h') as <- by congruence.
    apply run_NextConnID_inv in Hrun as (d & c & Hwd & _ & _ & ->).
    by apply encapsulated_advanced.
  - destruct (run (MaxConns wd) h) as [r h1| |] eqn:Hrun; [|done|done].
    simpl. intros Heq. assert (h1 = h') as <- by congruence.
    by apply run_MaxConns_inv in Hrun as (d & _ & _ & ->).
Qed.

(** A call that does not write to [wd] leaves it and its pool as they are. *)
Lemma call_frame (c : call) (h h' : heap) (u : unit) (wd : loc) (d : WeightDispatcher) :
  sound h → encapsulated h → dispatchers h !! wd = Some d → ¬ mutates wd c →
  run (do_call c) h = Done u h' →
  dispatchers h' !! wd = Some d ∧ pool h' d = pool h d.
Proof.
  intros (_ & [Hcp Hcd] & _) [Hep Hed] Hwd Hc.
  pose proof (Hcd _ _ Hwd) as Hin.
  destruct c as [pfl|wd' pfl|wd'|wd'|wd']; unfold do_call; rewrite ?run_bind.
  - destruct (run (newDispatcher pfl) h) as [r h1| |] eqn:Hrun; [|done|done].
    simpl. intros Heq. assert (h1 = h') as <- by congruence.
    apply run_newDispatcher_inv in Hrun as (p & Hp & [(_ & _ & ->)|(_ & _ & ->)]).
    + rewrite lookup_installed.
      rewrite decide_False by (by eapply fresh_dispatcher_ne).
      split; [done|]. unfold pool. apply elems_installed_other; [done|].
      apply not_eq_sym. by eapply Hep.
    + split; [done|]. unfold pool. rewrite elems_sorted.
      rewrite decide_False; [done|]. by eapply Hep.
  - intros Hrun. apply run_SetProfile_inv in Hrun as (p & d0 & Hp & _ & _ & ->).
    rewrite lookup_installed. simpl in Hc. rewrite decide_False by done.
    split; [done|]. unfold pool. apply elems_installed_other; [done|].
    apply not_eq_sym. by eapply Hep.
  - destruct (run (GetInstance wd') h) as [r h1| |] eqn:Hrun; [|done|done].
    simpl. intros Heq. assert (h1 = h') as <- by congruence.
    apply run_GetInstance_inv in Hrun as (d0 & _ & _ & -> & ->).
    rewrite lookup_cloned.
    rewrite decide_False by (by eapply fresh_dispatcher_ne).
    split; [done|]. unfold pool. by apply elems_cloned_old.
  - destruct (run (NextConnID wd') h) as [r h1| |] eqn:Hrun; [|done|done].
    simpl. intros Heq. assert (h1 = h') as <- by congruence.
    apply run_NextConnID_inv in Hrun as (d0 & c & Hwd' & _ & _ & ->).
    rewrite lookup_advanced. simpl in Hc. by rewrite decide_False.
  - destruct (run (MaxConns wd') h) as [r h1| |] eqn:Hrun; [|done|done].
    simpl. intros Heq. assert (h1 = h') as <- by congruence.
    by apply run_MaxConns_inv in Hrun as (d0 & _ & _ & ->).
Qed.

Lemma calls_frame (cs : list call) (h h' : heap) (u : unit) (wd : loc) (d : WeightDispatcher) :
  sound h → encapsulated h → dispatchers h !! wd = Some d →
  Forall (λ c, ¬ mutates wd c) cs →
  run (do_calls cs) h = Done u h' →
  dispatchers h' !! wd = Some d ∧ pool h' d = pool h d.
Proof.
  revert h. induction cs as [|c cs IH]; intros h Hs He Hwd Hcs.
  - simpl. intros Heq. by assert (h = h') as <- by congruence.
  - change (do_calls (c :: cs)) with (do_call c ;; do_calls cs). rewrite run_bind.
    destruct (run (do_call c) h) as [[] h1| |] eqn:Hrun; [|done|done].
    apply Forall_cons in Hcs as [Hc Hcs]. intros Hrest.
    destruct (call_frame c h h1 () wd d) as [Hwd1 Hpool1]; try done.
    destruct (IH h1) as [Hwd' Hpool']; try done.
    { by eapply sound_call. }
    { by eapply encapsulated_call. }
    split; [done|]. congruence.
Qed.

Lemma NextConnIDs_preserves (n : nat) (h h' : heap) (wd : loc) (ids : list string) :
  sound h → encapsulated h → run (NextConnIDs n wd) h = Done ids h' →
  sound h' ∧ encapsulated h'.
Proof.
  revert h ids. induction n as [|n IH]; intros h ids Hs He.
  - simpl. by intros [= <- <-].
  - change (NextConnIDs (S n) wd)
      with (connID ← NextConnID wd; rest ← NextConnIDs n wd; Ret (connID :: rest)).
    rewrite run_bind.
    destruct (run (NextConnID wd) h) as [connID h1| |] eqn:Hrun; [|done|done].
    apply run_NextConnID_inv in Hrun as (d & c & Hwd & Hc & _ & ->).
    rewrite run_bind.
    destruct (run (NextConnIDs n wd) (advanced wd d h)) as [rest h2| |] eqn:Hrest;
      [|done|done].
    simpl. intros [= <- <-]. eapply IH; [| |exact Hrest].
    + apply sound_advanced; [done..|]. intros Hnil. by rewrite Hnil, index_nil in Hc.
    + by apply encapsulated_advanced.
Qed.

(** ** Clones *)

(** C4: after any number [k] of calls of [NextConnID] on a dispatcher with
    a pool, [GetInstance] returns a new dispatcher whose pool is a copy of
    the pool in an array of its own and whose index is 0: its first
    [NextConnID] returns the identifier of the first element of the pool.
    The source is left as it was, and from then on no call that writes
    to one of the two changes the pool or the index of the other. *)
Theorem GetInstance_independent (k : nat) (h : heap) (wd : loc) (d : WeightDispatcher) :
  sound h →
  encapsulated h →
  dispatchers h !! wd = Some d →
  writer (mu d) = false →
  pool h d ≠ [] →
  ∃ ids hk dk inst h1 d1 c h2,
    run (NextConnIDs k wd) h = Done ids hk ∧
    dispatchers hk !! wd = Some dk ∧
    run (GetInstance wd) hk = Done inst h1 ∧
    inst ≠ wd ∧
    dispatchers h1 !! wd = Some dk ∧
    dispatchers h1 !! inst = Some d1 ∧
    nextConnIdx d1 = 0 ∧
    (conns d1 ∉ dom (arrays hk)) ∧
    conns d1 ≠ conns dk ∧
    pool h1 d1 = pool h d ∧
    pool h1 dk = pool h d ∧
    head (pool h d) = Some c ∧
    run (NextConnID inst) h1 = Done (ID c) h2 ∧
    (∀ cs h3, Forall (λ c, ¬ mutates inst c) cs →
              run (do_calls cs) h1 = Done () h3 →
              dispatchers h3 !! inst = Some d1 ∧ pool h3 d1 = pool h1 d1) ∧
    (∀ cs h3, Forall (λ c, ¬ mutates wd c) cs →
              run (do_calls cs) h1 = Done () h3 →
              dispatchers h3 !! wd = Some dk ∧ pool h3 dk = pool h1 dk).
Proof.
  intros Hs He Hwd Hmu Hne.
  destruct (run_NextConnIDs_sound k h wd d) as (ids & hk & Hrun); try done.
  destruct (NextConnIDs_preserves k h hk wd ids Hs He Hrun) as [Hsk Hek].
  destruct (run_NextConnIDs_frame k h hk wd d ids Hwd Hrun) as (_ & i & ->).
  set (dk := with_nextConnIdx i d) in *.
  set (hk := set_dispatchers (insert wd dk) h) in *.
  assert (Hwdk : dispatchers hk !! wd = Some dk) by apply lookup_insert_eq.
  assert (Hpoolk : pool hk dk = pool h d) by done.
  set (inst := fresh (dom (dispatchers hk))).
  set (d1 := fresh_dispatcher_on (fresh (dom (arrays hk)))).
  set (h1 := cloned inst dk hk).
  assert (Hinst : inst ≠ wd) by (by eapply fresh_dispatcher_ne).
  assert (Hwd1 : dispatchers h1 !! wd = Some dk).
  { unfold h1. rewrite lookup_cloned. by rewrite decide_False. }
  assert (Hinst1 : dispatchers h1 !! inst = Some d1).
  { unfold h1. rewrite lookup_cloned. by rewrite decide_True. }
  assert (Hin : conns dk ∈ dom (arrays hk)).
  { destruct Hsk as (_ & [_ Hcd] & _). by eapply Hcd. }
  assert (Hpool1 : pool h1 d1 = pool h d).
  { unfold pool, h1, d1. simpl. rewrite elems_cloned. by rewrite decide_True. }
  assert (Hpooldk : pool h1 dk = pool h d).
  { unfold pool at 1. unfold h1. by rewrite elems_cloned_old. }
  assert (Hs1 : sound h1) by (by apply sound_cloned).
  assert (He1 : encapsulated h1).
  { apply encapsulated_cloned; [|done]. by destruct Hsk as (_ & ? & _). }
  destruct (pool h d) as [|c l] eqn:Hpool; [done|].
  exists ids, hk, dk, inst, h1, d1, c. eexists.
  split; [done|]. split; [done|].
  split; [by apply (run_GetInstance hk wd dk)|].
  split; [done|]. split; [done|]. split; [done|]. split; [done|].
  split; [apply is_fresh|].
  split; [by apply not_eq_sym, fresh_array_ne|].
  split; [done|]. split; [done|]. split; [done|].
  split; [apply (run_NextConnID_Some h1 inst d1 c Hinst1); by rewrite Hpool1|].
  split.
  - intros cs h3 Hcs Hrun3. by apply (calls_frame cs h1 h3 () inst d1).
  - intros cs h3 Hcs Hrun3. by apply (calls_frame cs h1 h3 () wd dk).
Qed.

Lemma sound_encapsulated_heap1 : sound heap1 ∧ encapsulated heap1.
Proof.
  split; [apply sound_heap1|]. apply encapsulated_installed.
  - by destruct sound_heap0 as (_ & ? & _).
  - by apply encapsulated_no_dispatchers.
Qed.

Lemma GetInstance_independent_witness :
  ∃ ids hk dk inst h1 d1 c h2,
    run (NextConnIDs 2 1%positive) heap1 = Done ids hk ∧
    dispatchers hk !! 1%positive = Some dk ∧
    run (GetInstance 1%positive) hk = Done inst h1 ∧
    inst ≠ 1%positive ∧
    dispatchers h1 !! 1%positive = Some dk ∧
    dispatchers h1 !! inst = Some d1 ∧
    nextConnIdx d1 = 0 ∧
    (conns d1 ∉ dom (arrays hk)) ∧
    conns d1 ≠ conns dk ∧
    pool h1 d1 = pool heap1 (fresh_dispatcher_on 4%positive) ∧
    pool h1 dk = pool heap1 (fresh_dispatcher_on 4%positive) ∧
    head (pool heap1 (fresh_dispatcher_on 4%positive)) = Some c ∧
    run (NextConnID inst) h1 = Done (ID c) h2 ∧
    (∀ cs h3, Forall (λ c, ¬ mutates inst c) cs →
              run (do_calls cs) h1 = Done () h3 →
              dispatchers h3 !! inst = Some d1 ∧ pool h3 d1 = pool h1 d1) ∧
    (∀ cs h3, Forall (λ c, ¬ mutates 1%positive c) cs →
              run (do_calls cs) h1 = Done () h3 →
              dispatchers h3 !! 1%positive = Some dk ∧ pool h3 dk = pool h1 dk).
Proof.
  apply (GetInstance_independent 2 heap1 1%positive (fresh_dispatcher_on 4%positive));
    [exact (proj1 sound_encapsulated_heap1) | exact (proj2 sound_encapsulated_heap1)
    | vm_compute; reflexivity | reflexivity | vm_compute; discriminate].
Defined.

(** ** The profile of the caller *)

Lemma sorts_in_place_sorted (p : DispatcherProfile) (h : heap) :
  sorts_in_place p h (set_arrays (alter sortConns (Conns p)) h).
Proof.
  split; [done|]. split.
  - rewrite elems_sorted, decide_True by done. apply sortConns_canonical.
  - intros a _ Hne. simpl. by rewrite lookup_alter_ne.
Qed.

Lemma sorts_in_place_installed (p : DispatcherProfile) (h : heap) (wd : loc) :
  sorts_in_place p h (installed wd p h).
Proof.
  split; [done|]. split.
  - rewrite elems_installed_profile. apply sortConns_canonical.
  - intros a Ha Hne. unfold installed, applied. simpl.
    rewrite lookup_insert_ne by (by apply not_eq_sym, fresh_array_ne).
    by rewrite lookup_alter_ne.
Qed.

(** C2 (amended): [newDispatcher] and [SetProfile] copy the connections of
    the profile into a new array for the dispatcher and do not keep the
    slice of the profile; no other dispatcher is written.  The profile of
    the caller is written: its slice is sorted in place into canonical
    order (the same descriptors, reordered), while its strategy, its
    slice header and every other array are left as they were. *)
Theorem profile_copied_and_sorted (h : heap) (pfl : loc) (p : DispatcherProfile) :
  profiles h !! pfl = Some p →
  (∃ r err h1,
     run (newDispatcher pfl) h = Done (r, err) h1 ∧
     sorts_in_place p h h1 ∧
     (∀ wd d, dispatchers h !! wd = Some d → dispatchers h1 !! wd = Some d) ∧
     (∀ wd, r = Some wd →
        ∃ d1, dispatchers h1 !! wd = Some d1 ∧
              (conns d1 ∉ dom (arrays h)) ∧
              (Conns p ∈ dom (arrays h) → conns d1 ≠ Conns p) ∧
              pool h1 d1 = elems h1 (Conns p))) ∧
  (∀ wd d, dispatchers h !! wd = Some d → mu d = unlocked →
     ∃ h1 d1,
       run (SetProfile wd pfl) h = Done () h1 ∧
       sorts_in_place p h h1 ∧
       (∀ wd', wd' ≠ wd → dispatchers h1 !! wd' = dispatchers h !! wd') ∧
       dispatchers h1 !! wd = Some d1 ∧
       (conns d1 ∉ dom (arrays h)) ∧
       (Conns p ∈ dom (arrays h) → conns d1 ≠ Conns p) ∧
       pool h1 d1 = elems h1 (Conns p)).
Proof.
  intros Hp. split.
  - destruct (decide (Strategy p = MetaWeight)) as [Hw|Hw].
    + eexists _, _, _. split; [by apply run_newDispatcher_weight|].
      split; [apply sorts_in_place_installed|]. split.
      * intros wd d Hwd. rewrite lookup_installed.
        by rewrite decide_False by (by eapply fresh_dispatcher_ne).
      * intros wd [= <-]. eexists. split; [apply installed_lookup_new|].
        split; [apply is_fresh|]. split; [intros Hin; by apply not_eq_sym, fresh_array_ne|].
        by rewrite pool_installed_new, elems_installed_profile.
    + eexists _, _, _. split; [by apply run_newDispatcher_other|].
      split; [apply sorts_in_place_sorted|]. split; [done|]. done.
  - intros wd d Hwd Hmu. eexists _, _.
    split; [by apply (run_SetProfile h wd pfl d p)|].
    split; [apply sorts_in_place_installed|]. split.
    { intros wd' Hne. rewrite lookup_installed. by rewrite decide_False. }
    split; [apply installed_lookup_new|].
    split; [apply is_fresh|]. split; [intros Hin; by apply not_eq_sym, fresh_array_ne|].
    by rewrite pool_installed_new, elems_installed_profile.
Qed.

Lemma profile_copied_and_sorted_witness :
  (∃ r err h1,
     run (newDispatcher 1%positive) heap0 = Done (r, err) h1 ∧
     sorts_in_place profile_ABC heap0 h1 ∧
     (∀ wd d, dispatchers heap0 !! wd = Some d → dispatchers h1 !! wd = Some d) ∧
     (∀ wd, r = Some wd →
        ∃ d1, dispatchers h1 !! wd = Some d1 ∧
              (conns d1 ∉ dom (arrays heap0)) ∧
              (Conns profile_ABC ∈ dom (arrays heap0) → conns d1 ≠ Conns profile_ABC) ∧
              pool h1 d1 = elems h1 (Conns profile_ABC))) ∧
  (∀ wd d, dispatchers heap0 !! wd = Some d → mu d = unlocked →
     ∃ h1 d1,
       run (SetProfile wd 1%positive) heap0 = Done () h1 ∧
       sorts_in_place profile_ABC heap0 h1 ∧
       (∀ wd', wd' ≠ wd → dispatchers h1 !! wd' = dispatchers heap0 !! wd') ∧
       dispatchers h1 !! wd = Some d1 ∧
       (conns d1 ∉ dom (arrays heap0)) ∧
       (Conns profile_ABC ∈ dom (arrays heap0) → conns d1 ≠ Conns profile_ABC) ∧
       pool h1 d1 = elems h1 (Conns profile_ABC)).
Proof.
  apply (profile_copied_and_sorted heap0 1%positive profile_ABC).
  vm_compute. reflexivity.
Defined.

(** [newDispatcher] leaves the connections of the profile of the caller in
    another order than it found them. *)
Lemma newDispatcher_reorders_profile :
  run (newDispatcher 1%positive) heap0 = Done (Some 1%positive, None) heap1 ∧
  elems heap0 (Conns profile_ABC) = [connA; connB; connC] ∧
  elems heap1 (Conns profile_ABC) = [connB; connC; connA] ∧
  elems heap1 (Conns profile_ABC) ≠ elems heap0 (Conns profile_ABC).
Proof. repeat split; by vm_compute. Qed.

(** ** Every schedule of safe goroutines is safe *)

Lemma sum_list_with_insert {A : Type} (f : A → nat) (l : list A) (i : nat) (x y : A) :
  l !! i = Some x →
  (sum_list_with f (<[i:=y]> l) + f x = sum_list_with f l + f y)%nat.
Proof.
  revert i. induction l as [|z l IH]; intros [|i] Hi; simpl in *; try done.
  - injection Hi as ->. lia.
  - specialize (IH i Hi). lia.
Qed.

Lemma sum_list_with_lookup {A : Type} (f : A → nat) (l : list A) (i : nat) (x : A) :
  l !! i = Some x → (f x ≤ sum_list_with f l)%nat.
Proof.
  revert i. induction l as [|z l IH]; intros [|i] Hi; simpl in *; try done.
  - injection Hi as ->. lia.
  - specialize (IH i Hi). lia.
Qed.

Lemma sum_list_with_lookup2 {A : Type} (f : A → nat) (l : list A) (i j : nat) (x y : A) :
  i ≠ j → l !! i = Some x → l !! j = Some y → (f x + f y ≤ sum_list_with f l)%nat.
Proof.
  revert i j. induction l as [|z l IH]; intros [|i] [|j] Hne Hi Hj; simpl in *; try done.
  - injection Hi as ->. pose proof (sum_list_with_lookup f l j y Hj). lia.
  - injection Hj as ->. pose proof (sum_list_with_lookup f l i x Hi). lia.
  - assert (Hne' : i ≠ j) by congruence. specialize (IH i j Hne' Hi Hj). lia.
Qed.

Lemma clones_only_refl (shared : loc) (h : heap) : clones_only shared h h.
Proof.
  split.
  - intros wd d _ Hd. by exists d.
  - intros wd d' Hnone Hsome. congruence.
Qed.

Section Soundness.
Variables (shared : loc) (I : heap → Prop) (Qs : list (list string → heap → Prop)).

Lemma step_of_safe (i : nat) (gs : list goroutine) (h : heap) :
  pool_safe shared I Qs gs h →
  ∃ gs' h', step_of i gs h = Done gs' h' ∧ pool_safe shared I Qs gs' h' ∧
            clones_only shared h h' ∧ writes_locked shared h h'.
Proof.
  intros HS. pose proof HS as (HI & σs & Hlen & Hth & Hdisj & Hrd & Hw1 & Hw0).
  assert (Hstay : ∃ gs' h', Done gs h = Done gs' h' ∧ pool_safe shared I Qs gs' h' ∧
                            clones_only shared h h' ∧ writes_locked shared h h').
  { exists gs, h. split; [done|]. split; [done|]. split; [apply clones_only_refl|by left]. }
  unfold step_of.
  destruct (gs !! i) as [[ids|B s k]|] eqn:Hg; [done|..|done].
  destruct (lookup_lt_is_Some_2 σs i) as [σ Hσ].
  { rewrite Hlen. by eapply lookup_lt_Some. }
  destruct (Hth i _ σ Hg Hσ) as (Hown & Hsh & Q & P & HQ & HP & Hst & Hsafe).
  cbn [safe] in Hsafe. specialize (Hsafe h HI HP).
  assert (Hrdσ : (rd σ ≤ readers (mutex shared h))%nat).
  { rewrite Hrd. by apply (sum_list_with_lookup rd σs i). }
  assert (Hwrσ : wr σ = 1%nat → writer (mutex shared h) = true).
  { intros Hwr. destruct (writer (mutex shared h)) eqn:Hw; [done|].
    specialize (Hw0 eq_refl). pose proof (sum_list_with_lookup wr σs i σ Hσ). lia. }
  specialize (Hsafe Hrdσ Hwrσ).
  destruct (s h) as [b h'|p|] eqn:Hs; [|done|done].
  destruct Hsafe as (HI' & (Hg1 & Hg2 & Hg3 & Hg4) & σ' & P' & [Hlr Hlw] &
                     (Ho1 & Ho2 & Ho3 & Ho4) & HP' & Hst' & Hsafe').
  exists (<[i:=k b]> gs), h'. split; [done|]. split.
  2:{ split; [done|]. destruct Hg2 as [Hg2|[Hwr1 Hnr]]; [by left|right]. by auto. }
  split; [done|].
  exists (<[i:=σ']> σs). split; [by rewrite !length_insert|].
  assert (Hothers : ∀ j σj, j ≠ i → σs !! j = Some σj → rely shared σj h h').
  { intros j σj Hne Hσj. split.
    - intros wd Hwd.
      destruct (lookup_lt_is_Some_2 gs j) as [gj Hgj].
      { rewrite <- Hlen. by eapply lookup_lt_Some. }
      destruct (Hth j gj σj Hgj Hσj) as (Hownj & Hshj & _).
      apply Hg1; [by apply Hownj| |by intros ->].
      intros Hwd'. by apply (Hdisj j i σj σ Hne Hσj Hσ wd).
    - intros Hwrj.
      pose proof (sum_list_with_lookup wr σs j σj Hσj) as Hle.
      destruct (writer (mutex shared h)) eqn:Hw; [|specialize (Hw0 eq_refl); lia].
      specialize (Hw1 eq_refl).
      pose proof (sum_list_with_lookup2 wr σs i j σ σj (not_eq_sym Hne) Hσ Hσj) as Hle2.
      split; [|by apply Hg3]. destruct Hg2 as [Hg2|[Hwr1 _]]; [done|lia]. }
  split; [|split; [|split; [|split]]].
  - intros j g σj. destruct (decide (j = i)) as [->|Hne].
    + rewrite list_lookup_insert_eq by (by eapply lookup_lt_Some).
      rewrite list_lookup_insert_eq by (by eapply lookup_lt_Some).
      intros [= <-] [= <-]. split; [done|]. split; [done|]. by exists Q, P'.
    + rewrite !list_lookup_insert_ne by done. intros Hgj Hσj.
      destruct (Hth j g σj Hgj Hσj) as (Hownj & Hshj & Qj & Pj & HQj & HPj & Hstj & Hsafej).
      split; [|split; [done|]].
      * intros wd Hwd. destruct (Hothers j σj Hne Hσj) as [Hpriv _].
        destruct (Hpriv wd Hwd) as [Hlk _].
        apply elem_of_dom. rewrite Hlk. apply elem_of_dom. by apply Hownj.
      * exists Qj, Pj. split; [done|]. split; [|done].
        eapply Hstj; [exact HPj|]. by apply (Hothers j σj).
  - intros j1 j2 σ1 σ2 Hne.
    destruct (decide (j1 = i)) as [->|Hne1]; destruct (decide (j2 = i)) as [->|Hne2];
      try done.
    + rewrite list_lookup_insert_eq by (by eapply lookup_lt_Some).
      rewrite list_lookup_insert_ne by done. intros [= <-] Hσ2 wd Hwd Hwd2.
      destruct (decide (wd ∈ own σ)) as [Hin|Hnin].
      * by apply (Hdisj i j2 σ σ2 Hne Hσ Hσ2 wd).
      * apply (Ho2 wd Hwd Hnin).
        destruct (lookup_lt_is_Some_2 gs j2) as [g2 Hg2'].
        { rewrite <- Hlen. by eapply lookup_lt_Some. }
        destruct (Hth j2 g2 σ2 Hg2' Hσ2) as (Hown2 & _). by apply Hown2.
    + rewrite list_lookup_insert_ne by done.
      rewrite list_lookup_insert_eq by (by eapply lookup_lt_Some).
      intros Hσ1 [= <-] wd Hwd1 Hwd.
      destruct (decide (wd ∈ own σ)) as [Hin|Hnin].
      * by apply (Hdisj j1 i σ1 σ Hne Hσ1 Hσ wd).
      * apply (Ho2 wd Hwd Hnin).
        destruct (lookup_lt_is_Some_2 gs j1) as [g1 Hg1'].
        { rewrite <- Hlen. by eapply lookup_lt_Some. }
        destruct (Hth j1 g1 σ1 Hg1' Hσ1) as (Hown1 & _). by apply Hown1.
    + rewrite !list_lookup_insert_ne by done. by apply Hdisj.
  - pose proof (sum_list_with_insert rd σs i σ σ' Hσ). lia.
  - intros Hw'. pose proof (sum_list_with_insert wr σs i σ σ' Hσ) as Hsum.
    pose proof (sum_list_with_lookup wr σs i σ Hσ).
    destruct Hlw as [[Hw Hwr]|[(Hw & _ & Hwr & Hwr')|(Hw & Hw2 & _)]].
    + rewrite Hw' in Hw. symmetry in Hw. specialize (Hw1 Hw). lia.
    + specialize (Hw0 Hw). lia.
    + congruence.
  - intros Hw'. pose proof (sum_list_with_insert wr σs i σ σ' Hσ) as Hsum.
    pose proof (sum_list_with_lookup wr σs i σ Hσ).
    destruct Hlw as [[Hw Hwr]|[(Hw & Hw2 & _)|(Hw & _ & Hwr & Hwr')]].
    + rewrite Hw' in Hw. symmetry in Hw. specialize (Hw0 Hw). lia.
    + congruence.
    + specialize (Hw1 Hw). lia.
Qed.

Lemma interleave_safe (schedule : list nat) (gs : list goroutine) (h : heap) :
  pool_safe shared I Qs gs h →
  ∃ gs' h', interleave schedule gs h = Done gs' h' ∧ pool_safe shared I Qs gs' h'.
Proof.
  revert gs h. induction schedule as [|i rest IH]; intros gs h HS.
  - by exists gs, h.
  - destruct (step_of_safe i gs h HS) as (gs1 & h1 & Hstep & HS1 & _ & _).
    destruct (IH gs1 h1 HS1) as (gs' & h' & Hrest & HS').
    exists gs', h'. split; [|done]. simpl. unfold andThen. by rewrite Hstep.
Qed.

End Soundness.

Lemma interleave_app (s1 s2 : list nat) (gs : list goroutine) (h : heap) :
  interleave (s1 ++ s2) gs h =
    match interleave s1 gs h with
    | Done gs' h' => interleave s2 gs' h'
    | Panicked p => Panicked p
    | Blocked => Blocked
    end.
Proof.
  revert gs h. induction s1 as [|i s1 IH]; intros gs h; [done|].
  simpl. unfold andThen. destruct (step_of i gs h) as [gs1 h1| |]; [apply IH|done|done].
Qed.

(** ** The logic of safe programs *)

Section Logic.
Variables (shared : loc) (I : heap → Prop).

Lemma safe_Act_intro {A : Type} {B : Set} (Q : A → local → heap → Prop) (σ : local)
  (P : heap → Prop) (s : action B) (k : B → prog A) :
  (∀ h, I h → P h →
        (rd σ ≤ readers (mutex shared h))%nat →
        (wr σ = 1%nat → writer (mutex shared h) = true) →
        match s h with
        | Panicked _ => False
        | Blocked => True
        | Done b h' =>
            I h' ∧ guarantee shared σ h h' ∧
            ∃ σ' P', lock_moves (mutex shared h) (mutex shared h') σ σ' ∧
                     own_moves shared σ σ' h h' ∧
                     P' h' ∧ stable shared σ' P' ∧
                     safe shared I Q σ' P' (k b)
        end) →
  safe shared I Q σ P (Act s k).
Proof. done. Qed.

Lemma safe_Ret_intro {A : Type} (Q : A → local → heap → Prop) (σ : local)
  (P : heap → Prop) (a : A) :
  (∀ h, I h → P h → Q a σ h) → safe shared I Q σ P (Ret a).
Proof. done. Qed.

Lemma safe_weaken {A : Type} (Q : A → local → heap → Prop) (σ : local)
  (P P' : heap → Prop) (p : prog A) :
  (∀ h, I h → P h → P' h) → safe shared I Q σ P' p → safe shared I Q σ P p.
Proof.
  intros HPP'. destruct p as [a|B s k]; cbn [safe].
  - intros Hs h HI HP. apply Hs; auto.
  - intros Hs h HI HP. apply Hs; auto.
Qed.

Lemma safe_bind {A B : Type} (Q1 : A → local → heap → Prop) (Q2 : B → local → heap → Prop)
  (p : prog A) (f : A → prog B) (σ : local) (P : heap → Prop) :
  safe shared I Q1 σ P p →
  (∀ a σ', safe shared I Q2 σ' (Q1 a σ') (f a)) →
  safe shared I Q2 σ P (p ≫= f).
Proof.
  intros Hp Hf. unfold mbind, prog_bind.
  revert σ P Hp. induction p as [a|C s k IH]; intros σ P Hp; cbn [safe bind] in *.
  - eapply safe_weaken; [|apply Hf]. exact Hp.
  - intros h HI HP Hrd Hwr. specialize (Hp h HI HP Hrd Hwr).
    destruct (s h) as [c h'|pn|]; [|done|done].
    destruct Hp as (HI' & Hg & σ' & P' & Hl & Ho & HP' & Hst & Hk).
    split; [done|]. split; [done|]. exists σ', P'. repeat (split; [done|]).
    by apply IH.
Qed.

Lemma safe_post {A : Type} (Q Q' : A → local → heap → Prop) (σ : local)
  (P : heap → Prop) (p : prog A) :
  (∀ a σ' h, I h → Q a σ' h → Q' a σ' h) → safe shared I Q σ P p → safe shared I Q' σ P p.
Proof.
  intros HQ. revert σ P. induction p as [a|C s k IH]; intros σ P Hp; cbn [safe] in *.
  - intros h HI HP. by apply HQ, Hp.
  - intros h HI HP Hrd Hwr. specialize (Hp h HI HP Hrd Hwr).
    destruct (s h) as [c h'|pn|]; [|done|done].
    destruct Hp as (HI' & Hg & σ' & P' & Hl & Ho & HP' & Hst & Hk).
    split; [done|]. split; [done|]. exists σ', P'. repeat (split; [done|]).
    by apply IH.
Qed.

Lemma safe_exists {A X : Type} (Q : A → local → heap → Prop) (σ : local)
  (P : X → heap → Prop) (p : prog A) :
  (∀ x, safe shared I Q σ (P x) p) → safe shared I Q σ (λ h, ∃ x, P x h) p.
Proof.
  intros Hs. destruct p as [a|B s k]; cbn [safe] in *.
  - intros h HI [x HP]. by apply (Hs x).
  - intros h HI [x HP]. by apply (Hs x).
Qed.

Lemma safe_pure {A : Type} (Q : A → local → heap → Prop) (σ : local) (φ : Prop)
  (P : heap → Prop) (p : prog A) :
  (φ → safe shared I Q σ P p) → safe shared I Q σ (λ h, φ ∧ P h) p.
Proof.
  intros Hs. destruct p as [a|B s k]; cbn [safe] in *.
  - intros h HI [Hφ HP]. by apply Hs.
  - intros h HI [Hφ HP]. by apply Hs.
Qed.

End Logic.

(** ** Steps keep the invariant *)

Lemma mutex_lookup (shared : loc) (h : heap) (d : WeightDispatcher) :
  dispatchers h !! shared = Some d → mutex shared h = mu d.
Proof. intros Hd. unfold mutex. by rewrite Hd. Qed.

Lemma mutex_update (shared : loc) (d' : WeightDispatcher) (h : heap) :
  mutex shared (set_dispatchers (insert shared d') h) = mu d'.
Proof. unfold mutex. simpl. by rewrite lookup_insert_eq. Qed.

Lemma mutex_update_ne (shared wd : loc) (d' : WeightDispatcher) (h : heap) :
  wd ≠ shared → mutex shared (set_dispatchers (insert wd d') h) = mutex shared h.
Proof. intros Hne. unfold mutex. simpl. by rewrite lookup_insert_ne. Qed.

Lemma selection_update_ne (shared wd : loc) (d' : WeightDispatcher) (h : heap) :
  wd ≠ shared → selection shared (set_dispatchers (insert wd d') h) = selection shared h.
Proof. intros Hne. unfold selection. simpl. by rewrite lookup_insert_ne. Qed.

Lemma whole_same (shared : loc) (h0 : heap) (d d' : WeightDispatcher) :
  conns d' = conns d → nextConnIdx d' = nextConnIdx d →
  whole shared h0 d → whole shared h0 d'.
Proof.
  intros Hc Hi [(d0 & Hd0 & Hc0 & Hi0)|H0].
  - left. exists d0. split; [done|]. split; congruence.
  - right. congruence.
Qed.

Section Steps.
Variables (shared : loc) (h0 : heap) (rs : list request).

Lemma guarantee_refl (σ : local) (h : heap) : guarantee shared σ h h.
Proof.
  split; [by intros wd _ _ _|]. split; [by left|]. split; [done|]. apply clones_only_refl.
Qed.

(** A write to the fields of a dispatcher other than its slice. *)
Lemma serving_inv_update (h : heap) (wd : loc) (d d' : WeightDispatcher) :
  dispatchers h !! wd = Some d → conns d' = conns d →
  (wd = shared → exclusive shared h0 d') →
  serving_inv shared h0 rs h →
  serving_inv shared h0 rs (set_dispatchers (insert wd d') h).
Proof.
  intros Hwd Hconns Hex
    (Hfit & [Hcp Hcd] & [Hep Hed] & Hprof & Hdom & Hperm & ds & Hds & Hgen & Hwh).
  split; [done|]. split; [split; [done|]|].
  { intros wd1 d1. simpl. rewrite lookup_insert.
    destruct (decide (wd = wd1)) as [<-|Hne]; intros Hd1.
    - injection Hd1 as <-. rewrite Hconns. by eapply Hcd.
    - by eapply Hcd. }
  split; [split|].
  { intros pfl q wd1 d1 Hq. simpl. rewrite lookup_insert.
    destruct (decide (wd = wd1)) as [<-|Hne]; intros Hd1.
    - injection Hd1 as <-. rewrite Hconns. by eapply Hep.
    - by eapply Hep. }
  { intros wd1 d1 wd2 d2. simpl. rewrite !lookup_insert. intros Hd1 Hd2 Hne.
    destruct (decide (wd = wd1)) as [E1|N1], (decide (wd = wd2)) as [E2|N2].
    - congruence.
    - injection Hd1 as <-. rewrite Hconns. subst wd1. by eapply Hed.
    - injection Hd2 as <-. rewrite Hconns. subst wd2. by eapply Hed.
    - by eapply Hed. }
  split; [done|]. split.
  { simpl. rewrite dom_insert_L. etrans; [exact Hdom|]. apply union_subseteq_r. }
  split; [done|].
  simpl. rewrite lookup_insert. destruct (decide (wd = shared)) as [->|Hne].
  - exists d'. split; [done|]. assert (ds = d) as -> by congruence.
    split; [|by apply Hex]. unfold pool in *. by rewrite Hconns.
  - by exists ds.
Qed.

Lemma guarantee_update (σ : local) (h : heap) (wd : loc) (d d' : WeightDispatcher) :
  dispatchers h !! wd = Some d → conns d' = conns d →
  wd ∈ own σ ∨ wd = shared →
  (wd = shared →
   nextConnIdx d' = nextConnIdx d ∨ (wr σ = 1%nat ∧ readers (mu d) = 0%nat)) →
  (wd = shared → writer (mu d) = true → (readers (mu d') ≤ readers (mu d))%nat) →
  guarantee shared σ h (set_dispatchers (insert wd d') h).
Proof.
  intros Hd Hconns Hwd Hidx Hrd. split; [|split; [|split; [|split]]].
  - intros wd1 _ Hown Hsh. split; [|done].
    simpl. apply lookup_insert_ne. intros <-. by destruct Hwd.
  - unfold selection. simpl. rewrite lookup_insert.
    destruct (decide (wd = shared)) as [->|Hne]; [|by left].
    rewrite Hd. simpl. destruct (Hidx eq_refl) as [Hi|[Hwr Hnr]].
    + left. by rewrite Hconns, Hi.
    + right. by rewrite (mutex_lookup shared h d Hd).
  - destruct (decide (wd = shared)) as [->|Hne].
    + rewrite (mutex_lookup shared h d Hd), mutex_update. by apply Hrd.
    + by rewrite mutex_update_ne.
  - intros wd1 d1 Hne1. simpl. rewrite lookup_insert.
    destruct (decide (wd = wd1)) as [<-|Hne]; intros Hd1.
    + exists d'. split; [done|]. assert (d1 = d) as -> by congruence.
      unfold pool. by rewrite Hconns.
    + by exists d1.
  - intros wd1 d1 Hnone. simpl. rewrite lookup_insert_ne by congruence. congruence.
Qed.

(** [pfl.Conns.Sort()] *)
Lemma serving_inv_sorted (h : heap) (s : loc) :
  serving_inv shared h0 rs h →
  (∀ wd d, dispatchers h !! wd = Some d → conns d ≠ s) →
  serving_inv shared h0 rs (set_arrays (alter sortConns s) h).
Proof.
  intros (Hfit & [Hcp Hcd] & [Hep Hed] & Hprof & Hdom & Hperm & ds & Hds & Hgen & Hwh) Hs.
  split.
  { apply fits_intro. intros a. rewrite elems_sorted.
    destruct (decide _); rewrite ?sortConns_len; by apply fits_elems. }
  split; [split|].
  { intros pfl q Hq. simpl. rewrite dom_sorted. by eapply Hcp. }
  { intros wd d Hd. simpl. rewrite dom_sorted. by eapply Hcd. }
  split; [done|]. split; [done|]. split; [done|]. split.
  { intros pfl q Hq. rewrite elems_sorted.
    destruct (decide _); rewrite ?sortConns_perm; by eapply Hperm. }
  exists ds. split; [done|]. split; [|done]. unfold pool. rewrite elems_sorted.
  rewrite decide_False; [done|]. apply not_eq_sym. by eapply Hs.
Qed.

Lemma guarantee_sorted (σ : local) (h : heap) (s : loc) :
  (∀ wd d, dispatchers h !! wd = Some d → conns d ≠ s) →
  guarantee shared σ h (set_arrays (alter sortConns s) h).
Proof.
  intros Hs. split; [|split; [|split; [|split]]].
  - intros wd _ _ _. split; [done|]. intros d Hd. simpl.
    apply lookup_alter_ne. apply not_eq_sym. by eapply Hs.
  - by left.
  - done.
  - intros wd d _ Hd. exists d. split; [done|]. unfold pool. rewrite elems_sorted.
    rewrite decide_False; [done|]. apply not_eq_sym. by eapply Hs.
  - intros wd d' Hnone Hsome. simpl in Hsome. congruence.
Qed.

Lemma elems_copied (l : list DispatcherConn) (h : heap) (a : loc) :
  elems (copied l h) a = if decide (a = fresh (dom (arrays h))) then l else elems h a.
Proof.
  unfold copied, elems at 1. simpl. rewrite lookup_insert.
  destruct (decide (fresh (dom (arrays h)) = a)) as [<-|Hne].
  - by rewrite decide_True.
  - by rewrite decide_False.
Qed.

Lemma elems_copied_old (l : list DispatcherConn) (h : heap) (a : loc) :
  a ∈ dom (arrays h) → elems (copied l h) a = elems h a.
Proof.
  intros Hin. rewrite elems_copied. by rewrite decide_False by (by apply fresh_array_ne).
Qed.

(** A dispatcher [wd], the shared one or a new one, takes a copy of a
    pool in a new array. *)
Lemma serving_inv_copied (h : heap) (wd : loc) (d' : WeightDispatcher)
  (l : list DispatcherConn) :
  serving_inv shared h0 rs h →
  wd = shared ∨ dispatchers h !! wd = None →
  conns d' = fresh (dom (arrays h)) →
  len l ≤ max_int →
  (wd = shared → configured shared h0 rs l ∧ exclusive shared h0 d') →
  serving_inv shared h0 rs (set_dispatchers (insert wd d') (copied l h)).
Proof.
  intros (Hfit & [Hcp Hcd] & [Hep Hed] & Hprof & Hdom0 & Hperm & ds & Hds & Hgen & Hwh)
    Hwd Hconns Hl Hsh.
  split.
  { apply fits_intro. intros a. rewrite elems_set_dispatchers, elems_copied.
    destruct (decide _); [done|by apply fits_elems]. }
  assert (Hdom : dom (arrays (set_dispatchers (insert wd d') (copied l h)))
                 = {[fresh (dom (arrays h))]} ∪ dom (arrays h)).
  { simpl. by rewrite dom_insert_L. }
  split; [split|].
  { intros pfl q Hq. rewrite Hdom. apply elem_of_union_r. by eapply Hcp. }
  { intros wd1 d1. rewrite Hdom. simpl. rewrite lookup_insert.
    destruct (decide (wd = wd1)) as [<-|Hne]; intros Hd1.
    - injection Hd1 as <-. rewrite Hconns. apply elem_of_union_l. by apply elem_of_singleton.
    - apply elem_of_union_r. by eapply Hcd. }
  split; [split|].
  { intros pfl q wd1 d1 Hq. simpl. rewrite lookup_insert.
    destruct (decide (wd = wd1)) as [<-|Hne]; intros Hd1.
    - injection Hd1 as <-. rewrite Hconns. apply fresh_array_ne. by eapply Hcp.
    - by eapply Hep. }
  { intros wd1 d1 wd2 d2. simpl. rewrite !lookup_insert. intros Hd1 Hd2 Hne.
    destruct (decide (wd = wd1)) as [E1|N1], (decide (wd = wd2)) as [E2|N2].
    - congruence.
    - injection Hd1 as <-. rewrite Hconns. apply not_eq_sym, fresh_array_ne. by eapply Hcd.
    - injection Hd2 as <-. rewrite Hconns. apply fresh_array_ne. by eapply Hcd.
    - by eapply Hed. }
  split; [done|]. split.
  { simpl. rewrite dom_insert_L. etrans; [exact Hdom0|]. apply union_subseteq_r. }
  split.
  { intros pfl q Hq. rewrite elems_set_dispatchers, elems_copied_old; [by eapply Hperm|].
    eapply Hcp. by rewrite Hprof. }
  simpl. rewrite lookup_insert. destruct (decide (wd = shared)) as [->|Hne].
  - destruct (Hsh eq_refl) as [Hcfg Hex].
    exists d'. split; [done|]. split; [|done].
    unfold pool. rewrite Hconns, elems_set_dispatchers, elems_copied.
    by rewrite decide_True.
  - exists ds. split; [done|]. split; [|done].
    unfold pool. rewrite elems_set_dispatchers, elems_copied_old; [done|].
    by eapply Hcd.
Qed.

Lemma clones_only_copied (h : heap) (wd : loc) (d' : WeightDispatcher)
  (l : list DispatcherConn) :
  closed h →
  (wd = shared ∧ is_Some (dispatchers h !! shared) ∨
   dispatchers h !! wd = None ∧ conns d' = fresh (dom (arrays h)) ∧
   ∃ d, dispatchers h !! shared = Some d ∧ l = pool h d ∧ (1 ≤ readers (mu d))%nat) →
  clones_only shared h (set_dispatchers (insert wd d') (copied l h)).
Proof.
  intros [_ Hcd] Hwd. split.
  - intros wd1 d1 Hne1 Hd1. exists d1. split.
    + simpl. rewrite lookup_insert_ne; [done|].
      intros <-. destruct Hwd as [[-> _]|[Hnone _]]; congruence.
    + unfold pool. rewrite elems_set_dispatchers, elems_copied_old; [done|].
      by eapply Hcd.
  - intros wd1 d1 Hnone. simpl. rewrite lookup_insert.
    destruct (decide (wd = wd1)) as [<-|Hne]; [|congruence].
    intros [= <-]. destruct Hwd as [[-> [d Hd]]|(_ & Hconns & d & Hd & -> & Hr)].
    + congruence.
    + exists d. split; [done|]. split; [|done].
      unfold pool at 1. rewrite Hconns, elems_set_dispatchers, elems_copied.
      by rewrite decide_True.
Qed.

Lemma guarantee_copied (σ : local) (h : heap) (wd : loc) (d' : WeightDispatcher)
  (l : list DispatcherConn) :
  closed h →
  (wd = shared ∧ wr σ = 1%nat ∧
   ∃ d, dispatchers h !! shared = Some d ∧ mu d' = mu d ∧ readers (mu d) = 0%nat) ∨
  (dispatchers h !! wd = None ∧ conns d' = fresh (dom (arrays h)) ∧
   ∃ d, dispatchers h !! shared = Some d ∧ l = pool h d ∧ (1 ≤ readers (mu d))%nat) →
  guarantee shared σ h (set_dispatchers (insert wd d') (copied l h)).
Proof.
  intros Hclosed Hwd.
  assert (Hnew : wd = shared ∨ dispatchers h !! wd = None).
  { destruct Hwd as [(-> & _)|(Hnone & _)]; [by left|by right]. }
  split; [|split; [|split]].
  - intros wd1 Hin _ Hsh. destruct Hclosed as [_ Hcd]. split.
    + simpl. apply lookup_insert_ne. intros <-. destruct Hnew as [->|Hnone]; [done|].
      apply elem_of_dom in Hin as [? Hin]. congruence.
    + intros d1 Hd1. simpl. apply lookup_insert_ne. apply not_eq_sym, fresh_array_ne.
      by eapply Hcd.
  - destruct Hwd as [(_ & Hwr1 & d & Hd & _ & Hnr)|(Hnone & _ & d & Hd & _)].
    + right. by rewrite (mutex_lookup shared h d Hd).
    + left. unfold selection. simpl. rewrite lookup_insert_ne; [done|].
      intros ->. congruence.
  - intros _. destruct Hwd as [(-> & _ & d & Hd & Hmu & _)|(Hnone & _ & d & Hd & _)].
    + change (mutex shared (set_dispatchers (insert shared d') (copied l h)))
        with (mutex shared (set_dispatchers (insert shared d') h)).
      by rewrite mutex_update, (mutex_lookup shared h d Hd), Hmu.
    + change (mutex shared (set_dispatchers (insert wd d') (copied l h)))
        with (mutex shared (set_dispatchers (insert wd d') h)).
      rewrite mutex_update_ne; [done|]. intros ->. congruence.
  - apply clones_only_copied; [done|].
    destruct Hwd as [(-> & _ & d & Hd & _)|Hwd]; [left; by eauto|by right].
Qed.

Lemma configured_nonempty (l : list DispatcherConn) :
  serving_start shared h0 → configured shared h0 rs l → l ≠ [].
Proof.
  intros (_ & _ & _ & d0 & Hd0 & _ & Hpool)
    [(d & Hd & Hl)|(pfl & p & _ & Hp & Hne & Hl)] ->.
  - assert (d = d0) as -> by congruence. apply Permutation_nil_l in Hl. by symmetry in Hl.
  - apply Permutation_nil_l in Hl. by symmetry in Hl.
Qed.

End Steps.

Lemma elem_of_own_serving (inst wd : loc) : wd ∈ own (serving_with inst) ↔ wd = inst.
Proof. unfold serving_with. cbn [own]. apply elem_of_singleton. Qed.

Lemma lock_moves_refl (μ : RWMutex) (σ : local) : lock_moves μ μ σ σ.
Proof. split; [done|]. by left. Qed.

Lemma lock_moves_same (μ : RWMutex) (σ σ' : local) :
  rd σ' = rd σ → wr σ' = wr σ → lock_moves μ μ σ σ'.
Proof. intros Hr Hw. split; [lia|]. by left. Qed.

Lemma stable_True (shared : loc) (σ : local) : stable shared σ (λ _, True).
Proof. done. Qed.

Lemma stable_holds (shared : loc) (σ : local) (inst a : loc) (l : list DispatcherConn)
  (i : Z) :
  inst ∈ own σ → stable shared σ (holds inst a l i).
Proof.
  intros Hin h h' [Hd Ha] [Hpriv _].
  destruct (Hpriv inst Hin) as [Hd' Ha'].
  split; [by rewrite Hd'|]. specialize (Ha' _ Hd). simpl in Ha'. by rewrite Ha'.
Qed.

Lemma stable_no_reader (shared : loc) : stable shared writing (no_reader shared).
Proof.
  intros h h' Hr [_ Hw]. destruct (Hw eq_refl) as [_ Hle].
  unfold no_reader in *. lia.
Qed.

Lemma stable_reset (shared : loc) : stable shared writing (reset shared).
Proof.
  intros h h' (d & Hd & Hi) [_ Hw]. destruct (Hw eq_refl) as [Hsel _].
  unfold selection in Hsel. rewrite Hd in Hsel. simpl in Hsel.
  destruct (dispatchers h' !! shared) as [d'|] eqn:Hd'; simpl in Hsel; [|done].
  injection Hsel as Hc Hi'. exists d'. split; [done|]. congruence.
Qed.

Lemma holds_update (inst a : loc) (l : list DispatcherConn) (i j : Z) (h : heap) :
  holds inst a l i h →
  holds inst a l j
    (set_dispatchers (insert inst {| mu := unlocked; conns := a; nextConnIdx := j |}) h).
Proof. intros [Hd Ha]. split; [apply lookup_insert_eq|done]. Qed.

Lemma holds_pool (inst a : loc) (l : list DispatcherConn) (i : Z) (h : heap) :
  holds inst a l i h →
  ∃ d, dispatchers h !! inst = Some d ∧ pool h d = l.
Proof.
  intros [Hd Ha]. eexists. split; [exact Hd|]. unfold pool, elems. simpl. by rewrite Ha.
Qed.

Ltac field_update :=
  intros;
  first [done | congruence | (simpl in *; lia) | by left
        | right; split; [done|]; first [done | congruence | (simpl in *; lia)] ].

Section Programs.
Variables (shared : loc) (h0 : heap) (rs : list request).
Hypothesis Hstart : serving_start shared h0.

Let I := serving_inv shared h0 rs.

Lemma own_moves_serving (inst a : loc) (l : list DispatcherConn) (i : Z) (h h' : heap) :
  inst ≠ shared → holds inst a l i h' →
  own_moves shared (serving_with inst) (serving_with inst) h h'.
Proof.
  intros Hne [Hd _]. split; [done|]. split; [done|]. split.
  - intros wd ->%elem_of_own_serving. apply elem_of_dom. by eexists.
  - by intros ->%elem_of_own_serving.
Qed.

(** A step of [NextConnID] that writes the index. *)
Lemma safe_index_store {A : Type} (Q : A → local → heap → Prop) (inst a : loc)
  (l : list DispatcherConn) (i j : Z) (h : heap) (k : prog A) :
  inst ≠ shared → I h → holds inst a l i h →
  safe shared I Q (serving_with inst) (holds inst a l j) k →
  let h' := set_dispatchers
              (insert inst {| mu := unlocked; conns := a; nextConnIdx := j |}) h in
  I h' ∧ guarantee shared (serving_with inst) h h' ∧
  ∃ σ' P', lock_moves (mutex shared h) (mutex shared h') (serving_with inst) σ' ∧
           own_moves shared (serving_with inst) σ' h h' ∧
           P' h' ∧ stable shared σ' P' ∧ safe shared I Q σ' P' k.
Proof.
  intros Hne HI Hh Hk h'. pose proof (holds_update inst a l i j h Hh) as Hh'.
  split; [by apply (serving_inv_update shared h0 rs h inst _ _ (proj1 Hh))|].
  split.
  { apply (guarantee_update shared _ h inst _ _ (proj1 Hh));
      [done|left; by apply elem_of_own_serving|field_update|field_update]. }
  exists (serving_with inst), (holds inst a l j).
  split; [unfold h'; rewrite mutex_update_ne by done; apply lock_moves_refl|].
  split; [by eapply own_moves_serving|].
  split; [done|]. split; [by apply stable_holds, elem_of_own_serving|done].
Qed.

(** A step of [NextConnID] that only reads. *)
Lemma safe_read {A : Type} (Q : A → local → heap → Prop) (inst a : loc)
  (l : list DispatcherConn) (i : Z) (h : heap) (k : prog A) :
  inst ≠ shared → I h → holds inst a l i h →
  safe shared I Q (serving_with inst) (holds inst a l i) k →
  I h ∧ guarantee shared (serving_with inst) h h ∧
  ∃ σ' P', lock_moves (mutex shared h) (mutex shared h) (serving_with inst) σ' ∧
           own_moves shared (serving_with inst) σ' h h ∧
           P' h ∧ stable shared σ' P' ∧ safe shared I Q σ' P' k.
Proof.
  intros Hne HI Hh Hk.
  split; [done|]. split; [apply guarantee_refl|].
  exists (serving_with inst), (holds inst a l i).
  split; [apply lock_moves_refl|].
  split; [by eapply own_moves_serving|].
  split; [done|]. split; [by apply stable_holds, elem_of_own_serving|done].
Qed.

Lemma safe_NextConnID (inst a : loc) (l : list DispatcherConn) (i : Z) :
  inst ≠ shared → 0 ≤ i < len l → len l ≤ max_int →
  safe shared I
    (λ connID σ' h, σ' = serving_with inst ∧ connID ∈ ID <$> l ∧
                    ∃ j, 0 ≤ j < len l ∧ holds inst a l j h)
    (serving_with inst) (holds inst a l i) (NextConnID inst).
Proof.
  intros Hne Hi Hl.
  destruct (lookup_lt_is_Some_2 l (Z.to_nat i)) as [c Hc].
  { unfold len in Hi. lia. }
  assert (Hidx : index l i = Some c) by (by apply index_Some).
  unfold NextConnID, incrNextConnIdx. cbn [mbind prog_bind bind atomic].
  apply safe_Act_intro. intros h HI Hh _ _. pose proof Hh as [Hd Ha].
  unfold andThen, loadDispatcher, sliceIndex, pure, elems. rewrite Hd. simpl.
  rewrite Ha. simpl. rewrite Hidx.
  apply (safe_read _ inst a l i); try done.
  apply safe_Act_intro. clear h HI Hh Hd Ha. intros h HI Hh _ _. pose proof Hh as [Hd Ha].
  unfold storeDispatcher. rewrite Hd.
  rewrite wrap_int_small by (simpl; unfold max_int in *; lia). simpl.
  apply (safe_index_store _ inst a l i (i + 1)); try done.
  apply safe_Act_intro. clear h HI Hh Hd Ha. intros h HI Hh _ _. pose proof Hh as [Hd Ha].
  unfold andThen, loadDispatcher, sliceLen, pure, elems. rewrite Hd. simpl.
  rewrite Ha. simpl.
  apply (safe_read _ inst a l (i + 1)); try done.
  destruct (Z.ltb_spec (len l - 1) (i + 1)) as [Hpast|Hin].
  - apply safe_Act_intro. clear h HI Hh Hd Ha. intros h HI Hh _ _. pose proof Hh as [Hd Ha].
    unfold storeDispatcher. rewrite Hd. simpl.
    apply (safe_index_store _ inst a l (i + 1) 0); try done.
    apply safe_Ret_intro. intros h1 HI1 Hh1. split; [done|]. split.
    + apply list_elem_of_fmap_2. by eapply list_elem_of_lookup_2.
    + exists 0. split; [lia|done].
  - apply safe_Ret_intro. intros h1 HI1 Hh1. split; [done|]. split.
    + apply list_elem_of_fmap_2. by eapply list_elem_of_lookup_2.
    + exists (i + 1). split; [lia|done].
Qed.

Lemma safe_NextConnIDs (m : nat) (inst a : loc) (l : list DispatcherConn) (i : Z) :
  inst ≠ shared → 0 ≤ i < len l → len l ≤ max_int →
  safe shared I
    (λ ids _ h, (length ids = m ∧ Forall (λ connID, connID ∈ ID <$> l) ids) ∧
                ∃ j, holds inst a l j h)
    (serving_with inst) (holds inst a l i) (NextConnIDs m inst).
Proof.
  intros Hne Hi Hl. revert i Hi. induction m as [|m IH]; intros i Hi.
  - apply safe_Ret_intro. intros h _ Hh. split; [by split|]. by exists i.
  - change (NextConnIDs (S m) inst)
      with (connID ← NextConnID inst; rest ← NextConnIDs m inst; Ret (connID :: rest)).
    eapply safe_bind; [by apply (safe_NextConnID inst a l i)|].
    intros connID σ'. cbv beta.
    apply (safe_weaken shared I _ _ _
             (λ h, ∃ j, (σ' = serving_with inst ∧ connID ∈ ID <$> l ∧ 0 ≤ j < len l)
                        ∧ holds inst a l j h)).
    { intros h _ (Hσ & Hin & j & Hj & Hh). exists j. split; [|done]. by split. }
    apply safe_exists. intros j. apply safe_pure. intros (-> & Hin & Hj).
    eapply safe_bind; [by apply (IH j)|].
    intros rest σ''. apply safe_Ret_intro. intros h _ ((Hlen & Hall) & Hh).
    split; [|done]. split; [by rewrite length_cons, Hlen|]. by constructor.
Qed.

End Programs.

Section Requests.
Variables (shared : loc) (h0 : heap) (rs : list request).
Hypothesis Hstart : serving_start shared h0.

Let I := serving_inv shared h0 rs.

Lemma own_moves_none (σ σ' : local) (h h' : heap) :
  own σ = ∅ → own σ' = ∅ → own_moves shared σ σ' h h'.
Proof.
  intros Ho Ho'. unfold own_moves. rewrite Ho, Ho'.
  split; [done|]. split; [set_solver|]. split; set_solver.
Qed.

Lemma safe_Reconfigure (pfl : loc) :
  Reconfigure pfl ∈ rs →
  wellformed h0 (Reconfigure pfl) →
  safe shared I (λ ids _ h, answered shared h0 (Reconfigure pfl) ids h) idle (λ _, True)
    (handle shared (Reconfigure pfl)).
Proof.
  intros Hin (p & Hp & Hnil).
  unfold handle, SetProfile, Lock. cbn [mbind prog_bind bind atomic].
  (* pfl.Conns.Sort() *)
  apply safe_Act_intro. intros h HI _ _ _.
  pose proof HI as (Hfit & [Hcp Hcd] & [Hep Hed] & Hprof & _ & Hperm & d & Hd & Hgen & Hwh).
  unfold sortProfile, andThen, loadProfile, Sort. rewrite Hprof, Hp.
  assert (Hsep : ∀ wd d1, dispatchers h !! wd = Some d1 → conns d1 ≠ Conns p).
  { intros wd d1 Hd1. apply not_eq_sym. eapply Hep; [|done]. by rewrite Hprof. }
  split; [by apply serving_inv_sorted|]. split; [by apply guarantee_sorted|].
  exists idle, (λ _, True). split; [apply lock_moves_refl|].
  split; [by apply own_moves_none|]. split; [done|]. split; [done|].
  (* wd.Lock(): the writer announces itself *)
  clear dependent h. clear dependent d. apply safe_Act_intro. intros h HI _ _ _.
  pose proof HI as (_ & _ & _ & _ & _ & _ & d & Hd & _ & Hwh).
  unfold announce. rewrite Hd.
  destruct (writer (mu d)) eqn:Hw; [done|].
  assert (Hwhole : whole shared h0 d).
  { destruct Hwh as [Hwh|[Hw' _]]; [done|congruence]. }
  split.
  { apply (serving_inv_update shared h0 rs h shared d); [done..| |done].
    intros _. left. by apply (whole_same shared h0 d). }
  split.
  { apply (guarantee_update shared _ h shared d);
      [done|done|by right|field_update|field_update]. }
  exists writing, (λ _, True). split.
  { rewrite (mutex_lookup shared h d Hd), mutex_update. split; [simpl; lia|].
    right; left. by repeat split. }
  split; [by apply own_moves_none|]. split; [done|]. split; [done|].
  (* wd.Lock(): the readers leave *)
  clear dependent h. clear dependent d. apply safe_Act_intro. intros h HI _ _ _.
  pose proof HI as (_ & _ & _ & _ & _ & _ & d & Hd & _).
  unfold readersLeave. rewrite Hd.
  destruct (readers (mu d) =? 0)%nat eqn:Hr; [|done].
  apply Nat.eqb_eq in Hr.
  split; [done|]. split; [apply guarantee_refl|].
  exists writing, (no_reader shared). split; [apply lock_moves_refl|].
  split; [by apply own_moves_none|]. split.
  { unfold no_reader. by rewrite (mutex_lookup shared h d Hd). }
  split; [apply stable_no_reader|].
  (* wd.conns = pfl.Conns.Clone() *)
  clear dependent h. clear dependent d. apply safe_Act_intro. intros h HI Hnr _ Hwr.
  pose proof HI as (Hfit & Hclosed & _ & Hprof & _ & Hperm & d & Hd & _).
  specialize (Hwr eq_refl). unfold no_reader in Hnr.
  rewrite (mutex_lookup shared h d Hd) in Hwr, Hnr.
  unfold cloneProfile, andThen, loadProfile, Clone, storeDispatcher. rewrite Hprof, Hp.
  simpl. rewrite Hd.
  change (set_arrays (insert (fresh (dom (arrays h))) (elems h (Conns p))) h)
    with (copied (elems h (Conns p)) h).
  split.
  { apply serving_inv_copied; [done|by left|done|by apply fits_elems|].
    intros _. split.
    - right. exists pfl, p. split; [done|]. split; [done|]. split; [done|].
      by apply (Hperm pfl).
    - right. by split. }
  split.
  { apply guarantee_copied; [done|]. left. split; [done|]. split; [done|].
    exists d. by split_and!. }
  exists writing, (no_reader shared). split.
  { change (mutex shared (set_dispatchers
                            (insert shared (with_conns (fresh (dom (arrays h))) d))
                            (copied (elems h (Conns p)) h)))
      with (mutex shared (set_dispatchers
                            (insert shared (with_conns (fresh (dom (arrays h))) d)) h)).
    rewrite (mutex_lookup shared h d Hd), mutex_update. apply lock_moves_refl. }
  split; [by apply own_moves_none|]. split.
  { unfold no_reader, mutex. simpl. by rewrite lookup_insert_eq. }
  split; [apply stable_no_reader|].
  (* wd.nextConnIdx = 0 *)
  clear dependent h. clear dependent d. apply safe_Act_intro. intros h HI Hnr _ Hwr.
  pose proof HI as (_ & _ & _ & _ & _ & _ & d & Hd & _).
  unfold no_reader in Hnr. rewrite (mutex_lookup shared h d Hd) in Hnr.
  unfold storeDispatcher. rewrite Hd.
  split.
  { apply (serving_inv_update shared h0 rs h shared d); [done..| |done].
    intros _. left. by right. }
  split.
  { apply (guarantee_update shared _ h shared d);
      [done|done|by right|field_update|field_update]. }
  exists writing, (reset shared). split.
  { rewrite (mutex_lookup shared h d Hd), mutex_update. apply lock_moves_refl. }
  split; [by apply own_moves_none|]. split.
  { eexists. split; [apply lookup_insert_eq|done]. }
  split; [apply stable_reset|].
  (* wd.Unlock() *)
  clear dependent h. clear dependent d. apply safe_Act_intro.
  intros h HI (d & Hd & Hidx) _ Hwr.
  specialize (Hwr eq_refl). rewrite (mutex_lookup shared h d Hd) in Hwr.
  unfold Unlock. rewrite Hd, Hwr.
  split.
  { apply (serving_inv_update shared h0 rs h shared d); [done..| |done].
    intros _. left. by right. }
  split.
  { apply (guarantee_update shared _ h shared d);
      [done|done|by right|field_update|field_update]. }
  exists idle, (λ _, True). split.
  { rewrite (mutex_lookup shared h d Hd), mutex_update. split; [simpl; lia|].
    right; right. by repeat split. }
  split; [by apply own_moves_none|]. split; [done|]. split; [done|].
  by apply safe_Ret_intro.
Qed.

Lemma safe_Serve (m : nat) :
  safe shared I (λ ids _ h, answered shared h0 (Serve m) ids h) idle (λ _, True)
    (handle shared (Serve m)).
Proof.
  unfold handle, GetInstance. cbn [mbind prog_bind bind atomic].
  (* wd.RLock() *)
  apply safe_Act_intro. intros h HI _ _ _.
  pose proof HI as (_ & _ & _ & _ & _ & _ & d & Hd & _ & Hwh).
  unfold RLock. rewrite Hd.
  destruct (writer (mu d)) eqn:Hw; [done|].
  assert (Hwhole : whole shared h0 d).
  { destruct Hwh as [Hwh|[Hw' _]]; [done|congruence]. }
  split.
  { apply (serving_inv_update shared h0 rs h shared d); [done..| |done].
    intros _. left. by apply (whole_same shared h0 d). }
  split.
  { apply (guarantee_update shared _ h shared d);
      [done|done|by right|field_update|field_update]. }
  exists (reading ∅), (λ _, True). split.
  { rewrite (mutex_lookup shared h d Hd), mutex_update. split; [simpl; lia|].
    left. by split. }
  split; [by apply own_moves_none|]. split; [done|]. split; [done|].
  (* wdInst := &WeightDispatcher{conns: wd.conns.Clone()} *)
  clear dependent h. clear dependent d. apply safe_Act_intro. intros h HI _ Hrd _.
  pose proof HI as (Hfit & Hclosed & _ & _ & Hdom & _ & d & Hd & Hgen & _).
  rewrite (mutex_lookup shared h d Hd) in Hrd. simpl in Hrd.
  unfold andThen, loadDispatcher, Clone, allocDispatcher. rewrite Hd. simpl.
  set (inst := fresh (dom (dispatchers h))).
  set (a := fresh (dom (arrays h))).
  set (l := elems h (conns d)) in *.
  change (set_arrays (insert a l) h) with (copied l h).
  assert (Hinst : dispatchers h !! inst = None) by apply fresh_dispatcher.
  assert (Hne : inst ≠ shared) by (intros Heq; rewrite Heq in Hinst; congruence).
  assert (Hinst0 : inst ∉ dom (dispatchers h0)).
  { intros Hin0. apply Hdom in Hin0. by apply not_elem_of_dom in Hinst. }
  assert (Hl : len l ≤ max_int) by (by apply fits_elems).
  assert (Hnil : l ≠ []) by (by apply (configured_nonempty shared h0 rs)).
  split; [apply serving_inv_copied; try done; by right|].
  split.
  { apply guarantee_copied; [done|]. right. split; [done|]. split; [done|].
    exists d. split; [done|]. split; [done|lia]. }
  exists (reading {[inst]}), (holds inst a l 0). split.
  { change (mutex shared (set_dispatchers
                            (insert inst {| mu := unlocked; conns := a; nextConnIdx := 0 |})
                            (copied l h)))
      with (mutex shared (set_dispatchers
                            (insert inst {| mu := unlocked; conns := a; nextConnIdx := 0 |}) h)).
    rewrite mutex_update_ne by done. by apply lock_moves_same. }
  split.
  { unfold own_moves, reading, idle. cbn [own].
    split; [set_solver|]. split; [|split].
    - intros wd Hwd _. apply elem_of_singleton in Hwd as ->. by apply not_elem_of_dom.
    - intros wd Hwd. apply elem_of_singleton in Hwd as ->.
      apply elem_of_dom. simpl. rewrite lookup_insert_eq. by eexists.
    - intros Hin. apply elem_of_singleton in Hin. congruence. }
  split.
  { split; [apply lookup_insert_eq|]. simpl. apply lookup_insert_eq. }
  split; [apply stable_holds; unfold reading; cbn [own]; by apply elem_of_singleton|].
  (* wd.RUnlock() *)
  clearbody inst a l. clear dependent h. clear dependent d.
  apply safe_Act_intro. intros h HI Hh Hrd _.
  pose proof HI as (_ & _ & _ & _ & _ & _ & d & Hd & _ & Hwh).
  rewrite (mutex_lookup shared h d Hd) in Hrd. simpl in Hrd.
  unfold RUnlock. rewrite Hd.
  destruct (readers (mu d)) as [|n] eqn:Hr; [lia|].
  assert (Hwhole : whole shared h0 d).
  { destruct Hwh as [Hwh|[_ Hr']]; [done|congruence]. }
  split.
  { apply (serving_inv_update shared h0 rs h shared d); [done..| |done].
    intros _. left. by apply (whole_same shared h0 d). }
  split.
  { apply (guarantee_update shared _ h shared d);
      [done|done|by right|field_update|field_update]. }
  assert (Hh' : holds inst a l 0
                  (set_dispatchers
                     (insert shared (with_mu {| writer := writer (mu d); readers := n |} d)) h)).
  { destruct Hh as [Hi Ha]. split; [|done]. simpl. by rewrite lookup_insert_ne. }
  exists (serving_with inst), (holds inst a l 0). split.
  { rewrite (mutex_lookup shared h d Hd), mutex_update. split; [simpl; lia|].
    left. by split. }
  split.
  { split; [done|]. split; [done|]. split.
    - intros wd Hwd. apply elem_of_own_serving in Hwd as ->.
      apply elem_of_dom. destruct Hh' as [Hi _]. by eexists.
    - intros Hin. apply elem_of_own_serving in Hin. congruence. }
  split; [done|]. split; [by apply stable_holds, elem_of_own_serving|].
  (* the calls of NextConnID on the clone *)
  eapply safe_post; [|eapply (safe_NextConnIDs shared h0 rs); try done].
  - intros ids _ h2 _ [[Hlen Hall] [j Hj]]. split; [done|].
    destruct (holds_pool inst a l j h2 Hj) as (di & Hdi & Hpool).
    exists inst, di. split; [done|]. split; [done|]. split; [done|]. by rewrite Hpool.
  - apply len_pos in Hnil. lia.
Qed.

End Requests.

(** ** Goroutines that serve with clones *)

Lemma serving_inv_start (shared : loc) (h0 : heap) (rs : list request) :
  serving_start shared h0 → serving_inv shared h0 rs h0.
Proof.
  intros (Hfit & Hc & He & d & Hd & _ & _).
  split; [done|]. split; [done|]. split; [done|]. split; [done|].
  split; [done|]. split; [done|]. exists d. split; [done|]. split.
  - left. by exists d.
  - left. left. by exists d.
Qed.

Lemma sum_list_with_const0 {A B : Type} (f : B → nat) (b : B) (l : list A) :
  f b = 0%nat → sum_list_with f ((λ _, b) <$> l) = 0%nat.
Proof.
  intros Hb. induction l as [|x l IH]; [done|].
  rewrite fmap_cons. cbn [sum_list_with]. rewrite Hb, IH. done.
Qed.

Lemma pool_safe_start (shared : loc) (h0 : heap) (rs : list request) :
  serving_start shared h0 → Forall (wellformed h0) rs →
  pool_safe shared (serving_inv shared h0 rs) (answered shared h0 <$> rs)
    (handle shared <$> rs) h0.
Proof.
  intros Hstart Hrs. split; [by apply serving_inv_start|].
  exists ((λ _, idle) <$> rs). split; [by rewrite !length_fmap|].
  destruct Hstart as (Hfit & Hc & He & d & Hd & Hmu & Hpool).
  assert (Hstart : serving_start shared h0).
  { split; [done|]. split; [done|]. split; [done|]. by exists d. }
  split; [|split; [|split; [|split]]].
  - intros i g σ. rewrite !list_lookup_fmap.
    destruct (rs !! i) as [r|] eqn:Hr; [|done]. simpl. intros [= <-] [= <-].
    split; [done|]. split; [done|].
    exists (answered shared h0 r), (λ _, True).
    split; [by rewrite ?list_lookup_fmap, ?Hr|]. split; [done|]. split; [done|].
    destruct r as [pfl|m].
    + apply safe_Reconfigure; [done| |].
      * by eapply list_elem_of_lookup_2.
      * by apply (Forall_lookup_1 _ _ _ _ Hrs Hr).
    + by apply safe_Serve.
  - intros i j σi σj _. rewrite !list_lookup_fmap.
    destruct (rs !! i), (rs !! j); try done. simpl. by intros [= <-] [= <-].
  - rewrite (mutex_lookup shared h0 d Hd), Hmu. by rewrite sum_list_with_const0.
  - by rewrite (mutex_lookup shared h0 d Hd), Hmu.
  - intros _. by rewrite sum_list_with_const0.
Qed.

Lemma step_of_length (i : nat) (gs gs' : list goroutine) (h h' : heap) :
  step_of i gs h = Done gs' h' → length gs' = length gs.
Proof.
  unfold step_of. destruct (gs !! i) as [[ids|B s k]|]; try by intros [= <- <-].
  destruct (s h) as [b h1| |]; try done; intros [= <- <-]; [|done].
  by rewrite length_insert.
Qed.

Lemma interleave_length (schedule : list nat) (gs gs' : list goroutine) (h h' : heap) :
  interleave schedule gs h = Done gs' h' → length gs' = length gs.
Proof.
  revert gs h. induction schedule as [|i rest IH]; intros gs h; simpl.
  - by intros [= <- <-].
  - unfold andThen. destruct (step_of i gs h) as [gs1 h1| |] eqn:Hstep; [|done|done].
    intros Hrest. rewrite (IH _ _ Hrest). by eapply step_of_length.
Qed.

(** The goroutines are safe after every schedule, and every clone there
    is has the pool of a generation as a reader has seen it. *)
Lemma interleave_seen (shared : loc) (h0 : heap) (rs : list request)
  (rest pre : list nat) (gs : list goroutine) (h : heap) :
  interleave pre (handle shared <$> rs) h0 = Done gs h →
  pool_safe shared (serving_inv shared h0 rs) (answered shared h0 <$> rs) gs h →
  clones_seen shared (pre ++ rest) (handle shared <$> rs) h0 h →
  ∃ gs' h',
    interleave (pre ++ rest) (handle shared <$> rs) h0 = Done gs' h' ∧
    pool_safe shared (serving_inv shared h0 rs) (answered shared h0 <$> rs) gs' h' ∧
    clones_seen shared (pre ++ rest) (handle shared <$> rs) h0 h'.
Proof.
  revert pre gs h. induction rest as [|i rest IH]; intros pre gs h Hpre HS Hseen.
  - exists gs, h. by rewrite app_nil_r in *.
  - destruct (step_of_safe shared _ _ i gs h HS)
      as (gs1 & h1 & Hstep & HS1 & [Hmove1 Hmove2] & _).
    assert (Hpre1 : interleave (pre ++ [i]) (handle shared <$> rs) h0 = Done gs1 h1).
    { rewrite interleave_app, Hpre. simpl. unfold andThen. by rewrite Hstep. }
    replace (pre ++ i :: rest) with ((pre ++ [i]) ++ rest) in *
      by (by rewrite <- app_assoc).
    apply (IH (pre ++ [i]) gs1 h1 Hpre1 HS1).
    intros wd d1 Hne Hnew Hd1.
    destruct (dispatchers h !! wd) as [d|] eqn:Hd.
    + destruct (Hmove1 wd d Hne Hd) as (d' & Hd' & Hpool).
      assert (d' = d1) as -> by congruence. rewrite Hpool. by apply (Hseen wd).
    + destruct (Hmove2 wd d1 Hd Hd1) as (ds & Hds & Hpool & Hr).
      destruct HS as ((_ & _ & _ & _ & _ & _ & ds' & Hds' & _ & Hwh) & _).
      assert (ds' = ds) as -> by congruence.
      exists (length pre), gs, h, ds.
      split.
      { rewrite <- app_assoc, take_app_length. exact Hpre. }
      split; [done|]. split; [done|]. split; [done|].
      destruct Hwh as [Hwh|[_ Hr0]]; [done|lia].
Qed.

Lemma NextConnID_takes_no_lock (h : heap) (wd : loc) :
  run (NextConnID wd) h ≠ Blocked ∧
  ∀ connID h', run (NextConnID wd) h = Done connID h' → mutex wd h' = mutex wd h.
Proof.
  split.
  - destruct (dispatchers h !! wd) as [d|] eqn:Hwd;
      [|by rewrite run_NextConnID_nil].
    destruct (index (pool h d) (nextConnIdx d)) as [c|] eqn:Hc.
    + by rewrite (run_NextConnID_Some h wd d c).
    + by rewrite (run_NextConnID_out_of_range h wd d).
  - intros connID h' Hrun.
    apply run_NextConnID_inv in Hrun as (d & c & Hwd & _ & _ & ->).
    unfold mutex, advanced. simpl. by rewrite lookup_insert_eq, Hwd.
Qed.


Lemma serving_start_heap1 : serving_start 1%positive heap1.
Proof.
  destruct sound_encapsulated_heap1 as [(Hfit & Hc & _) He].
  split; [done|]. split; [done|]. split; [done|].
  exists (fresh_dispatcher_on 4%positive). by vm_compute.
Qed.

Lemma wellformed_requests : Forall (wellformed heap1) requests.
Proof.
  repeat constructor. exists profile_DE. split; by vm_compute.
Qed.


(** With that schedule every goroutine returns: the first has served from
    the pool it cloned before the reconfiguration, the third from the one
    after. *)
Example in_turn_returned :
  returned (interleave in_turn (handle 1%positive <$> requests) heap1) =
    Some [Some ["B"; "C"; "A"; "B"]; Some []; Some ["E"; "D"]]%string.
Proof. by vm_compute. Qed.

(** The first goroutine has the mutex for reading when the second
    announces itself as the writer and waits; the third then does not get
    in as a reader, however often it tries.  When the first has unlocked,
    the writer goes on. *)
Example pending_writer_keeps_readers_out :
  mutex_after 1%positive
    (interleave [0; 1; 1; 1; 2; 2]%nat (handle 1%positive <$> requests) heap1) =
    Some {| writer := true; readers := 1 |} ∧
  mutex_after 1%positive
    (interleave [0; 1; 1; 1; 2; 2; 0; 0; 1; 2]%nat (handle 1%positive <$> requests) heap1) =
    Some {| writer := true; readers := 0 |}.
Proof. split; by vm_compute. Qed.


(** ** The rotation *)

Lemma next_idx_mod (n i : Z) :
  0 ≤ i < n → n ≤ max_int → next_idx n i = (i + 1) mod n.
Proof.
  intros Hi Hn. rewrite next_idx_fits by done.
  destruct (Z.ltb_spec (i + 1) n).
  - by rewrite Z.mod_small by lia.
  - replace (i + 1) with n by lia. by rewrite Z.mod_same by lia.
Qed.

(** [n] calls from a valid index: where the index stands, and what each
    call has returned. *)
Lemma run_NextConnIDs_mod (n : nat) (h : heap) (wd : loc) (d : WeightDispatcher) :
  dispatchers h !! wd = Some d →
  0 ≤ nextConnIdx d < len (pool h d) →
  len (pool h d) ≤ max_int →
  ∃ ids,
    run (NextConnIDs n wd) h =
      Done ids
        (set_dispatchers
           (insert wd (with_nextConnIdx
                         ((nextConnIdx d + Z.of_nat n) mod len (pool h d)) d)) h) ∧
    length ids = n ∧
    ∀ j, (j < n)%nat →
         ids !! j = ID <$> index (pool h d) ((nextConnIdx d + Z.of_nat j) mod len (pool h d)).
Proof.
  revert h d. induction n as [|n IH]; intros h d Hwd Hi Hfit.
  - exists []. split; [|split; [done|intros j Hj; lia]].
    simpl. rewrite Z.add_0_r, Z.mod_small by done.
    rewrite with_nextConnIdx_same. unfold set_dispatchers.
    rewrite insert_id by done. by destruct h.
  - destruct (index_in_range (pool h d) (nextConnIdx d) Hi) as [c Hc].
    set (N := len (pool h d)) in *.
    set (d1 := with_nextConnIdx ((nextConnIdx d + 1) mod N) d).
    set (h1 := set_dispatchers (insert wd d1) h).
    assert (Hadv : advanced wd d h = h1).
    { unfold advanced. fold N. by rewrite next_idx_mod. }
    assert (Hwd1 : dispatchers h1 !! wd = Some d1) by apply lookup_insert_eq.
    assert (Hpool1 : pool h1 d1 = pool h d) by done.
    assert (Hi1 : 0 ≤ nextConnIdx d1 < len (pool h1 d1)).
    { rewrite Hpool1. fold N. simpl. apply Z.mod_pos_bound. lia. }
    destruct (IH h1 d1 Hwd1 Hi1) as (ids & Hrun & Hlen & Hids).
    { by rewrite Hpool1. }
    exists (ID c :: ids). split; [|split].
    + change (NextConnIDs (S n) wd)
        with (connID ← NextConnID wd; rest ← NextConnIDs n wd; Ret (connID :: rest)).
      rewrite run_bind, (run_NextConnID_Some h wd d c Hwd Hc), Hadv.
      rewrite run_bind, Hrun. simpl. f_equal.
      rewrite Hpool1. fold N. unfold h1, set_dispatchers. simpl.
      rewrite insert_insert_eq. do 2 f_equal.
      unfold d1, with_nextConnIdx. simpl. f_equal.
      rewrite Zplus_mod_idemp_l. f_equal. lia.
    + simpl. by rewrite Hlen.
    + intros [|j] Hj.
      * simpl. rewrite Z.add_0_r, Z.mod_small by done. by rewrite Hc.
      * simpl. rewrite Hids by lia. rewrite Hpool1. fold N. simpl.
        rewrite Zplus_mod_idemp_l. do 3 f_equal. lia.
Qed.

(** As many calls as the pool has connections, from a valid index: the
    identifiers of the pool from the index on, then those before it, and
    the heap is the one the calls began in. *)
Lemma run_NextConnIDs_round (h : heap) (wd : loc) (d : WeightDispatcher) :
  dispatchers h !! wd = Some d →
  0 ≤ nextConnIdx d < len (pool h d) →
  len (pool h d) ≤ max_int →
  run (NextConnIDs (length (pool h d)) wd) h =
    Done (ID <$> rotate (Z.to_nat (nextConnIdx d)) (pool h d)) h.
Proof.
  intros Hwd Hi Hfit.
  destruct (run_NextConnIDs_mod (length (pool h d)) h wd d Hwd Hi Hfit)
    as (ids & Hrun & Hlen & Hids).
  rewrite Hrun. f_equal.
  - apply list_eq. intros j. rewrite list_lookup_fmap.
    destruct (decide (j < length (pool h d))%nat) as [Hj|Hj].
    + rewrite Hids by done. f_equal.
      rewrite lookup_rotate_r by done. unfold rotate_nat_add, index, len.
      rewrite Z2Nat.id by lia.
      assert (0 ≤ (nextConnIdx d + Z.of_nat j) mod Z.of_nat (length (pool h d))
              < Z.of_nat (length (pool h d))) as [H0 H1]
        by (apply Z.mod_pos_bound; lia).
      destruct (Z.leb_spec 0 ((nextConnIdx d + Z.of_nat j) mod Z.of_nat (length (pool h d))));
        [|lia].
      destruct (Z.ltb_spec ((nextConnIdx d + Z.of_nat j) mod Z.of_nat (length (pool h d)))
                  (Z.of_nat (length (pool h d)))); [done|lia].
    + rewrite !lookup_ge_None_2; [done| |lia].
      rewrite length_rotate. lia.
  - fold (len (pool h d)).
    replace ((nextConnIdx d + len (pool h d)) mod len (pool h d)) with (nextConnIdx d).
    2:{ replace (nextConnIdx d + len (pool h d))
          with (nextConnIdx d + 1 * len (pool h d)) by lia.
        by rewrite Z_mod_plus_full, Z.mod_small. }
    rewrite with_nextConnIdx_same. unfold set_dispatchers.
    rewrite insert_id by done. by destruct h.
Qed.

(** X1: on a dispatcher whose index [i] is within its pool of [N]
    connections, call number [j] of [NextConnID], counted from 0, returns
    the identifier at position [(i + j) mod N] of the pool; after [n]
    calls the index is [(i + n) mod N], and nothing else in the heap has
    changed. *)
Theorem NextConnID_rotation (n : nat) (h : heap) (wd : loc) (d : WeightDispatcher) :
  dispatchers h !! wd = Some d →
  0 ≤ nextConnIdx d < len (pool h d) →
  len (pool h d) ≤ max_int →
  ∃ ids,
    run (NextConnIDs n wd) h =
      Done ids
        (set_dispatchers
           (insert wd (with_nextConnIdx
                         ((nextConnIdx d + Z.of_nat n) mod len (pool h d)) d)) h) ∧
    length ids = n ∧
    ∀ j, (j < n)%nat →
         ∃ c, index (pool h d) ((nextConnIdx d + Z.of_nat j) mod len (pool h d)) = Some c ∧
              ids !! j = Some (ID c).
Proof.
  intros Hwd Hi Hfit.
  destruct (run_NextConnIDs_mod n h wd d Hwd Hi Hfit) as (ids & Hrun & Hlen & Hids).
  exists ids. split; [done|]. split; [done|].
  intros j Hj.
  destruct (index_in_range (pool h d)
              ((nextConnIdx d + Z.of_nat j) mod len (pool h d))) as [c Hc].
  { apply Z.mod_pos_bound. lia. }
  exists c. split; [done|]. by rewrite Hids, Hc.
Qed.

Lemma NextConnID_rotation_witness :
  ∃ ids,
    run (NextConnIDs 5 1%positive) heap2 =
      Done ids
        (set_dispatchers
           (insert 1%positive
              (with_nextConnIdx
                 ((nextConnIdx (with_nextConnIdx 1 (fresh_dispatcher_on 4%positive))
                   + Z.of_nat 5)
                  mod len (pool heap2 (with_nextConnIdx 1 (fresh_dispatcher_on 4%positive))))
                 (with_nextConnIdx 1 (fresh_dispatcher_on 4%positive)))) heap2) ∧
    length ids = 5%nat ∧
    ∀ j, (j < 5)%nat →
         ∃ c, index (pool heap2 (with_nextConnIdx 1 (fresh_dispatcher_on 4%positive)))
                ((nextConnIdx (with_nextConnIdx 1 (fresh_dispatcher_on 4%positive))
                  + Z.of_nat j)
                 mod len (pool heap2 (with_nextConnIdx 1 (fresh_dispatcher_on 4%positive))))
              = Some c ∧
              ids !! j = Some (ID c).
Proof.
  apply (NextConnID_rotation 5 heap2 1%positive
           (with_nextConnIdx 1 (fresh_dispatcher_on 4%positive)));
    [vm_compute; reflexivity | by vm_compute | by vm_compute].
Defined.

(** X2: the rotation has the length of the pool as its period.  From a
    valid index [i], as many calls of [NextConnID] as the pool has
    connections return the identifiers of the pool from position [i] to
    the end and then those before [i], so every connection once, and they
    leave the heap exactly as it was: the index is back at [i]. *)
Theorem NextConnID_period (h : heap) (wd : loc) (d : WeightDispatcher) :
  dispatchers h !! wd = Some d →
  0 ≤ nextConnIdx d < len (pool h d) →
  len (pool h d) ≤ max_int →
  run (NextConnIDs (length (pool h d)) wd) h =
    Done (ID <$> rotate (Z.to_nat (nextConnIdx d)) (pool h d)) h ∧
  ID <$> rotate (Z.to_nat (nextConnIdx d)) (pool h d) ≡ₚ ID <$> pool h d.
Proof.
  intros Hwd Hi Hfit. split; [by apply run_NextConnIDs_round|].
  apply fmap_Permutation. unfold rotate.
  rewrite Permutation_app_comm. by rewrite take_drop.
Qed.

Lemma NextConnID_period_witness :
  run (NextConnIDs (length (pool heap2 (with_nextConnIdx 1 (fresh_dispatcher_on 4%positive))))
         1%positive) heap2 =
    Done (ID <$> rotate (Z.to_nat (nextConnIdx (with_nextConnIdx 1 (fresh_dispatcher_on 4%positive))))
                   (pool heap2 (with_nextConnIdx 1 (fresh_dispatcher_on 4%positive)))) heap2 ∧
  ID <$> rotate (Z.to_nat (nextConnIdx (with_nextConnIdx 1 (fresh_dispatcher_on 4%positive))))
           (pool heap2 (with_nextConnIdx 1 (fresh_dispatcher_on 4%positive)))
    ≡ₚ ID <$> pool heap2 (with_nextConnIdx 1 (fresh_dispatcher_on 4%positive)).
Proof.
  apply (NextConnID_period heap2 1%positive
           (with_nextConnIdx 1 (fresh_dispatcher_on 4%positive)));
    [vm_compute; reflexivity | by vm_compute | by vm_compute].
Defined.

(** The dispatcher of [heap2] stands at "C"; three calls return "C", "A"
    and "B" and leave [heap2]. *)
Example NextConnIDs_heap2 :
  run (NextConnIDs 3 1%positive) heap2 = Done ["C"; "A"; "B"]%string heap2.
Proof. by vm_compute. Qed.

(** ** Trying every connection *)

(** X3: the loop of a caller that takes an instance with [GetInstance]
    and calls [NextConnID] on it [MaxConns()] times returns the
    identifiers of the pool of the source, each connection once and in
    the order of the pool, wherever the index of the source stands; on an
    empty pool it returns no identifier and does not panic.  The source
    and its pool are as they were. *)
Theorem tryAll_in_pool_order (h : heap) (wd : loc) (d : WeightDispatcher) :
  dispatchers h !! wd = Some d → writer (mu d) = false → fits h →
  ∃ h', run (tryAll wd) h = Done (ID <$> pool h d) h' ∧
        dispatchers h' !! wd = Some d ∧ pool h' d = pool h d.
Proof.
  intros Hwd Hmu Hfit. unfold tryAll.
  set (inst := fresh (dom (dispatchers h))).
  set (di := fresh_dispatcher_on (fresh (dom (arrays h)))).
  set (h1 := cloned inst d h).
  assert (Hinst : dispatchers h1 !! inst = Some di)
    by (unfold h1; by rewrite lookup_cloned, decide_True).
  assert (Hpool : pool h1 di = pool h d).
  { unfold pool, h1. rewrite elems_cloned. by rewrite decide_True. }
  assert (Hsrc : dispatchers h1 !! wd = Some d).
  { unfold h1. rewrite lookup_cloned, decide_False; [done|].
    by apply (fresh_dispatcher_ne h wd d). }
  assert (Hpool' : pool h1 d = pool h d).
  { unfold pool, h1. rewrite elems_cloned.
    destruct (decide (conns d = fresh (dom (arrays h)))) as [Heq|]; [|done].
    unfold elems. rewrite Heq. by rewrite fresh_array. }
  exists h1.
  rewrite run_bind, (run_GetInstance h wd d Hwd Hmu). fold inst h1.
  rewrite run_bind, (run_MaxConns h1 inst di Hinst).
  unfold len. rewrite Nat2Z.id.
  split; [|done].
  destruct (decide (pool h1 di = [])) as [Hnil|Hne].
  - rewrite Hnil in *. by rewrite <- Hpool.
  - rewrite (run_NextConnIDs_round h1 inst di Hinst).
    + simpl. unfold rotate. rewrite Nat.Div0.mod_0_l. simpl.
      by rewrite app_nil_r, Hpool.
    + pose proof (len_pos _ Hne). simpl. lia.
    + rewrite Hpool. by apply fits_elems.
Qed.

Lemma tryAll_in_pool_order_witness :
  ∃ h', run (tryAll 1%positive) heap2 =
          Done (ID <$> pool heap2 (with_nextConnIdx 1 (fresh_dispatcher_on 4%positive))) h' ∧
        dispatchers h' !! 1%positive = Some (with_nextConnIdx 1 (fresh_dispatcher_on 4%positive)) ∧
        pool h' (with_nextConnIdx 1 (fresh_dispatcher_on 4%positive)) =
          pool heap2 (with_nextConnIdx 1 (fresh_dispatcher_on 4%positive)).
Proof.
  apply (tryAll_in_pool_order heap2 1%positive
           (with_nextConnIdx 1 (fresh_dispatcher_on 4%positive)));
    [vm_compute; reflexivity | reflexivity | exact (proj1 sound_heap1)].
Defined.

(** The source of [heap2] stands at "C"; the loop on an instance of it
    begins at "B". *)
Example tryAll_heap2 :
  ∃ h', run (tryAll 1%positive) heap2 = Done ["B"; "C"; "A"]%string h'.
Proof. eexists. vm_compute. reflexivity. Qed.

(** ** incrNextConnIdx *)

Lemma run_incrNextConnIdx (h : heap) (wd : loc) (d : WeightDispatcher) :
  dispatchers h !! wd = Some d →
  run (incrNextConnIdx wd) h = Done () (advanced wd d h).
Proof.
  intros Hwd. unfold incrNextConnIdx, advanced, next_idx.
  rewrite ?run_bind, ?run_atomic. run_unfold. rewrite Hwd.
  rewrite ?run_bind, ?run_atomic. simpl.
  rewrite lookup_insert_eq. simpl. rewrite elems_set_dispatchers. fold (pool h d).
  destruct (len (pool h d) - 1 <? wrap_int (nextConnIdx d + 1)).
  - rewrite run_atomic. simpl. rewrite lookup_insert_eq.
    unfold set_dispatchers. simpl. by rewrite insert_insert_eq.
  - simpl. done.
Qed.

(** X4: [incrNextConnIdx] on a dispatcher that is not nil returns and
    writes the index only.  From an index [i] below the largest [int] the
    new index is [i + 1] when that is below the length of the pool and 0
    when it is not.  So every index from the last position on goes to 0,
    and on the empty pool every index from -1 on; an index below -1 is
    incremented and is not reset, whatever the pool.  At the largest
    [int] the increment wraps around to the smallest, which the
    comparison with the length does not reset. *)
Theorem incrNextConnIdx_steps (h : heap) (wd : loc) (d : WeightDispatcher) :
  dispatchers h !! wd = Some d →
  min_int ≤ nextConnIdx d ≤ max_int →
  ∃ i,
    run (incrNextConnIdx wd) h =
      Done () (set_dispatchers (insert wd (with_nextConnIdx i d)) h) ∧
    (nextConnIdx d < max_int →
     i = if nextConnIdx d + 1 <? len (pool h d) then nextConnIdx d + 1 else 0) ∧
    (nextConnIdx d = max_int → i = min_int).
Proof.
  intros Hwd Hi. eexists. split; [by apply run_incrNextConnIdx|].
  unfold next_idx, min_int, max_int in *. split.
  - intros Hlt. rewrite wrap_int_small by (unfold max_int; lia).
    destruct (Z.ltb_spec (len (pool h d) - 1) (nextConnIdx d + 1)),
      (Z.ltb_spec (nextConnIdx d + 1) (len (pool h d))); lia.
  - intros ->. pose proof (len_nonneg (pool h d)).
    assert (Hw : wrap_int (2 ^ 63 - 1 + 1) = - 2 ^ 63) by (by vm_compute).
    rewrite Hw. by destruct (Z.ltb_spec (len (pool h d) - 1) (- 2 ^ 63)); [lia|].
Qed.

Lemma incrNextConnIdx_steps_witness :
  ∃ i,
    run (incrNextConnIdx 1%positive) heap1 =
      Done () (set_dispatchers
                 (insert 1%positive (with_nextConnIdx i (fresh_dispatcher_on 4%positive)))
                 heap1) ∧
    (nextConnIdx (fresh_dispatcher_on 4%positive) < max_int →
     i = if nextConnIdx (fresh_dispatcher_on 4%positive) + 1
            <? len (pool heap1 (fresh_dispatcher_on 4%positive))
         then nextConnIdx (fresh_dispatcher_on 4%positive) + 1 else 0) ∧
    (nextConnIdx (fresh_dispatcher_on 4%positive) = max_int → i = min_int).
Proof.
  apply (incrNextConnIdx_steps heap1 1%positive (fresh_dispatcher_on 4%positive));
    [vm_compute; reflexivity | by vm_compute].
Defined.

(** On the empty pool of [heap_none] the index -1 goes to 0, and the
    index -2 goes to -1. *)
Example incrNextConnIdx_negative :
  let at_index i :=
    set_dispatchers
      (insert 1%positive (with_nextConnIdx i (fresh_dispatcher_on 4%positive))) heap_none in
  run (incrNextConnIdx 1%positive) (at_index (-1)) = Done () (at_index 0) ∧
  run (incrNextConnIdx 1%positive) (at_index (-2)) = Done () (at_index (-1)).
Proof. split; by vm_compute. Qed.

(** ** The outcomes of the calls *)

Ltac outcome :=
  split; intros;
  repeat match goal with
    | H : ∃ _, _ |- _ => destruct H
    | H : _ ∧ _ |- _ => destruct H
    | H : _ ∨ _ |- _ => destruct H
    | H : is_Some _ |- _ => destruct H
    | H : Some _ = Some _ |- _ => injection H as <-
    end;
  first [done | congruence | lia | eauto 8].

(** X5: what [NextConnID] does in every heap.  It returns exactly when
    the dispatcher is not nil and its index is an index into its pool; it
    panics with a nil dereference exactly on the nil dispatcher, and with
    an index out of range exactly when the index is negative or at least
    the length of the pool.  It never waits, whatever the state of the
    mutex. *)
Theorem NextConnID_outcomes (h : heap) (wd : loc) :
  (run (NextConnID wd) h = Panicked NilDereference ↔ dispatchers h !! wd = None) ∧
  (run (NextConnID wd) h = Panicked IndexOutOfRange ↔
   ∃ d, dispatchers h !! wd = Some d ∧ ¬ 0 ≤ nextConnIdx d < len (pool h d)) ∧
  ((∃ connID h', run (NextConnID wd) h = Done connID h') ↔
   ∃ d, dispatchers h !! wd = Some d ∧ 0 ≤ nextConnIdx d < len (pool h d)) ∧
  run (NextConnID wd) h ≠ Blocked ∧
  run (NextConnID wd) h ≠ Panicked UnlockOfUnlocked.
Proof.
  destruct (dispatchers h !! wd) as [d|] eqn:Hwd.
  - destruct (index (pool h d) (nextConnIdx d)) as [c|] eqn:Hc.
    + rewrite (run_NextConnID_Some h wd d c Hwd Hc).
      apply index_Some in Hc as [Hi _].
      split_and!; [done|outcome|outcome|done|done].
    + rewrite (run_NextConnID_out_of_range h wd d Hwd Hc).
      assert (Hn : ¬ 0 ≤ nextConnIdx d < len (pool h d)).
      { intros Hi. destruct (index_in_range _ _ Hi) as [c Hc']. congruence. }
      split_and!; [done|outcome|outcome|done|done].
  - rewrite (run_NextConnID_nil h wd Hwd).
    split_and!; [done|outcome|outcome|done|done].
Qed.

(** X6: what [SetProfile] does in every heap.  It returns exactly when
    the profile and the dispatcher are not nil and the mutex is free, and
    then the mutex is free again; it waits exactly when a writer or a
    reader holds the mutex; it panics exactly when the profile or the
    dispatcher is nil, and never on an index or on the unlock. *)
Theorem SetProfile_outcomes (h : heap) (wd pfl : loc) :
  (run (SetProfile wd pfl) h = Panicked NilDereference ↔
   profiles h !! pfl = None ∨ dispatchers h !! wd = None) ∧
  (run (SetProfile wd pfl) h = Blocked ↔
   is_Some (profiles h !! pfl) ∧ ∃ d, dispatchers h !! wd = Some d ∧ mu d ≠ unlocked) ∧
  ((∃ h', run (SetProfile wd pfl) h = Done () h') ↔
   is_Some (profiles h !! pfl) ∧ ∃ d, dispatchers h !! wd = Some d ∧ mu d = unlocked) ∧
  (∀ h', run (SetProfile wd pfl) h = Done () h' →
         ∃ d', dispatchers h' !! wd = Some d' ∧ mu d' = unlocked) ∧
  run (SetProfile wd pfl) h ≠ Panicked IndexOutOfRange ∧
  run (SetProfile wd pfl) h ≠ Panicked UnlockOfUnlocked.
Proof.
  destruct (profiles h !! pfl) as [p|] eqn:Hp.
  - destruct (dispatchers h !! wd) as [d|] eqn:Hwd.
    + destruct (decide (mu d = unlocked)) as [Hmu|Hmu].
      * rewrite (run_SetProfile h wd pfl d p Hwd Hmu Hp).
        split_and!; [outcome|outcome|outcome| |done|done].
        intros h' [= <-]. eexists. split; [apply installed_lookup_new|done].
      * rewrite (run_SetProfile_locked h wd pfl p d Hp Hwd Hmu).
        split_and!; [outcome|outcome|outcome|done|done|done].
    + rewrite (run_SetProfile_nil h wd pfl p Hp Hwd).
      split_and!; [outcome|outcome|outcome|done|done|done].
  - rewrite (run_SetProfile_nil_profile h wd pfl Hp).
    split_and!; [outcome| | |done|done|done].
    + split; [done|]. by intros [[? ?] _].
    + split; [by intros [? ?]|]. by intros [[? ?] _].
Qed.

(** X7: what [GetInstance] does in every heap.  It waits exactly when
    [writer] is set on the mutex of the dispatcher: when a writer holds
    the mutex, or has announced itself in [Lock] and waits for the
    readers to leave.  It returns exactly when the dispatcher is not nil
    and no writer holds the mutex or waits for it, readers or not, and it
    panics exactly on the nil dispatcher.  When it returns, the source is
    as it was, its mutex with the readers it had; the instance is a new
    dispatcher with a free mutex of its own, index 0, and the pool of the
    source in a new array. *)
Theorem GetInstance_outcomes (h : heap) (wd : loc) :
  (run (GetInstance wd) h = Panicked NilDereference ↔ dispatchers h !! wd = None) ∧
  (run (GetInstance wd) h = Blocked ↔
   ∃ d, dispatchers h !! wd = Some d ∧ writer (mu d) = true) ∧
  ((∃ inst h', run (GetInstance wd) h = Done inst h') ↔
   ∃ d, dispatchers h !! wd = Some d ∧ writer (mu d) = false) ∧
  (∀ inst h', run (GetInstance wd) h = Done inst h' →
     dispatchers h !! inst = None ∧
     dispatchers h' !! wd = dispatchers h !! wd ∧
     ∃ d di, dispatchers h !! wd = Some d ∧
             dispatchers h' !! inst = Some di ∧
             mu di = unlocked ∧ nextConnIdx di = 0 ∧
             (conns di ∉ dom (arrays h)) ∧ pool h' di = pool h d) ∧
  run (GetInstance wd) h ≠ Panicked IndexOutOfRange ∧
  run (GetInstance wd) h ≠ Panicked UnlockOfUnlocked.
Proof.
  destruct (dispatchers h !! wd) as [d|] eqn:Hwd.
  - destruct (writer (mu d)) eqn:Hmu.
    + rewrite (run_GetInstance_locked h wd d Hwd Hmu).
      split_and!; [done|outcome|outcome|done|done|done].
    + rewrite (run_GetInstance h wd d Hwd Hmu).
      split_and!; [done|outcome|outcome| |done|done].
      intros inst h' [= <- <-].
      split; [apply fresh_dispatcher|]. split.
      { rewrite lookup_cloned, decide_False; [done|].
        by apply (fresh_dispatcher_ne h wd d). }
      exists d, (fresh_dispatcher_on (fresh (dom (arrays h)))).
      split; [done|]. split; [by rewrite lookup_cloned, decide_True|].
      split; [done|]. split; [done|]. split; [apply is_fresh|].
      unfold pool. rewrite elems_cloned. by rewrite decide_True.
  - rewrite (run_GetInstance_nil h wd Hwd).
    split_and!; [done|outcome|outcome|done|done|done].
Qed.

(** In [heap_read_locked] [GetInstance] returns and [MaxConns] is 3,
    [SetProfile] waits, [NextConnID] panics. *)
Example outcomes_read_locked :
  (∃ h', run (GetInstance 1%positive) heap_read_locked = Done 2%positive h') ∧
  run (MaxConns 1%positive) heap_read_locked = Done 3 heap_read_locked ∧
  run (SetProfile 1%positive 2%positive) heap_read_locked = Blocked ∧
  run (NextConnID 1%positive) heap_read_locked = Panicked IndexOutOfRange.
Proof. split; [eexists; by vm_compute|]. split_and!; by vm_compute. Qed.

(** ** SetProfile sorts before it locks *)

Lemma interleave_waiting {B : Set} (k : nat) (s : action B) (f : B → goroutine) (h : heap) :
  s h = Blocked →
  interleave (replicate k 0%nat) [Act s f] h = Done [Act s f] h.
Proof.
  intros Hs. induction k as [|k IH]; [done|].
  simpl. unfold andThen, step_of. simpl. by rewrite Hs.
Qed.

Lemma announce_held (h : heap) (wd : loc) (d : WeightDispatcher) :
  dispatchers h !! wd = Some d → writer (mu d) = true → announce wd h = Blocked.
Proof. intros Hwd Hw. unfold announce. by rewrite Hwd, Hw. Qed.

Lemma readersLeave_held (h : heap) (wd : loc) (d : WeightDispatcher) :
  dispatchers h !! wd = Some d → readers (mu d) ≠ 0%nat → readersLeave wd h = Blocked.
Proof.
  intros Hwd Hr. unfold readersLeave. rewrite Hwd.
  by destruct (readers (mu d)).
Qed.

(** X8: [SetProfile] sorts the slice of the profile before it takes the
    lock.  A goroutine that calls it while the mutex of the dispatcher is
    held has, however many steps it is given, not returned and not
    written to the slice or the index of the dispatcher, but it has
    sorted the slice of the caller's profile in place.  When a writer has
    the mutex nothing else is written; when readers have it, the second
    step of the goroutine announces it as the writer on the mutex, which
    keeps new readers out. *)
Theorem SetProfile_sorts_before_locking (k : nat) (h : heap) (wd pfl : loc)
  (p : DispatcherProfile) (d : WeightDispatcher) :
  profiles h !! pfl = Some p → dispatchers h !! wd = Some d → mu d ≠ unlocked →
  ∃ g, interleave (replicate (S k) 0%nat) [handle wd (Reconfigure pfl)] h =
         Done [g]
           (if writer (mu d) || (k =? 0)%nat
            then set_arrays (alter sortConns (Conns p)) h
            else set_dispatchers
                   (insert wd (with_mu {| writer := true; readers := readers (mu d) |} d))
                   (set_arrays (alter sortConns (Conns p)) h)) ∧
       (∀ ids, g ≠ Ret ids) ∧
       elems (set_arrays (alter sortConns (Conns p)) h) (Conns p) =
         sortConns (elems h (Conns p)).
Proof.
  intros Hp Hwd Hmu.
  assert (Hsorted : elems (set_arrays (alter sortConns (Conns p)) h) (Conns p) =
                      sortConns (elems h (Conns p))).
  { rewrite elems_sorted. by rewrite decide_True. }
  assert (Hfirst : ∀ rest,
             interleave (0%nat :: rest) [handle wd (Reconfigure pfl)] h =
               interleave rest
                 [Act (announce wd)
                    (λ _, Act (readersLeave wd)
                            (λ _, bind
                                    (atomic (let! c := cloneProfile pfl in
                                             storeDispatcher wd (with_conns c));;
                                     atomic (storeDispatcher wd (with_nextConnIdx 0));;
                                     atomic (Unlock wd))
                                    (λ _, Ret [])))]
                 (set_arrays (alter sortConns (Conns p)) h)).
  { intros rest. unfold handle, SetProfile, Lock.
    change (interleave (0%nat :: rest) ?gs)
      with (let! gs' := step_of 0 gs in interleave rest gs').
    unfold andThen at 1. unfold step_of at 1. simpl.
    unfold sortProfile at 1, andThen at 1, loadProfile at 1. rewrite Hp.
    unfold Sort at 1. simpl. done. }
  change (replicate (S k) 0%nat) with (0%nat :: replicate k 0%nat).
  rewrite Hfirst.
  destruct (writer (mu d)) eqn:Hw; simpl orb; cbv iota.
  - eexists. split; [|split; [|done]].
    + apply interleave_waiting. by apply (announce_held _ wd d).
    + done.
  - destruct k as [|k]; simpl Nat.eqb; cbv iota.
    + eexists. split; [done|]. split; [done|done].
    + assert (Hr : readers (mu d) ≠ 0%nat).
      { intros Hr. apply Hmu. destruct (mu d) as [w r]. simpl in *. by subst. }
      change (replicate (S k) 0%nat) with (0%nat :: replicate k 0%nat).
      change (interleave (0%nat :: replicate k 0%nat) ?gs)
        with (let! gs' := step_of 0 gs in interleave (replicate k 0%nat) gs').
      unfold andThen at 1. unfold step_of at 1. simpl.
      unfold announce at 1. simpl. rewrite Hwd, Hw.
      eexists. split; [|split; [|done]].
      * apply interleave_waiting.
        apply (readersLeave_held _ wd (with_mu {| writer := true; readers := readers (mu d) |} d));
          [apply lookup_insert_eq|done].
      * done.
Qed.

Lemma SetProfile_sorts_before_locking_witness :
  ∃ g, interleave (replicate (S 3) 0%nat) [handle 1%positive (Reconfigure 2%positive)]
         heap_read_locked =
         Done [g]
           (if writer (mu {| mu := {| writer := false; readers := 2 |};
                             conns := 4%positive; nextConnIdx := 3 |}) || (3 =? 0)%nat
            then set_arrays (alter sortConns (Conns profile_DE)) heap_read_locked
            else set_dispatchers
                   (insert 1%positive
                      (with_mu {| writer := true;
                                  readers := readers (mu {| mu := {| writer := false; readers := 2 |};
                                                            conns := 4%positive;
                                                            nextConnIdx := 3 |}) |}
                         {| mu := {| writer := false; readers := 2 |};
                            conns := 4%positive; nextConnIdx := 3 |}))
                   (set_arrays (alter sortConns (Conns profile_DE)) heap_read_locked)) ∧
       (∀ ids, g ≠ Ret ids) ∧
       elems (set_arrays (alter sortConns (Conns profile_DE)) heap_read_locked)
         (Conns profile_DE) =
         sortConns (elems heap_read_locked (Conns profile_DE)).
Proof.
  apply (SetProfile_sorts_before_locking 3 heap_read_locked 1%positive 2%positive
           profile_DE
           {| mu := {| writer := false; readers := 2 |};
              conns := 4%positive; nextConnIdx := 3 |});
    [vm_compute; reflexivity | vm_compute; reflexivity | vm_compute; discriminate].
Defined.

(** The slice of the profile at 2 is "D", "E" in [heap_read_locked];
    after the steps of [SetProfile], which waits for the two readers, it
    is "E", "D".  The pool and the index of the dispatcher are as they
    were, and the writer is announced on its mutex: [GetInstance] now
    waits. *)
Example SetProfile_waiting_has_sorted :
  ∃ g h', interleave [0; 0; 0]%nat [handle 1%positive (Reconfigure 2%positive)]
            heap_read_locked = Done [g] h' ∧
          ID <$> elems heap_read_locked 2%positive = ["D"; "E"]%string ∧
          ID <$> elems h' 2%positive = ["E"; "D"]%string ∧
          selection 1%positive h' = selection 1%positive heap_read_locked ∧
          mutex 1%positive h' = {| writer := true; readers := 2 |} ∧
          run (GetInstance 1%positive) h' = Blocked.
Proof. eexists _, _. split; [by vm_compute|]. split_and!; by vm_compute. Qed.

(** ** MaxConns before NextConnID *)

(** X9: in a heap that the calls maintain, [MaxConns] tells whether
    [NextConnID] can be called: it returns the length of the pool, which
    is at least 1 exactly when [NextConnID] returns an identifier and is 0
    exactly when [NextConnID] panics with an index out of range. *)
Theorem MaxConns_guards_NextConnID (h : heap) (wd : loc) (d : WeightDispatcher) :
  sound h → dispatchers h !! wd = Some d →
  ∃ n, run (MaxConns wd) h = Done n h ∧ 0 ≤ n ≤ max_int ∧
       (1 ≤ n ↔ ∃ connID h', run (NextConnID wd) h = Done connID h') ∧
       (n = 0 ↔ run (NextConnID wd) h = Panicked IndexOutOfRange).
Proof.
  intros Hs Hwd. exists (len (pool h d)). split; [by apply run_MaxConns|].
  pose proof (len_nonneg (pool h d)) as H0.
  pose proof (fits_elems h (conns d) (proj1 Hs)) as Hfit. fold (pool h d) in Hfit.
  split; [lia|].
  destruct (decide (pool h d = [])) as [Hnil|Hne].
  - rewrite (run_NextConnID_empty h wd d Hwd Hnil), Hnil. split; split; try done.
    by intros (? & ? & ?).
  - destruct (run_NextConnID_sound h wd d Hs Hwd Hne) as (c & _ & ->).
    pose proof (len_pos _ Hne). split; split; [eauto|lia|lia|done].
Qed.

Lemma MaxConns_guards_NextConnID_witness :
  ∃ n, run (MaxConns 1%positive) heap1 = Done n heap1 ∧ 0 ≤ n ≤ max_int ∧
       (1 ≤ n ↔ ∃ connID h', run (NextConnID 1%positive) heap1 = Done connID h') ∧
       (n = 0 ↔ run (NextConnID 1%positive) heap1 = Panicked IndexOutOfRange).
Proof.
  apply (MaxConns_guards_NextConnID heap1 1%positive (fresh_dispatcher_on 4%positive));
    [exact sound_heap1 | vm_compute; reflexivity].
Defined.

(** ** What no call touches *)

Lemma preserved_refl (h : heap) : preserved h h.
Proof. by split_and!. Qed.

Lemma preserved_trans (h1 h2 h3 : heap) :
  preserved h1 h2 → preserved h2 h3 → preserved h1 h3.
Proof.
  intros (Hp1 & Ha1 & Hd1 & He1 & Hk1) (Hp2 & Ha2 & Hd2 & He2 & Hk2).
  split_and!.
  - congruence.
  - set_solver.
  - set_solver.
  - intros a Ha. rewrite He2 by set_solver. by apply He1.
  - intros a Ha Hn. rewrite Hk2; [by apply Hk1|set_solver|].
    rewrite Hp1. exact Hn.
Qed.

Lemma preserved_sorted (h : heap) (pfl : loc) (p : DispatcherProfile) :
  profiles h !! pfl = Some p → preserved h (set_arrays (alter sortConns (Conns p)) h).
Proof.
  intros Hp. split_and!.
  - done.
  - simpl. by rewrite dom_sorted.
  - done.
  - intros a Ha. rewrite elems_sorted.
    destruct (decide _); [apply sortConns_perm|done].
  - intros a Ha Hn. simpl. apply lookup_alter_ne. by apply (Hn pfl p).
Qed.

Lemma preserved_installed (h : heap) (wd pfl : loc) (p : DispatcherProfile) :
  profiles h !! pfl = Some p → preserved h (installed wd p h).
Proof.
  intros Hp. split_and!.
  - done.
  - rewrite dom_arrays_installed. set_solver.
  - unfold installed. simpl. rewrite dom_insert_L. set_solver.
  - intros a Ha. rewrite elems_installed.
    rewrite decide_False by (by apply fresh_array_ne).
    destruct (decide _); [apply sortConns_perm|done].
  - intros a Ha Hn. unfold installed, applied. simpl.
    rewrite lookup_insert_ne by (by apply not_eq_sym, fresh_array_ne).
    apply lookup_alter_ne. by apply (Hn pfl p).
Qed.

Lemma preserved_cloned (h : heap) (inst : loc) (d : WeightDispatcher) :
  preserved h (cloned inst d h).
Proof.
  split_and!.
  - done.
  - rewrite dom_arrays_cloned. set_solver.
  - unfold cloned. simpl. rewrite dom_insert_L. set_solver.
  - intros a Ha. by rewrite elems_cloned_old.
  - intros a Ha _. unfold cloned. simpl.
    by rewrite lookup_insert_ne by (by apply not_eq_sym, fresh_array_ne).
Qed.

Lemma preserved_advanced (h : heap) (wd : loc) (d : WeightDispatcher) :
  preserved h (advanced wd d h).
Proof.
  split_and!; try done.
  unfold advanced. simpl. rewrite dom_insert_L. set_solver.
Qed.

Lemma preserved_call (c : call) (h h' : heap) (u : unit) :
  run (do_call c) h = Done u h' → preserved h h'.
Proof.
  destruct c as [pfl|wd pfl|wd|wd|wd]; unfold do_call; rewrite ?run_bind.
  - destruct (run (newDispatcher pfl) h) as [r h1| |] eqn:Hrun; [|done|done].
    simpl. intros Heq. assert (h1 = h') as <- by congruence.
    apply run_newDispatcher_inv in Hrun as (p & Hp & [(_ & _ & ->)|(_ & _ & ->)]).
    + by apply (preserved_installed h _ pfl).
    + by apply (preserved_sorted h pfl).
  - intros Hrun. apply run_SetProfile_inv in Hrun as (p & d & Hp & _ & _ & ->).
    by apply (preserved_installed h _ pfl).
  - destruct (run (GetInstance wd) h) as [r h1| |] eqn:Hrun; [|done|done].
    simpl. intros Heq. assert (h1 = h') as <- by congruence.
    apply run_GetInstance_inv in Hrun as (d & _ & _ & _ & ->).
    apply preserved_cloned.
  - destruct (run (NextConnID wd) h) as [r h1| |] eqn:Hrun; [|done|done].
    simpl. intros Heq. assert (h1 = h') as <- by congruence.
    apply run_NextConnID_inv in Hrun as (d & c & _ & _ & _ & ->).
    apply preserved_advanced.
  - destruct (run (MaxConns wd) h) as [r h1| |] eqn:Hrun; [|done|done].
    simpl. intros Heq. assert (h1 = h') as <- by congruence.
    apply run_MaxConns_inv in Hrun as (d & _ & _ & ->). apply preserved_refl.
Qed.

(** X10: what no sequence of calls on the package does.  Calls that
    return write to no profile: each keeps its strategy and its slice
    header.  They free nothing: every array and every dispatcher that was
    allocated still is.  They add no descriptor to an array and take none
    away, the arrays of the profiles are reordered at most; and an array
    that no profile holds, as the pool of a dispatcher is when pools are
    private, is never written once it exists. *)
Theorem calls_preserve_descriptors (cs : list call) (h h' : heap) :
  run (do_calls cs) h = Done () h' → preserved h h'.
Proof.
  revert h. induction cs as [|c cs IH]; intros h.
  - simpl. intros Heq. assert (h = h') as <- by congruence. apply preserved_refl.
  - change (do_calls (c :: cs)) with (do_call c ;; do_calls cs). rewrite run_bind.
    destruct (run (do_call c) h) as [r h1| |] eqn:Hrun; [|done|done].
    intros Hrest. eapply preserved_trans; [by eapply preserved_call|by apply IH].
Qed.

Lemma calls_preserve_descriptors_witness :
  preserved heap0 (heap_after mixed_calls heap0).
Proof.
  apply (calls_preserve_descriptors mixed_calls heap0 (heap_after mixed_calls heap0)).
  vm_compute. reflexivity.
Defined.

(** ** Pools stay private *)

(** X11: that every dispatcher has a backing array of its own, which no
    profile and no other dispatcher holds, is an invariant: when it holds
    in a heap that the calls maintain, and so in every heap without
    dispatchers, it holds after every sequence of calls that returns. *)
Theorem pools_stay_private (cs : list call) (h h' : heap) :
  sound h → encapsulated h → run (do_calls cs) h = Done () h' → encapsulated h'.
Proof.
  revert h. induction cs as [|c cs IH]; intros h Hs He.
  - simpl. intros Heq. assert (h = h') as <- by congruence. done.
  - change (do_calls (c :: cs)) with (do_call c ;; do_calls cs). rewrite run_bind.
    destruct (run (do_call c) h) as [r h1| |] eqn:Hrun; [|done|done].
    intros Hrest. apply (IH h1); [by eapply sound_call|by eapply encapsulated_call|done].
Qed.

Lemma pools_stay_private_witness : encapsulated (heap_after mixed_calls heap0).
Proof.
  apply (pools_stay_private mixed_calls heap0 (heap_after mixed_calls heap0));
    [exact sound_heap0 | by apply encapsulated_no_dispatchers | vm_compute; reflexivity].
Defined.
